(** * A shallow embedding of the Vimeo lightbox controller (src/lightbox.js)

    The script is a browser-side controller: a readiness gate, a manager of
    looping preview iframes, and the [VimeoLightbox] class that opens a modal,
    locks scrolling, owns one Vimeo player handle and drives a timeline and a
    centre toast.  The embedding keeps the fields of the class and the pieces
    of the DOM that the methods read and write as records, passes them
    explicitly, and represents the browser (timers, the player SDK, layout,
    the clock) as explicit arguments and queues.

    Part I holds the definitions, Part II the properties. *)

From Stdlib Require Import ZArith QArith Qround Qminmax Qabs Ascii String Bool Lia.
From Stdlib Require Import DecimalString Decimal DecimalPos DecimalN.
From Stdlib Require Import Lqa.
From stdpp Require Import base option list gmap strings.

Local Open Scope Z_scope.

(* ===================================================================== *)
(** * Part I.  The model                                                  *)
(* ===================================================================== *)

(** ** JavaScript strings *)

Module JsString.

(** [String.prototype.includes]-style search, as used by a literal
    [RegExp.test] without anchors. *)
Fixpoint includes (pat s : string) : bool :=
  if String.prefix pat s then true
  else match s with
       | EmptyString => false
       | String _ rest => includes pat rest
       end.

Definition is_digit (c : ascii) : bool :=
  let n := Ascii.nat_of_ascii c in (48 <=? n)%nat && (n <=? 57)%nat.

(** [/pat\d+/.test(s)]: an occurrence of [pat] directly followed by a digit. *)
Fixpoint includes_then_digit (pat s : string) : bool :=
  let here :=
    String.prefix pat s &&
    match String.get (String.length pat) s with
    | Some c => is_digit c
    | None => false
    end in
  if here then true
  else match s with
       | EmptyString => false
       | String _ rest => includes_then_digit pat rest
       end.

(** JavaScript truthiness of a string: the empty string is falsy. *)
Definition truthy (s : string) : bool :=
  match s with EmptyString => false | _ => true end.

(** The text of a URL after its first question mark, up to a fragment. *)
Fixpoint before_hash (s : string) : string :=
  match s with
  | EmptyString => EmptyString
  | String c rest =>
      if Ascii.eqb c "#" then EmptyString else String c (before_hash rest)
  end.

Fixpoint url_query (s : string) : option string :=
  match s with
  | EmptyString => None
  | String c rest =>
      if Ascii.eqb c "?" then Some (before_hash rest)
      else if Ascii.eqb c "#" then None
      else url_query rest
  end.

Fixpoint mentions (c : ascii) (s : string) : bool :=
  match s with
  | EmptyString => false
  | String d rest => Ascii.eqb c d || mentions c rest
  end.

End JsString.

(** ** Platform detection: [isAutoplayRestricted] *)

Module Platform.

Record navigator := {
  userAgent : string;
  vendor : string;
  opera : option string;         (* [window.opera], usually undefined *)
  platform : string;
  maxTouchPoints : nat
}.

(** [navigator.userAgent || navigator.vendor || window.opera], then coerced
    to a string by [RegExp.prototype.test]. *)
Definition ua_string (nav : navigator) : string :=
  if JsString.truthy (userAgent nav) then userAgent nav
  else if JsString.truthy (vendor nav) then vendor nav
  else match opera nav with
       | Some o => o
       | None => "undefined"
       end.

Definition isAutoplayRestricted (nav : navigator) : bool :=
  let ua := ua_string nav in
  let isIOS :=
    (JsString.includes "iPad" ua || JsString.includes "iPhone" ua
     || JsString.includes "iPod" ua)
    || (String.eqb (platform nav) "MacIntel" && (1 <? maxTouchPoints nav)%nat) in
  let isAndroid := JsString.includes "Android" ua in
  let isMobileChrome :=
    JsString.includes_then_digit "Chrome/" ua && JsString.includes "Mobile" ua in
  isIOS || isAndroid || isMobileChrome.

End Platform.

(** ** Embed URLs *)

Module Embed.

Definition player_base : string := "https://player.vimeo.com/video/".

(** The [src] template of [createLoopVideoIframe]. *)
Definition loop_src (thumbnailId : string) : string :=
  player_base +:+ thumbnailId +:+
  "?background=1&autoplay=1&loop=1&muted=1&controls=0&title=0&byline=0&portrait=0&playsinline=1".

(** A [dataset] entry may be missing; a template literal prints it as
    the text "undefined". *)
Definition template_text (v : option string) : string :=
  match v with Some s => s | None => "undefined" end.

(** The [embedUrl] of [loadVideo]. *)
Definition embedUrl (restricted : bool) (vimeoId : option string) : string :=
  if restricted
  then player_base +:+ template_text vimeoId +:+
       "?background=1&autoplay=0&muted=0&controls=0&dnt=1&transparent=0&playsinline=1"
  else player_base +:+ template_text vimeoId +:+
       "?autoplay=0&muted=0&controls=0&dnt=1&transparent=0&playsinline=1".

(** The guard at the head of [createLoopVideoIframe]: an absent or empty id
    and the two sentinel texts create no iframe. *)
Definition loop_id_usable (thumbnailId : option string) : option string :=
  match thumbnailId with
  | None => None
  | Some id =>
      if negb (JsString.truthy id) || String.eqb id "INVALID_ID_FOR_TESTING"
         || String.eqb id "undefined"
      then None else Some id
  end.

End Embed.

(** ** JavaScript numbers

    Pointer coordinates, layout boxes, durations and playback times are IEEE
    doubles in the browser.  The model keeps the finite ones as exact
    rationals and adds the three special values a division by zero can
    produce, so that [Math.min], [Math.max], [/], [*] and [%] follow
    ECMAScript on them; rounding of finite results is not modelled. *)

Module JsNum.

Inductive num : Type :=
| Fin (q : Q)
| PInf
| NInf
| NaN.

Definition of_Z (z : Z) : num := Fin (inject_Z z).

Definition Qsign_pos (q : Q) : bool := if Qlt_le_dec 0 q then true else false.
Definition Qis_zero (q : Q) : bool := Qeq_bool q 0.

(** [a / b] *)
Definition div (a b : num) : num :=
  match a, b with
  | NaN, _ | _, NaN => NaN
  | Fin p, Fin q =>
      if Qis_zero q
      then (if Qis_zero p then NaN else if Qsign_pos p then PInf else NInf)
      else Fin (p / q)
  | Fin _, (PInf | NInf) => Fin 0
  | (PInf | NInf), (PInf | NInf) => NaN
  | PInf, Fin q => if Qsign_pos q || Qis_zero q then PInf else NInf
  | NInf, Fin q => if Qsign_pos q || Qis_zero q then NInf else PInf
  end.

(** [a * b] *)
Definition mul (a b : num) : num :=
  match a, b with
  | NaN, _ | _, NaN => NaN
  | Fin p, Fin q => Fin (p * q)
  | Fin p, PInf | PInf, Fin p =>
      if Qis_zero p then NaN else if Qsign_pos p then PInf else NInf
  | Fin p, NInf | NInf, Fin p =>
      if Qis_zero p then NaN else if Qsign_pos p then NInf else PInf
  | PInf, PInf | NInf, NInf => PInf
  | PInf, NInf | NInf, PInf => NInf
  end.

(** [Math.min(a, b)] and [Math.max(a, b)]: a NaN argument gives NaN. *)
Definition min (a b : num) : num :=
  match a, b with
  | NaN, _ | _, NaN => NaN
  | NInf, _ | _, NInf => NInf
  | PInf, x | x, PInf => x
  | Fin p, Fin q => Fin (Qmin p q)
  end.

Definition max (a b : num) : num :=
  match a, b with
  | NaN, _ | _, NaN => NaN
  | PInf, _ | _, PInf => PInf
  | NInf, x | x, NInf => x
  | Fin p, Fin q => Fin (Qmax p q)
  end.

(** [Math.floor] *)
Definition floor (a : num) : num :=
  match a with
  | Fin q => of_Z (Qfloor q)
  | other => other
  end.

(** Truncation toward zero, used by the remainder. *)
Definition Qtrunc (q : Q) : Z :=
  if Qlt_le_dec q 0 then Qceiling q else Qfloor q.

(** [a % b]: the result takes the sign of the dividend. *)
Definition rem (a b : num) : num :=
  match a, b with
  | NaN, _ | _, NaN => NaN
  | (PInf | NInf), _ => NaN
  | Fin p, (PInf | NInf) => Fin p
  | Fin p, Fin q =>
      if Qis_zero q then NaN else Fin (p - q * inject_Z (Qtrunc (p / q)))
  end.

(** [v === 0] and [v > 0] *)
Definition is_zero (v : num) : bool :=
  match v with Fin q => Qis_zero q | _ => false end.

Definition is_pos (v : num) : bool :=
  match v with Fin q => Qsign_pos q | PInf => true | _ => false end.

(** [Number.prototype.toString] on the values [Math.floor] returns.  Integers
    below 10^21 print in plain decimal; larger ones, which the model does not
    distinguish, would print with an exponent. *)
Definition int_text (z : Z) : string :=
  NilZero.string_of_int (Z.to_int z).

Definition to_text (v : num) : string :=
  match v with
  | Fin q => int_text (Qfloor q)
  | PInf => "Infinity"
  | NInf => "-Infinity"
  | NaN => "NaN"
  end.

(** [s.padStart(2, '0')] *)
Definition padStart2 (s : string) : string :=
  match String.length s with
  | O => "00"
  | S O => "0" +:+ s
  | _ => s
  end.

(** Equality of numeric values ([Q] is not canonical). *)
Definition same (a b : num) : Prop :=
  match a, b with
  | Fin p, Fin q => (p == q)%Q
  | PInf, PInf | NInf, NInf | NaN, NaN => True
  | _, _ => False
  end.

(** A finite value between 0 and 1. *)
Definition in_unit (a : num) : Prop :=
  match a with Fin q => (0 <= q <= 1)%Q | _ => False end.

Definition le (a b : num) : Prop :=
  match a, b with Fin p, Fin q => (p <= q)%Q | _, _ => False end.

End JsNum.

(** ** Browser timers

    [setTimeout] and [clearTimeout] over a queue of pending timers.  Ids are
    handed out from 1, so a stored id is truthy as in a browser.  A timer is
    due [delay] ms after it is set (immediately for a negative delay); timers
    that are due at the same instant run in the order they were set. *)

Module Timers.

(** What a pending timer will run: the closures passed to [setTimeout]
    in the source, one constructor each. *)
Inductive callback : Type :=
| CbHideCenterToast            (* showCenterToast: () => this.hideCenterToast() *)
| CbShowControls               (* loadVideo: () => this.showControls() *)
| CbRevealLoading              (* showLoading: the 600 ms reveal *)
| CbInitThumbnails             (* closeLightbox: re-create the previews *)
| CbPreviewTimeout             (* createLoopVideoIframe: the 5 s failure check *)
| CbPreviewSettle (frame : nat) (* createLoopVideoIframe: 1 s after [load] *)
| CbTryInitLightbox            (* setTimeout(tryInitLightbox, 500) *)
| CbInitLightbox               (* setTimeout(initLightbox, INIT_RETRY_DELAY_MS) *)
| CbDisconnect (observer : nat). (* observeDOMForLightbox: the 10 s cut-off *)

Record timer := { tid : nat; due : Z; cb : callback }.

Record queue := { pending : list timer; next_id : nat }.

Definition empty : queue := {| pending := []; next_id := 1 |}.

Definition setTimeout (now : Z) (c : callback) (delay : Z) (q : queue)
  : nat * queue :=
  (next_id q,
   {| pending := pending q ++ [{| tid := next_id q; due := now + Z.max 0 delay; cb := c |}];
      next_id := S (next_id q) |}).

Definition clearTimeout (id : nat) (q : queue) : queue :=
  {| pending := filter (fun t => tid t ≠ id) (pending q);
     next_id := next_id q |}.

(** The first timer, in setting order, among those with the least due time. *)
Fixpoint earliest (l : list timer) : option timer :=
  match l with
  | [] => None
  | t :: rest =>
      match earliest rest with
      | Some u => if due u <? due t then Some u else Some t
      | None => Some t
      end
  end.

(** The next timer to run at or before [horizon], removed from the queue. *)
Definition pop_due (horizon : Z) (q : queue) : option (timer * queue) :=
  match earliest (pending q) with
  | Some t =>
      if due t <=? horizon then Some (t, clearTimeout (tid t) q) else None
  | None => None
  end.

(** The event loop restricted to timers: the callbacks due by [horizon] run
    earliest first, each at its due time, through [handle]; [fuel] bounds how
    many run.  [W] is the state around the queue. *)
Section Loop.
Context {W : Type}.
Variable getq : W → queue.
Variable setq : queue → W → W.
Variable handle : timer → W → W.

Fixpoint run (fuel : nat) (horizon : Z) (w : W) : W :=
  match fuel with
  | O => w
  | S fuel' =>
      match pop_due horizon (getq w) with
      | Some (tm, q') => run fuel' horizon (handle tm (setq q' w))
      | None => w
      end
  end.

End Loop.

(** Ids in the queue are below the next id to be handed out, and distinct. *)
Definition wf (q : queue) : Prop :=
  Forall (fun t => (tid t < next_id q)%nat) (pending q)
  ∧ NoDup (tid <$> pending q).

End Timers.

(** ** Scroll locking: the scroll part of [openLightbox] and [closeLightbox]

    Scroll offsets are non-negative JavaScript numbers.  They pass through a
    string here ([style.top] is written with a template literal and read back
    with [parseInt]), so an offset is kept as the decimal numeral that
    [Number.prototype.toString] prints: a whole part and the digits after the
    point (none for a whole number of pixels, never ending in a zero). *)

Module ScrollLock.

Record pixels := { whole : N; frac : string }.

Definition px (n : N) : pixels := {| whole := n; frac := "" |}.

Definition px_text (p : pixels) : string :=
  NilZero.string_of_uint (N.to_uint (whole p)) +:+
  (if JsString.truthy (frac p) then "." +:+ frac p else "").

(** Truthiness of a number: zero is falsy. *)
Definition px_truthy (p : pixels) : bool :=
  negb ((whole p =? 0)%N && negb (JsString.truthy (frac p))).

(** [parseInt(s, 10)]: leading white space, an optional sign, then the
    longest run of decimal digits; [None] stands for NaN. *)
Definition is_space (c : ascii) : bool :=
  let n := Ascii.nat_of_ascii c in
  (n =? 32)%nat || ((9 <=? n)%nat && (n <=? 13)%nat).

Fixpoint skip_space (s : string) : string :=
  match s with
  | String c rest => if is_space c then skip_space rest else s
  | EmptyString => s
  end.

Definition digit_value (c : ascii) : N := N.of_nat (Ascii.nat_of_ascii c - 48).

Fixpoint read_digits (acc : N) (seen : bool) (s : string) : option N :=
  match s with
  | String c rest =>
      if JsString.is_digit c
      then read_digits (10 * acc + digit_value c)%N true rest
      else if seen then Some acc else None
  | EmptyString => if seen then Some acc else None
  end.

Definition parseInt10 (s : string) : option Z :=
  match skip_space s with
  | String c rest =>
      if Ascii.eqb c "-" then (λ n, - Z.of_N n) <$> read_digits 0 false rest
      else if Ascii.eqb c "+" then Z.of_N <$> read_digits 0 false rest
      else Z.of_N <$> read_digits 0 false (String c rest)
  | EmptyString => None
  end.

(** [Math.abs] of a [parseInt] result. *)
Definition abs_int (v : option Z) : option pixels := (λ z, px (Z.abs_N z)) <$> v.

(** A method of the smooth-scroll plugin object, as the calls guarded by
    [typeof ... === 'function'] and [try] see it. *)
Inductive method : Type := Works | Missing | Throws.

Record plugin_obj := {
  sm_offset : pixels;              (* what scrollTop() reports *)
  sm_paused : bool;
  m_scrollTop : method;
  m_scrollTo : method;
  m_paused : method
}.

(** Outcome of [window.ScrollSmoother.get()] or the [window.smoother]
    fallbacks. *)
Inductive lookup : Type := Found | NotFound | LookupThrows.

(** The page: window, root element, body and the plugin object. *)
Record page := {
  scrollY : pixels;                (* window.scrollY, alias pageYOffset *)
  html_top : string;               (* documentElement.style.top *)
  html_position : string;
  html_width : string;
  html_scrollBehavior : string;
  html_classes : gset string;
  body_classes : gset string;
  body_overflow : string;
  plugin_lookup : lookup;
  plugin : plugin_obj
}.

(** [window.pageYOffset] is an alias of [window.scrollY]. *)
Definition pageYOffset (pg : page) : pixels := scrollY pg.

(** The fields of [this] that the scroll lock uses.  [smoother] holds a
    reference to the plugin object of the page, or null. *)
Record fields := {
  savedScrollY : pixels;
  prevScrollBehavior : string;
  smoother : bool;
  hadSmoother : bool;
  savedSmootherY : pixels
}.

Definition initial_fields : fields :=
  {| savedScrollY := px 0; prevScrollBehavior := ""; smoother := false;
     hadSmoother := false; savedSmootherY := px 0 |}.

(** Lines 716-725 and, identically, 728-737: the fixed-position lock.  A
    root element with [position: fixed] leaves nothing to scroll, so the
    window offset reads 0 until the lock is undone. *)
Definition native_lock (th : fields) (pg : page) : fields * page :=
  let y := if px_truthy (scrollY pg) then scrollY pg
           else if px_truthy (pageYOffset pg) then pageYOffset pg else px 0 in
  ({| savedScrollY := y;
      prevScrollBehavior := html_scrollBehavior pg;
      smoother := smoother th;
      hadSmoother := hadSmoother th;
      savedSmootherY := savedSmootherY th |},
   {| scrollY := px 0;
      html_top := "-" +:+ px_text y +:+ "px";
      html_position := "fixed";
      html_width := "100%";
      html_scrollBehavior := "auto";
      html_classes := html_classes pg ∪ {["lightbox-active"]};
      body_classes := body_classes pg ∪ {["lightbox-active"]};
      body_overflow := "hidden";
      plugin_lookup := plugin_lookup pg;
      plugin := plugin pg |}).

(** Lines 697-714: the plugin lock. *)
Definition plugin_lock (th : fields) (pg : page) : fields * page :=
  let sm := plugin pg in
  let saved := match m_scrollTop sm with
               | Works => sm_offset sm
               | Missing | Throws => px 0
               end in
  let sm' := match m_paused sm with
             | Works => {| sm_offset := sm_offset sm; sm_paused := true;
                           m_scrollTop := m_scrollTop sm;
                           m_scrollTo := m_scrollTo sm;
                           m_paused := m_paused sm |}
             | Missing | Throws => sm
             end in
  ({| savedScrollY := savedScrollY th;
      prevScrollBehavior := prevScrollBehavior th;
      smoother := true;
      hadSmoother := true;
      savedSmootherY := saved |},
   {| scrollY := scrollY pg;
      html_top := html_top pg;
      html_position := html_position pg;
      html_width := html_width pg;
      html_scrollBehavior := html_scrollBehavior pg;
      html_classes := html_classes pg ∪ {["lightbox-active"]};
      body_classes := body_classes pg ∪ {["lightbox-active"]};
      body_overflow := "hidden";
      plugin_lookup := plugin_lookup pg;
      plugin := sm' |}).

(** Lines 691-738 of [openLightbox]. *)
Definition lock (th : fields) (pg : page) : fields * page :=
  match plugin_lookup pg with
  | Found => plugin_lock th pg
  | NotFound => native_lock th pg
  | LookupThrows => native_lock th pg
  end.

(** [window.scrollTo(0, y)]; a NaN coordinate is treated as 0. *)
Definition window_scrollTo (y : option pixels) : pixels :=
  match y with Some p => p | None => px 0 end.

(** Lines 750-765 of [closeLightbox]: resume the plugin at the saved offset. *)
Definition plugin_unlock (th : fields) (pg : page) : fields * page :=
  let sm := plugin pg in
  let moved :=
    match m_scrollTo sm with
    | Works => Some (savedSmootherY th)
    | Throws => None
    | Missing => match m_scrollTop sm with
                 | Works => Some (savedSmootherY th)
                 | Missing | Throws => None
                 end
    end in
  let threw :=
    match m_scrollTo sm with
    | Throws => true
    | Works => false
    | Missing => match m_scrollTop sm with Throws => true | _ => false end
    end in
  let sm' :=
    {| sm_offset := match moved with Some y => y | None => sm_offset sm end;
       sm_paused := if threw then sm_paused sm
                    else match m_paused sm with
                         | Works => false
                         | Missing | Throws => sm_paused sm
                         end;
       m_scrollTop := m_scrollTop sm;
       m_scrollTo := m_scrollTo sm;
       m_paused := m_paused sm |} in
  ({| savedScrollY := savedScrollY th;
      prevScrollBehavior := prevScrollBehavior th;
      smoother := false;
      hadSmoother := false;
      savedSmootherY := savedSmootherY th |},
   {| scrollY := scrollY pg;
      html_top := html_top pg;
      html_position := html_position pg;
      html_width := html_width pg;
      html_scrollBehavior := html_scrollBehavior pg;
      html_classes := html_classes pg ∖ {["lightbox-active"]};
      body_classes := body_classes pg ∖ {["lightbox-active"]};
      body_overflow := "";
      plugin_lookup := plugin_lookup pg;
      plugin := sm' |}).

(** Lines 767-780 of [closeLightbox]: undo the fixed-position lock. *)
Definition native_unlock (th : fields) (pg : page) : fields * page :=
  let topStr := html_top pg in
  let targetY :=
    if JsString.truthy topStr then abs_int (parseInt10 topStr)
    else Some (if px_truthy (savedScrollY th) then savedScrollY th else px 0) in
  (th,
   {| scrollY := window_scrollTo targetY;
      html_top := "";
      html_position := "";
      html_width := "";
      html_scrollBehavior := prevScrollBehavior th;
      html_classes := html_classes pg ∖ {["lightbox-active"]};
      body_classes := body_classes pg ∖ {["lightbox-active"]};
      body_overflow := "";
      plugin_lookup := plugin_lookup pg;
      plugin := plugin pg |}).

(** Lines 749-781 of [closeLightbox]. *)
Definition unlock (th : fields) (pg : page) : fields * page :=
  if hadSmoother th && smoother th then plugin_unlock th pg
  else native_unlock th pg.

(** The offset the user sees: the plugin's when it drives the page, the
    window's otherwise. *)
Definition visible_offset (pg : page) : pixels :=
  match plugin_lookup pg with
  | Found => sm_offset (plugin pg)
  | NotFound | LookupThrows => scrollY pg
  end.

End ScrollLock.

(** ** The centre toast: [showCenterToast] and [hideCenterToast]

    The two methods touch the [.control-indicator] element, its text node,
    the fields [pauseTimeout] and [toastLockUntil], and the timer queue.  The
    clock value passed in is what [Date.now()] returns during the call. *)

Module Toast.
Import Timers.

Record indicator := {
  classList : gset string;
  opacity : string;                (* style.opacity *)
  visibility : string              (* style.visibility *)
}.

Record toast := {
  pauseIndicator : option indicator;
  pauseText : option string;       (* textContent of [.control-text] *)
  pauseTimeout : option nat;
  toastLockUntil : Z
}.

Definition drop_pending (t : toast) (q : queue) : queue :=
  match pauseTimeout t with
  | Some id => clearTimeout id q
  | None => q
  end.

Definition showCenterToast (now : Z) (message : string) (durationMs : Z)
  (t : toast) (q : queue) : toast * queue :=
  match pauseIndicator t with
  | None => (t, q)
  | Some el =>
      let q1 := drop_pending t q in
      let text := match pauseText t with
                  | Some _ => Some message
                  | None => None
                  end in
      let el' := {| classList := classList el ∪ {["active"]};
                    opacity := "1";
                    visibility := "visible" |} in
      let '(id, q2) := setTimeout now CbHideCenterToast durationMs q1 in
      ({| pauseIndicator := Some el';
          pauseText := text;
          pauseTimeout := Some id;
          toastLockUntil := now + durationMs |}, q2)
  end.

Definition hideCenterToast (now : Z) (t : toast) (q : queue) : toast * queue :=
  match pauseIndicator t with
  | None => (t, q)
  | Some el =>
      if negb (toastLockUntil t =? 0) && (now <? toastLockUntil t)
      then (t, q)
      else
        ({| pauseIndicator :=
              Some {| classList := classList el ∖ {["active"]};
                      opacity := "";
                      visibility := "" |};
            pauseText := pauseText t;
            pauseTimeout := None;
            toastLockUntil := 0 |},
         drop_pending t q)
  end.

(** The toast is on screen when its element carries the [active] class. *)
Definition shown (t : toast) : bool :=
  match pauseIndicator t with
  | Some el => bool_decide ("active" ∈ classList el)
  | None => false
  end.

(** Running the toast's timers: every pending [hideCenterToast] callback due
    by [horizon] runs at its due time, earliest first; the other callbacks of
    the queue do not touch the toast and are only taken off the queue. *)
Definition fire (tm : timer) (t : toast) (q : queue) : toast * queue :=
  match cb tm with
  | CbHideCenterToast => hideCenterToast (due tm) t q
  | _ => (t, q)
  end.

Definition run (fuel : nat) (horizon : Z) (t : toast) (q : queue) : toast * queue :=
  Timers.run snd (λ q' w, (fst w, q')) (λ tm w, fire tm (fst w) (snd w))
             fuel horizon (t, q).

(** A stretch of time with [hideCenterToast] called at the given instants and
    nothing else: before each call the timers due by then run, and at the
    end those due by [horizon]. *)
Fixpoint hides_then (fuel : nat) (calls : list Z) (horizon : Z)
  (t : toast) (q : queue) : toast * queue :=
  match calls with
  | [] => run fuel horizon t q
  | now :: rest =>
      let '(t1, q1) := run fuel now t q in
      let '(t2, q2) := hideCenterToast now t1 q1 in
      hides_then fuel rest horizon t2 q2
  end.

End Toast.

(** ** The [VimeoLightbox] class *)

Module Lightbox.
Import JsNum Timers.

(** How a statement sequence ends: normally, or by an exception that leaves
    the method with the effects made so far. *)
Inductive completion (A : Type) : Type :=
| Done (a : A)
| Thrown (a : A).
Arguments Done {A} a.
Arguments Thrown {A} a.

Definition state_of {A} (c : completion A) : A :=
  match c with Done a | Thrown a => a end.

Definition and_then {A} (c : completion A) (k : A → completion A) : completion A :=
  match c with
  | Done a => k a
  | Thrown a => Thrown a
  end.

(** *** The player SDK, seen from the page *)

Inductive call : Type :=
| SetMuted (b : bool)
| SetVolume (v : num)
| Play
| Pause
| SetCurrentTime (t : num)
| GetDuration
| Ready
| On (event : string)
| Destroy.

(** What a call on a handle does: it returns a promise that resolves or
    rejects, or it throws before returning one. *)
Inductive settlement : Type := Resolves | Rejects | ThrowsSync.

(** [live] holds the handles constructed and not yet destroyed, [log] every
    method call in order, [unhandled] counts rejected promises that no
    handler was attached to. *)
Record sdk := {
  live : gset nat;
  fresh : nat;
  log : list (nat * call);
  unhandled : nat
}.

(** The browser around the controller. *)
Record browser := {
  nav : Platform.navigator;
  settles : list (nat * call) → nat → call → settlement;
  constructor_throws : nat → bool       (* does [new Vimeo.Player] throw *)
}.

(** *** The DOM elements and fields of [this] *)

(** The two fields of [getBoundingClientRect()] the timeline reads. *)
Record rect := { left : Q; width : Q }.

(** An inline style length written from a template literal: the empty
    string, [`${v}%`] or [`${v}px`], kept with its number. *)
Inductive css : Type :=
| CssNone
| CssPercent (v : num)
| CssPx (v : Q).

Record hover_label := {
  h_text : string;
  h_left : css;
  h_opacity : string;
  h_visibility : string
}.

Record timeline := {
  timelineContainer : option rect;
  timelineTrack : option rect;
  timelineProgress : option css;           (* style.width *)
  timelineHandle : option css;             (* style.left *)
  timelineHoverTime : option hover_label
}.

Record chrome := {
  loading : option (gset string);          (* classList of [.loading] *)
  loadingTimeoutId : option nat;
  allowLoader : bool;
  errorPlaceholder : option (gset string); (* classList *)
  controls : option string                 (* style.display of [.controls] *)
}.

Record labels := {
  videoTitle : string;
  playBtn : string;
  currentTimeEl : option string;
  totalTimeEl : option string;
  muteBtn : option string                  (* text and aria-label *)
}.

Record frame := { src : string; frame_opacity : string }.

Record session := {
  currentPlayer : option nat;
  isPlaying : bool;
  isMuted : bool;
  videoDuration : num;
  isDragging : bool;
  videoFrame : option frame
}.

(** The controller with its surroundings.  Fields that no method reads
    ([lightboxOpenedAt], [lastUserGestureTs], [autoUnmuteDone]) are left out. *)
Record lightbox := {
  ses : session;
  ui : chrome;
  lbl : labels;
  tl : timeline;
  tst : Toast.toast;
  lb_classes : gset string;                (* classList of [#lightbox] *)
  sl : ScrollLock.fields;
  pg : ScrollLock.page;
  ext : sdk;
  tq : queue
}.

Definition with_ses (f : session → session) (s : lightbox) : lightbox :=
  {| ses := f (ses s); ui := ui s; lbl := lbl s; tl := tl s; tst := tst s;
     lb_classes := lb_classes s; sl := sl s; pg := pg s; ext := ext s; tq := tq s |}.
Definition with_ui (f : chrome → chrome) (s : lightbox) : lightbox :=
  {| ses := ses s; ui := f (ui s); lbl := lbl s; tl := tl s; tst := tst s;
     lb_classes := lb_classes s; sl := sl s; pg := pg s; ext := ext s; tq := tq s |}.
Definition with_lbl (f : labels → labels) (s : lightbox) : lightbox :=
  {| ses := ses s; ui := ui s; lbl := f (lbl s); tl := tl s; tst := tst s;
     lb_classes := lb_classes s; sl := sl s; pg := pg s; ext := ext s; tq := tq s |}.
Definition with_tl (f : timeline → timeline) (s : lightbox) : lightbox :=
  {| ses := ses s; ui := ui s; lbl := lbl s; tl := f (tl s); tst := tst s;
     lb_classes := lb_classes s; sl := sl s; pg := pg s; ext := ext s; tq := tq s |}.
Definition with_ext (f : sdk → sdk) (s : lightbox) : lightbox :=
  {| ses := ses s; ui := ui s; lbl := lbl s; tl := tl s; tst := tst s;
     lb_classes := lb_classes s; sl := sl s; pg := pg s; ext := f (ext s); tq := tq s |}.
Definition with_tq (f : queue → queue) (s : lightbox) : lightbox :=
  {| ses := ses s; ui := ui s; lbl := lbl s; tl := tl s; tst := tst s;
     lb_classes := lb_classes s; sl := sl s; pg := pg s; ext := ext s; tq := f (tq s) |}.
Definition with_toast (f : Toast.toast → queue → Toast.toast * queue)
  (s : lightbox) : lightbox :=
  let '(t, q) := f (tst s) (tq s) in
  {| ses := ses s; ui := ui s; lbl := lbl s; tl := tl s; tst := t;
     lb_classes := lb_classes s; sl := sl s; pg := pg s; ext := ext s; tq := q |}.
Definition with_scroll
  (f : ScrollLock.fields → ScrollLock.page → ScrollLock.fields * ScrollLock.page)
  (s : lightbox) : lightbox :=
  let '(th, p) := f (sl s) (pg s) in
  {| ses := ses s; ui := ui s; lbl := lbl s; tl := tl s; tst := tst s;
     lb_classes := lb_classes s; sl := th; pg := p; ext := ext s; tq := tq s |}.
Definition with_classes (f : gset string → gset string) (s : lightbox) : lightbox :=
  {| ses := ses s; ui := ui s; lbl := lbl s; tl := tl s; tst := tst s;
     lb_classes := f (lb_classes s); sl := sl s; pg := pg s; ext := ext s; tq := tq s |}.

(** Field updates of the smaller records. *)
Definition set_currentPlayer (p : option nat) (x : session) : session :=
  {| currentPlayer := p; isPlaying := isPlaying x; isMuted := isMuted x;
     videoDuration := videoDuration x; isDragging := isDragging x;
     videoFrame := videoFrame x |}.
Definition set_isPlaying (b : bool) (x : session) : session :=
  {| currentPlayer := currentPlayer x; isPlaying := b; isMuted := isMuted x;
     videoDuration := videoDuration x; isDragging := isDragging x;
     videoFrame := videoFrame x |}.
Definition set_isMuted (b : bool) (x : session) : session :=
  {| currentPlayer := currentPlayer x; isPlaying := isPlaying x; isMuted := b;
     videoDuration := videoDuration x; isDragging := isDragging x;
     videoFrame := videoFrame x |}.
Definition set_videoDuration (d : num) (x : session) : session :=
  {| currentPlayer := currentPlayer x; isPlaying := isPlaying x; isMuted := isMuted x;
     videoDuration := d; isDragging := isDragging x;
     videoFrame := videoFrame x |}.
Definition set_isDragging (b : bool) (x : session) : session :=
  {| currentPlayer := currentPlayer x; isPlaying := isPlaying x; isMuted := isMuted x;
     videoDuration := videoDuration x; isDragging := b;
     videoFrame := videoFrame x |}.
Definition set_videoFrame (f : option frame) (x : session) : session :=
  {| currentPlayer := currentPlayer x; isPlaying := isPlaying x; isMuted := isMuted x;
     videoDuration := videoDuration x; isDragging := isDragging x;
     videoFrame := f |}.

Definition set_loading (c : option (gset string)) (x : chrome) : chrome :=
  {| loading := c; loadingTimeoutId := loadingTimeoutId x;
     allowLoader := allowLoader x; errorPlaceholder := errorPlaceholder x;
     controls := controls x |}.
Definition set_loadingTimeoutId (i : option nat) (x : chrome) : chrome :=
  {| loading := loading x; loadingTimeoutId := i;
     allowLoader := allowLoader x; errorPlaceholder := errorPlaceholder x;
     controls := controls x |}.
Definition set_allowLoader (b : bool) (x : chrome) : chrome :=
  {| loading := loading x; loadingTimeoutId := loadingTimeoutId x;
     allowLoader := b; errorPlaceholder := errorPlaceholder x;
     controls := controls x |}.
Definition set_errorPlaceholder (c : option (gset string)) (x : chrome) : chrome :=
  {| loading := loading x; loadingTimeoutId := loadingTimeoutId x;
     allowLoader := allowLoader x; errorPlaceholder := c;
     controls := controls x |}.
Definition set_controls (d : option string) (x : chrome) : chrome :=
  {| loading := loading x; loadingTimeoutId := loadingTimeoutId x;
     allowLoader := allowLoader x; errorPlaceholder := errorPlaceholder x;
     controls := d |}.

Definition set_playBtn (t : string) (x : labels) : labels :=
  {| videoTitle := videoTitle x; playBtn := t; currentTimeEl := currentTimeEl x;
     totalTimeEl := totalTimeEl x; muteBtn := muteBtn x |}.
Definition set_videoTitle (t : string) (x : labels) : labels :=
  {| videoTitle := t; playBtn := playBtn x; currentTimeEl := currentTimeEl x;
     totalTimeEl := totalTimeEl x; muteBtn := muteBtn x |}.
Definition set_currentTimeEl (t : option string) (x : labels) : labels :=
  {| videoTitle := videoTitle x; playBtn := playBtn x; currentTimeEl := t;
     totalTimeEl := totalTimeEl x; muteBtn := muteBtn x |}.
Definition set_totalTimeEl (t : option string) (x : labels) : labels :=
  {| videoTitle := videoTitle x; playBtn := playBtn x; currentTimeEl := currentTimeEl x;
     totalTimeEl := t; muteBtn := muteBtn x |}.
Definition set_muteBtn (t : option string) (x : labels) : labels :=
  {| videoTitle := videoTitle x; playBtn := playBtn x; currentTimeEl := currentTimeEl x;
     totalTimeEl := totalTimeEl x; muteBtn := t |}.

Definition set_progress (c : option css) (x : timeline) : timeline :=
  {| timelineContainer := timelineContainer x; timelineTrack := timelineTrack x;
     timelineProgress := c; timelineHandle := timelineHandle x;
     timelineHoverTime := timelineHoverTime x |}.
Definition set_handle (c : option css) (x : timeline) : timeline :=
  {| timelineContainer := timelineContainer x; timelineTrack := timelineTrack x;
     timelineProgress := timelineProgress x; timelineHandle := c;
     timelineHoverTime := timelineHoverTime x |}.
Definition set_hover (h : option hover_label) (x : timeline) : timeline :=
  {| timelineContainer := timelineContainer x; timelineTrack := timelineTrack x;
     timelineProgress := timelineProgress x; timelineHandle := timelineHandle x;
     timelineHoverTime := h |}.

(** *** Helpers shared by the methods *)

Definition add_class (c : string) (el : option (gset string)) : option (gset string) :=
  (λ cl, cl ∪ {[c]}) <$> el.
Definition remove_class (c : string) (el : option (gset string)) : option (gset string) :=
  (λ cl, cl ∖ {[c]}) <$> el.

Definition record_call (h : nat) (c : call) (x : sdk) : sdk :=
  {| live := live x; fresh := fresh x; log := log x ++ [(h, c)];
     unhandled := unhandled x |}.
Definition note_unhandled (x : sdk) : sdk :=
  {| live := live x; fresh := fresh x; log := log x;
     unhandled := S (unhandled x) |}.

(** [formatTime] *)
Definition formatTime (seconds : num) : string :=
  let mins := floor (div seconds (of_Z 60)) in
  let secs := floor (rem seconds (of_Z 60)) in
  to_text mins +:+ ":" +:+ padStart2 (to_text secs).

(** Assigning an inline style length: the browser drops a value that is not
    a valid length (a NaN or infinite number, a negative width) and keeps
    the old one. *)
Definition assign_width (old : css) (v : num) : css :=
  match v with
  | Fin q => if Qle_bool 0 q then CssPercent v else old
  | _ => old
  end.
Definition assign_left (old : css) (v : num) : css :=
  match v with
  | Fin _ => CssPercent v
  | _ => old
  end.

(** The [percentage] computed at the head of each of the three timeline
    handlers, as each handler writes it. *)
Definition click_percentage (clientX : Q) (r : rect) : num :=
  let clickX := Fin (clientX - left r) in
  max (of_Z 0) (min (of_Z 1) (div clickX (Fin (width r)))).

Definition hover_percentage (clientX : Q) (r : rect) : num :=
  let hoverX := Fin (clientX - left r) in
  max (of_Z 0) (min (of_Z 1) (div hoverX (Fin (width r)))).

Definition drag_percentage (clientX : Q) (r : rect) : num :=
  let dragX := Fin (clientX - left r) in
  max (of_Z 0) (min (of_Z 1) (div dragX (Fin (width r)))).

Section Methods.

Variable B : browser.

Definition restricted : bool := Platform.isAutoplayRestricted (nav B).

(** [this.currentPlayer.m(...)] as a statement: a null player or a throwing
    method raises; a rejected promise has no handler. *)
Definition call_bare (c : call) (s : lightbox) : completion lightbox :=
  match currentPlayer (ses s) with
  | None => Thrown s
  | Some h =>
      let s' := with_ext (record_call h c) s in
      match settles B (log (ext s)) h c with
      | Resolves => Done s'
      | Rejects => Done (with_ext note_unhandled s')
      | ThrowsSync => Thrown s'
      end
  end.

(** [this.currentPlayer.m(...).catch(() => {})] *)
Definition call_caught (c : call) (s : lightbox) : completion lightbox :=
  match currentPlayer (ses s) with
  | None => Thrown s
  | Some h =>
      let s' := with_ext (record_call h c) s in
      match settles B (log (ext s)) h c with
      | Resolves | Rejects => Done s'
      | ThrowsSync => Thrown s'
      end
  end.

(** A link [.then(() => { try { return this.currentPlayer.m(...); } catch (_) {} })]
    of a promise chain.  The flag tells whether the chain is rejected after
    the link; an exception is swallowed by the [try] and the chain goes on. *)
Definition chain_link (c : call) (s : lightbox) : bool * lightbox :=
  match currentPlayer (ses s) with
  | None => (false, s)
  | Some h =>
      let s' := with_ext (record_call h c) s in
      match settles B (log (ext s)) h c with
      | Resolves => (false, s')
      | Rejects => (true, s')
      | ThrowsSync => (false, s')
      end
  end.

(** [hideControls], [showControls] *)
Definition hideControls (s : lightbox) : lightbox :=
  with_ui (λ x, set_controls ((λ _, "none") <$> controls x) x) s.
Definition showControls (s : lightbox) : lightbox :=
  with_ui (λ x, set_controls ((λ _, "") <$> controls x) x) s.

(** [showLoading] *)
Definition showLoading (now : Z) (s : lightbox) : lightbox :=
  match loading (ui s) with
  | None => s
  | Some _ =>
      if negb (allowLoader (ui s)) then s
      else match loadingTimeoutId (ui s) with
           | Some _ => s
           | None =>
               let '(id, q) := setTimeout now CbRevealLoading 600 (tq s) in
               with_ui (set_loadingTimeoutId (Some id)) (with_tq (λ _, q) s)
           end
  end.

(** The callback armed by [showLoading]. *)
Definition revealLoading (s : lightbox) : lightbox :=
  let s := with_ui (set_loadingTimeoutId None) s in
  if allowLoader (ui s)
  then with_ui (λ x, set_loading (add_class "active" (loading x)) x) s
  else s.

(** [hideLoading] *)
Definition hideLoading (s : lightbox) : lightbox :=
  match loading (ui s) with
  | None => s
  | Some _ =>
      let s := match loadingTimeoutId (ui s) with
               | Some id =>
                   with_ui (set_loadingTimeoutId None) (with_tq (clearTimeout id) s)
               | None => s
               end in
      with_ui (λ x, set_loading (remove_class "active" (loading x)) x) s
  end.

(** [showError], [hideError] *)
Definition showError (s : lightbox) : lightbox :=
  let s := hideLoading s in
  let s := with_ui (λ x, set_errorPlaceholder
                           (add_class "active" (errorPlaceholder x)) x) s in
  hideControls s.

Definition hideError (s : lightbox) : lightbox :=
  let s := with_ui (λ x, set_errorPlaceholder
                           (remove_class "active" (errorPlaceholder x)) x) s in
  showControls s.

(** [updateMuteButtonLabel] *)
Definition updateMuteButtonLabel (s : lightbox) : lightbox :=
  match muteBtn (lbl s) with
  | None => s
  | Some _ =>
      with_lbl (set_muteBtn (Some (if isMuted (ses s) then "Unmute" else "Mute"))) s
  end.

(** [showCenterToast], [hideCenterToast], [showPauseIndicator],
    [hidePauseIndicator] on the controller. *)
Definition showCenterToast (now : Z) (message : string) (durationMs : Z)
  (s : lightbox) : lightbox :=
  with_toast (Toast.showCenterToast now message durationMs) s.

Definition hideCenterToast (now : Z) (s : lightbox) : lightbox :=
  with_toast (Toast.hideCenterToast now) s.

Definition showPauseIndicator (now : Z) (s : lightbox) : lightbox :=
  match Toast.pauseIndicator (tst s) with
  | None => s
  | Some _ =>
      let s := with_toast (λ t q,
                 ({| Toast.pauseIndicator := Toast.pauseIndicator t;
                     Toast.pauseText := Toast.pauseText t;
                     Toast.pauseTimeout := None;
                     Toast.toastLockUntil := Toast.toastLockUntil t |},
                  Toast.drop_pending t q)) s in
      showCenterToast now "Paused" 1000 s
  end.

Definition hidePauseIndicator (now : Z) (s : lightbox) : lightbox :=
  hideCenterToast now s.

(** [updateTimelinePosition]: both elements are dereferenced unguarded. *)
Definition updateTimelinePosition (percentage : num) (s : lightbox)
  : completion lightbox :=
  let v := mul percentage (of_Z 100) in
  match timelineProgress (tl s) with
  | None => Thrown s
  | Some w =>
      let s := with_tl (set_progress (Some (assign_width w v))) s in
      match timelineHandle (tl s) with
      | None => Thrown s
      | Some l => Done (with_tl (set_handle (Some (assign_left l v))) s)
      end
  end.

(** *** Timeline handlers.  The pointer event is given by its [clientX]. *)

Definition handleTimelineClick (clientX : Q) (s : lightbox) : completion lightbox :=
  match currentPlayer (ses s) with
  | None => Done s
  | Some _ =>
      if is_zero (videoDuration (ses s)) then Done s
      else
        match timelineTrack (tl s) with
        | None => Thrown s
        | Some r =>
            let percentage := click_percentage clientX r in
            let seekTime := mul percentage (videoDuration (ses s)) in
            and_then (call_bare (SetCurrentTime seekTime) s)
                     (updateTimelinePosition percentage)
        end
  end.

Definition handleTimelineHover (clientX : Q) (s : lightbox) : completion lightbox :=
  match timelineContainer (tl s) with
  | None => Done s
  | Some containerRect =>
      if is_zero (videoDuration (ses s)) then Done s
      else
        match timelineTrack (tl s) with
        | None => Thrown s
        | Some r =>
            let percentage := hover_percentage clientX r in
            let hoverTime := mul percentage (videoDuration (ses s)) in
            match timelineHoverTime (tl s) with
            | None => Thrown s
            | Some h =>
                let relativeX := (clientX - left containerRect)%Q in
                Done (with_tl (set_hover
                        (Some {| h_text := formatTime hoverTime;
                                 h_left := CssPx relativeX;
                                 h_opacity := "1";
                                 h_visibility := h_visibility h |})) s)
            end
        end
  end.

Definition handleTimelineDrag (clientX : Q) (s : lightbox) : completion lightbox :=
  match currentPlayer (ses s) with
  | None => Done s
  | Some _ =>
      if is_zero (videoDuration (ses s)) then Done s
      else
        match timelineTrack (tl s) with
        | None => Thrown s
        | Some r =>
            let percentage := drag_percentage clientX r in
            let seekTime := mul percentage (videoDuration (ses s)) in
            and_then (call_bare (SetCurrentTime seekTime) s) (λ s,
            and_then (updateTimelinePosition percentage s) (λ s,
              match timelineHoverTime (tl s), timelineContainer (tl s) with
              | Some h, Some containerRect =>
                  let relativeX := (clientX - left containerRect)%Q in
                  Done (with_tl (set_hover
                          (Some {| h_text := formatTime seekTime;
                                   h_left := CssPx relativeX;
                                   h_opacity := "1";
                                   h_visibility := "visible" |})) s)
              | _, _ => Done s
              end))
        end
  end.

(** [startDragging] and [stopDragging]; the body cursor is not modelled. *)
Definition startDragging (s : lightbox) : lightbox :=
  let s := with_ses (set_isDragging true) s in
  match timelineHoverTime (tl s) with
  | Some h =>
      with_tl (set_hover (Some {| h_text := h_text h; h_left := h_left h;
                                  h_opacity := "1";
                                  h_visibility := "visible" |})) s
  | None => s
  end.

Definition stopDragging (s : lightbox) : lightbox :=
  let s := with_ses (set_isDragging false) s in
  match timelineHoverTime (tl s) with
  | Some h =>
      with_tl (set_hover (Some {| h_text := h_text h; h_left := h_left h;
                                  h_opacity := "0";
                                  h_visibility := "hidden" |})) s
  | None => s
  end.

(** *** Player session *)

(** [new Vimeo.Player(this.videoFrame)] when it returns: a fresh handle. *)
Definition construct (x : sdk) : nat * sdk :=
  (fresh x,
   {| live := live x ∪ {[fresh x]}; fresh := S (fresh x); log := log x;
      unhandled := unhandled x |}).

(** [handle.destroy()] when it returns. *)
Definition destroyed (h : nat) (x : sdk) : sdk :=
  {| live := live x ∖ {[h]}; fresh := fresh x; log := log x ++ [(h, Destroy)];
     unhandled := unhandled x |}.

(** The [destroy] method of the class: any exception is swallowed, and then
    the reference is kept. *)
Definition destroy (s : lightbox) : lightbox :=
  match currentPlayer (ses s) with
  | None => s
  | Some h =>
      match settles B (log (ext s)) h Destroy with
      | ThrowsSync => with_ext (record_call h Destroy) s
      | Resolves | Rejects =>
          with_ses (set_currentPlayer None) (with_ext (destroyed h) s)
      end
  end.

(** Lines 852-858 of [loadVideo]: the three optimistic requests, all inside
    one [try]. *)
Definition autoplay_requests (s : lightbox) : lightbox :=
  state_of
    (and_then (call_caught (SetMuted false) s) (λ s,
     and_then (call_caught (SetVolume (of_Z 1)) s) (λ s,
       call_caught Play s))).

(** [loadVideo(vimeoId, { shouldAutoplayDesktop })] up to the point where it
    returns; the continuations of [ready()] are [on_ready] and
    [on_ready_rejected] below. *)
Definition loadVideo (now : Z) (vimeoId : option string)
  (shouldAutoplayDesktop : bool) (s : lightbox) : lightbox :=
  let s := with_ui (set_allowLoader true) s in
  let s := showLoading now s in
  let s := hideError s in
  let s := hideControls s in
  let s := with_ses (λ x, set_videoFrame
             ((λ f, {| src := src f; frame_opacity := "1" |}) <$> videoFrame x) x) s in
  if bool_decide (vimeoId = Some "INVALID_VIDEO_ID_FOR_TESTING") then showError s
  else
    match videoFrame (ses s) with
    | None => showError s
    | Some f =>
        let embedUrl := Embed.embedUrl restricted vimeoId in
        let s := with_ses (set_videoFrame
                   (Some {| src := embedUrl; frame_opacity := frame_opacity f |})) s in
        if constructor_throws B (fresh (ext s)) then showError s
        else
          let '(h, x) := construct (ext s) in
          let s := with_ses (set_currentPlayer (Some h)) (with_ext (λ _, x) s) in
          let s := if shouldAutoplayDesktop then autoplay_requests s else s in
          match call_caught Ready s with
          | Thrown s => showError s
          | Done s =>
              let '(_, q) := setTimeout now CbShowControls 300 (tq s) in
              with_tq (λ _, q) s
          end
    end.

(** [setupPlayerEvents]: the four [on] registrations and the duration query.
    The [volumechange] registration sits in its own [try]. *)
Definition setupPlayerEvents (s : lightbox) : completion lightbox :=
  match currentPlayer (ses s) with
  | None => Done s
  | Some _ =>
      let s := showControls s in
      and_then (call_caught (On "play") s) (λ s,
      and_then (call_caught (On "pause") s) (λ s,
      and_then (Done (state_of (call_caught (On "volumechange") s))) (λ s,
      and_then (call_caught (On "timeupdate") s) (λ s,
        call_bare GetDuration s))))
  end.

(** The [.catch] continuation of [ready()]. *)
Definition on_ready_rejected (s : lightbox) : lightbox := showError s.

(** The [.then] continuation of [ready()]; an exception inside it reaches
    the [.catch] continuation. *)
Definition on_ready (now : Z) (s : lightbox) : lightbox :=
  let s := with_ui (set_allowLoader false) s in
  let s := hideLoading s in
  match setupPlayerEvents s with
  | Thrown s => on_ready_rejected s
  | Done s =>
      let s := with_ses (λ x, set_videoFrame
                 ((λ f, {| src := src f; frame_opacity := "1" |}) <$> videoFrame x) x) s in
      let s := state_of (call_caught (SetVolume (of_Z 1)) s) in
      if restricted then showCenterToast now "Tap to unmute" 1500 s else s
  end.

(** The event bridges registered by [setupPlayerEvents]. *)
Definition on_play (now : Z) (s : lightbox) : lightbox :=
  let s := with_ses (set_isPlaying true) s in
  let s := with_lbl (set_playBtn "Pause") s in
  let s := hidePauseIndicator now s in
  hideLoading s.

Definition on_pause (now : Z) (s : lightbox) : lightbox :=
  let s := with_ses (set_isPlaying false) s in
  let s := with_lbl (set_playBtn "Play") s in
  showPauseIndicator now s.

(** [data.volume], when [data] is an object carrying a number. *)
Definition on_volumechange (volume : option num) (s : lightbox) : lightbox :=
  match volume with
  | Some v => updateMuteButtonLabel (with_ses (set_isMuted (is_zero v)) s)
  | None => s
  end.

Definition on_timeupdate (seconds : num) (s : lightbox) : completion lightbox :=
  match currentTimeEl (lbl s) with
  | None => Thrown s
  | Some _ =>
      let s := with_lbl (set_currentTimeEl (Some (formatTime seconds))) s in
      if negb (isDragging (ses s)) && is_pos (videoDuration (ses s))
      then updateTimelinePosition (div seconds (videoDuration (ses s))) s
      else Done s
  end.

Definition on_duration (duration : num) (s : lightbox) : completion lightbox :=
  let s := with_ses (set_videoDuration duration) s in
  match totalTimeEl (lbl s) with
  | None => Thrown s
  | Some _ => Done (with_lbl (set_totalTimeEl (Some (formatTime duration))) s)
  end.

(** [togglePlayPause].  The promise chains of the two muted branches run
    after the method returns, one link per settled promise; they are followed
    here to their end with no other event in between, and [later] is the
    clock when the last link runs. *)
Definition mark_unmuted (later : Z) (s : lightbox) : lightbox :=
  let s := with_ses (set_isMuted false) s in
  let s := updateMuteButtonLabel s in
  hideCenterToast later s.

Definition unmute_chain (later : Z) (s : lightbox) : lightbox :=
  let '(rejected, s) := chain_link (SetMuted false) s in
  if rejected then s
  else
    let '(rejected, s) := chain_link (SetVolume (of_Z 1)) s in
    if rejected then s
    else mark_unmuted later s.

Definition bare_play (s : lightbox) : lightbox := state_of (call_bare Play s).

Definition unmute_and_play_chain (later : Z) (s : lightbox) : lightbox :=
  let '(rejected, s) := chain_link (SetMuted false) s in
  if rejected then bare_play s
  else
    let '(rejected, s) := chain_link (SetVolume (of_Z 1)) s in
    if rejected then bare_play s
    else
      let '(rejected, s) := chain_link Play s in
      if rejected then bare_play s
      else mark_unmuted later s.

Definition togglePlayPause (later : Z) (s : lightbox) : completion lightbox :=
  match currentPlayer (ses s) with
  | None => Done s
  | Some _ =>
      if isPlaying (ses s)
      then
        if restricted && isMuted (ses s)
        then Done (unmute_chain later s)
        else call_bare Pause s
      else
        if restricted && isMuted (ses s)
        then Done (unmute_and_play_chain later s)
        else call_caught Play s
  end.

(** [recreateIframe]: a fresh, empty iframe replaces the old one; the other
    element references are looked up again and find the same elements.  The
    [.custom-video-player] container is taken to exist. *)
Definition recreateIframe (s : lightbox) : lightbox :=
  with_ses (set_videoFrame (Some {| src := ""; frame_opacity := "1" |})) s.

(** [resetControls] *)
Definition resetControls (now : Z) (s : lightbox) : completion lightbox :=
  let s := with_lbl (set_playBtn "Play") s in
  let s := with_ses (set_isMuted true) s in
  let s := updateMuteButtonLabel s in
  let s := with_lbl (λ x, set_currentTimeEl ((λ _, "0:00") <$> currentTimeEl x) x) s in
  let s := with_lbl (λ x, set_totalTimeEl ((λ _, "0:00") <$> totalTimeEl x) x) s in
  let s := with_ses (set_isPlaying false) s in
  let s := with_ses (set_videoDuration (of_Z 0)) s in
  let s := with_ses (set_isDragging false) s in
  let s := with_toast (λ t q,
             ({| Toast.pauseIndicator := Toast.pauseIndicator t;
                 Toast.pauseText := Toast.pauseText t;
                 Toast.pauseTimeout := None;
                 Toast.toastLockUntil := Toast.toastLockUntil t |}, q)) s in
  let s := hidePauseIndicator now s in
  let s := showControls s in
  updateTimelinePosition (of_Z 0) s.

(** Lines 783-788 of [closeLightbox], "Clean up player". *)
Definition clean_up_player (s : lightbox) : completion lightbox :=
  match currentPlayer (ses s) with
  | None => Done s
  | Some h =>
      match settles B (log (ext s)) h Destroy with
      | ThrowsSync => Thrown (with_ext (record_call h Destroy) s)
      | Resolves | Rejects =>
          Done (with_ses (set_currentPlayer None) (with_ext (destroyed h) s))
      end
  end.

(** Lines 790-804 of [closeLightbox], "Reset UI", and the delayed refresh of
    the preview iframes. *)
Definition reset_ui (now : Z) (s : lightbox) : completion lightbox :=
  let s := recreateIframe s in
  and_then (resetControls now s) (λ s,
  let s := hideError s in
  let s := hideLoading s in
  let '(_, q) := setTimeout now CbInitThumbnails 50 (tq s) in
  Done (with_tq (λ _, q) s)).

(** [closeLightbox] *)
Definition closeLightbox (now : Z) (s : lightbox) : completion lightbox :=
  let s := with_classes (λ c, c ∖ {["active"]}) s in
  let s := with_scroll ScrollLock.unlock s in
  and_then (clean_up_player s) (reset_ui now).

(** The [dataset] of the tile's [.project-data] ancestor. *)
Record tile_data := {
  mainVideo : option string;
  thumbnailId : option string;
  title : option string
}.

(** [openLightbox(thumbnail)]; [projectData] is the result of
    [thumbnail.closest('.project-data')]. *)
Definition openLightbox (now : Z) (projectData : option tile_data)
  (s : lightbox) : lightbox :=
  let vimeoId := projectData ≫= mainVideo in
  let title := default "" (projectData ≫= title) in
  let s := with_lbl (set_videoTitle title) s in
  let s := with_classes (λ c, c ∪ {["active"]}) s in
  let s := with_scroll ScrollLock.lock s in
  let shouldAutoplayDesktop := negb restricted in
  loadVideo now vimeoId shouldAutoplayDesktop s.

(** *** Timers and call sequences *)

Definition fire (tm : timer) (s : lightbox) : lightbox :=
  match cb tm with
  | CbHideCenterToast => hideCenterToast (due tm) s
  | CbShowControls => showControls s
  | CbRevealLoading => revealLoading s
  | _ => s    (* callbacks of the preview tiles and of the readiness gate *)
  end.

Definition run (fuel : nat) (horizon : Z) (s : lightbox) : lightbox :=
  Timers.run tq (λ q', with_tq (λ _, q')) fire fuel horizon s.

(** Calls of the three lifecycle methods, with the clock at the call. *)
Inductive request : Type :=
| OpenLightbox (now : Z) (projectData : option tile_data)
| LoadVideo (now : Z) (vimeoId : option string) (shouldAutoplayDesktop : bool)
| CloseLightbox (now : Z).

Definition serve (s : lightbox) (r : request) : lightbox :=
  match r with
  | OpenLightbox now d => openLightbox now d s
  | LoadVideo now id a => loadVideo now id a s
  | CloseLightbox now => state_of (closeLightbox now s)
  end.

Definition serve_all (s : lightbox) (rs : list request) : lightbox :=
  fold_left serve rs s.

(** A call sequence in which the modal is closed before it is opened again:
    no [openLightbox] or [loadVideo] follows another without a
    [closeLightbox] in between.  [opened] tells whether one is outstanding. *)
Fixpoint paired (opened : bool) (rs : list request) : bool :=
  match rs with
  | [] => true
  | CloseLightbox _ :: rest => paired false rest
  | (OpenLightbox _ _ | LoadVideo _ _ _) :: rest => negb opened && paired true rest
  end.

End Methods.

(** The fields as the constructor sets them, over the elements and the page
    of [dom]. *)
Definition constructed (dom : lightbox) : lightbox :=
  {| ses := {| currentPlayer := None; isPlaying := false; isMuted := true;
               videoDuration := of_Z 0; isDragging := false;
               videoFrame := videoFrame (ses dom) |};
     ui := {| loading := loading (ui dom); loadingTimeoutId := None;
              allowLoader := false;
              errorPlaceholder := errorPlaceholder (ui dom);
              controls := controls (ui dom) |};
     lbl := set_muteBtn None (lbl dom);
     tl := tl dom;
     tst := {| Toast.pauseIndicator := Toast.pauseIndicator (tst dom);
               Toast.pauseText := Toast.pauseText (tst dom);
               Toast.pauseTimeout := None;
               Toast.toastLockUntil := 0 |};
     lb_classes := lb_classes dom;
     sl := ScrollLock.initial_fields;
     pg := pg dom;
     ext := ext dom;
     tq := tq dom |}.

End Lightbox.

(** ** The timeline listeners: [setupTimelineEvents] *)

Module Pointer.
Import JsNum Timers Lightbox.

(** What a handler is given: a [MouseEvent], or the first [Touch] of a
    [TouchEvent].  [has_preventDefault] tells whether the object has a
    [preventDefault] method, which [startDragging] calls on it. *)
Record point := { clientX : Q; has_preventDefault : bool }.

(** The listeners that [setupTimelineEvents] attaches, by target and event. *)
Inductive listener : Type :=
| ContainerClick (e : point)
| ContainerMouseMove (e : point)
| ContainerMouseLeave
| HandleMouseDown (e : point)
| ContainerMouseDown (e : point)
| DocumentMouseMove (e : point)
| DocumentMouseUp
| HandleTouchStart (touch : point)        (* e.touches[0] *)
| ContainerTouchStart (touch : point)
| DocumentTouchMove (touch : point)
| DocumentTouchEnd.

Section Listeners.
Variable B : browser.

(** [startDragging(e)] with its call of [e.preventDefault()], which comes
    after the flag is set and before the label is shown. *)
Definition startDragging (e : point) (s : lightbox) : completion lightbox :=
  if has_preventDefault e then Done (Lightbox.startDragging s)
  else Thrown (with_ses (set_isDragging true) s).

(** The closure [startDrag] of [setupTimelineEvents]. *)
Definition startDrag (p : point) (s : lightbox) : completion lightbox :=
  and_then (startDragging p s) (handleTimelineDrag B (clientX p)).

(** The [mouseleave] listener of the container. *)
Definition mouseleave (s : lightbox) : lightbox :=
  with_tl (λ x, set_hover
             ((λ h, {| h_text := h_text h; h_left := h_left h; h_opacity := "0";
                       h_visibility := h_visibility h |}) <$> timelineHoverTime x) x) s.

Definition listen (ev : listener) (s : lightbox) : completion lightbox :=
  match ev with
  | ContainerClick e =>
      if isDragging (ses s) then Done s else handleTimelineClick B (clientX e) s
  | ContainerMouseMove e => handleTimelineHover (clientX e) s
  | ContainerMouseLeave => Done (mouseleave s)
  | HandleMouseDown e | ContainerMouseDown e => startDrag e s
  | HandleTouchStart t | ContainerTouchStart t => startDrag t s
  | DocumentMouseMove e | DocumentTouchMove e =>
      if isDragging (ses s) then handleTimelineDrag B (clientX e) s else Done s
  | DocumentMouseUp | DocumentTouchEnd =>
      if isDragging (ses s) then Done (stopDragging s) else Done s
  end.

(** [setupTimelineEvents] attaches the listeners when the container and the
    handle both exist, and none otherwise. *)
Definition setupTimelineEvents (s : lightbox) : bool :=
  match timelineContainer (tl s), timelineHandle (tl s) with
  | Some _, Some _ => true
  | _, _ => false
  end.

(** Listener calls in sequence; an exception ends the listener it occurs in
    and leaves the effects made so far. *)
Definition deliver (s : lightbox) (ev : listener) : lightbox :=
  state_of (listen ev s).

Definition deliver_all (evs : list listener) (s : lightbox) : lightbox :=
  fold_left deliver evs s.

End Listeners.

End Pointer.

(** ** Preview tiles: [isElementVisible] and [createLoopVideoIframe]

    One [.video-thumbnail] element with its preview iframes.  Layout is the
    browser's business: the computed style and box of the thumbnail, the
    window size and the rendered size of each iframe are functions of the
    clock, read by the callbacks when they run. *)

Module Previews.
Import Timers.

(** Computed style and bounding box of an element; [opacity] is the number
    [parseFloat] reads from the computed style. *)
Record box := {
  display : string;
  visibility : string;
  opacity : Q;
  b_width : Q;
  b_height : Q;
  b_top : Q;
  b_bottom : Q;
  b_left : Q;
  b_right : Q
}.

Record viewport := {
  innerHeight : Q;
  clientHeight : Q;                (* document.documentElement.clientHeight *)
  innerWidth : Q;
  clientWidth : Q
}.

Definition Qlt_bool (a b : Q) : bool := negb (Qle_bool b a).

(** [a || b] on numbers. *)
Definition num_or (a b : Q) : Q := if Qeq_bool a 0 then b else a.

Definition isElementVisible (element : option box) (win : viewport) : bool :=
  match element with
  | None => false
  | Some e =>
      if String.eqb (display e) "none" || String.eqb (visibility e) "hidden"
         || Qeq_bool (opacity e) 0
      then false
      else
        Qlt_bool 0 (b_width e) && Qlt_bool 0 (b_height e)
        && Qle_bool 0 (b_bottom e) && Qle_bool 0 (b_right e)
        && Qle_bool (b_top e) (num_or (innerHeight win) (clientHeight win))
        && Qle_bool (b_left e) (num_or (innerWidth win) (clientWidth win))
  end.

Record surroundings := {
  thumb_box : Z → box;
  window_at : Z → viewport;
  frame_size : nat → Z → nat * nat      (* offsetWidth, offsetHeight of an iframe *)
}.

Definition visible_at (E : surroundings) (t : Z) : bool :=
  isElementVisible (Some (thumb_box E t)) (window_at E t).

(** A preview iframe and the id of the failure timer its [load] listener
    captured. *)
Record preview := { fid : nat; psrc : string; errorTimeout : nat }.

Record cover_style := { cover_opacity : string; cover_visibility : string }.

Record tile := {
  classList : gset string;         (* of the thumbnail *)
  has_img : bool;                  (* an [img] child *)
  frames : list preview;           (* iframe children, in document order *)
  cover : option cover_style;      (* [.project-cover-img] of the tile *)
  next_fid : nat
}.

Definition mark_failed (x : tile) : tile :=
  {| classList := classList x ∪ {["video-failed"]}; has_img := has_img x;
     frames := frames x; cover := cover x; next_fid := next_fid x |}.

Definition failed (x : tile) : bool :=
  bool_decide ("video-failed" ∈ classList x).

(** [hideStaticImageOnMobile] *)
Definition hideStaticImageOnMobile (E : surroundings) (now : Z) (x : tile) : tile :=
  let isMobile := Qle_bool (innerWidth (window_at E now)) 768 in
  let style' :=
    if isMobile
    then match cover x, frames x with
         | Some c, f :: _ =>
             if (0 <? snd (frame_size E (fid f) now))%nat
             then Some {| cover_opacity := "0"; cover_visibility := "hidden" |}
             else Some c
         | c, _ => c
         end
    else (λ _, {| cover_opacity := ""; cover_visibility := "" |}) <$> cover x in
  {| classList := classList x; has_img := has_img x; frames := frames x;
     cover := style'; next_fid := next_fid x |}.

(** [createLoopVideoIframe(thumbnail, thumbnailId)]: unless the id is
    unusable, build the iframe, arm the 5 s failure check and insert the
    iframe after the image, or last when there is no image. *)
Definition createLoopVideoIframe (now : Z) (thumbnailId : option string)
  (x : tile) (q : queue) : tile * queue :=
  match Embed.loop_id_usable thumbnailId with
  | None => (x, q)
  | Some id =>
      let '(errorTimeout, q') := setTimeout now CbPreviewTimeout 5000 q in
      let iframe := {| fid := next_fid x; psrc := Embed.loop_src id;
                       errorTimeout := errorTimeout |} in
      ({| classList := classList x; has_img := has_img x;
          frames := if has_img x then iframe :: frames x else frames x ++ [iframe];
          cover := cover x; next_fid := S (next_fid x) |}, q')
  end.

(** The body of the failure check (lines 561-567). *)
Definition on_timeout (E : surroundings) (now : Z) (x : tile) : tile :=
  if negb (visible_at E now) then x
  else if negb (failed x) then mark_failed x else x.

(** The [error] listener of an iframe (lines 555-558). *)
Definition on_error (x : tile) : tile := mark_failed x.

(** The [load] listener of an iframe (lines 570-587) and the check it arms. *)
Definition on_load (now : Z) (f : preview) (x : tile) (q : queue) : tile * queue :=
  let q := clearTimeout (errorTimeout f) q in
  let '(_, q) := setTimeout now (CbPreviewSettle (fid f)) 1000 q in
  (x, q).

Definition on_settle (E : surroundings) (now : Z) (frame : nat) (x : tile) : tile :=
  if negb (visible_at E now) then x
  else
    let '(w, h) := frame_size E frame now in
    if (h =? 0)%nat || (w =? 0)%nat then mark_failed x
    else hideStaticImageOnMobile E now x.

(** One thumbnail of [initializeThumbnailIframes], taken to have a layout
    size already: the old iframes go, a new one is created. *)
Definition reinitialize (now : Z) (thumbnailId : option string)
  (x : tile) (q : queue) : tile * queue :=
  createLoopVideoIframe now thumbnailId
    {| classList := classList x; has_img := has_img x; frames := [];
       cover := cover x; next_fid := next_fid x |} q.

(** What can happen to the tile besides its timers.  An event of an iframe
    reaches its listener only while the iframe is in the document. *)
Inductive happening : Type :=
| IframeLoad (frame : nat)
| IframeError (frame : nat)
| Reinitialize (thumbnailId : option string).

Definition find_frame (frame : nat) (x : tile) : option preview :=
  List.find (λ f, (fid f =? frame)%nat) (frames x).

Definition happen (now : Z) (e : happening) (w : tile * queue) : tile * queue :=
  match e with
  | IframeLoad frame =>
      match find_frame frame (fst w) with
      | Some f => on_load now f (fst w) (snd w)
      | None => w
      end
  | IframeError frame =>
      match find_frame frame (fst w) with
      | Some _ => (on_error (fst w), snd w)
      | None => w
      end
  | Reinitialize id => reinitialize now id (fst w) (snd w)
  end.

Section Loop.
Variable E : surroundings.

Definition fire (tm : timer) (w : tile * queue) : tile * queue :=
  match cb tm with
  | CbPreviewTimeout => (on_timeout E (due tm) (fst w), snd w)
  | CbPreviewSettle frame => (on_settle E (due tm) frame (fst w), snd w)
  | _ => w
  end.

Definition run (fuel : nat) (horizon : Z) (w : tile * queue) : tile * queue :=
  Timers.run snd (λ q' w, (fst w, q')) fire fuel horizon w.

(** A history: events with their times; before each event the timers due by
    then run, and at the end those due by [horizon]. *)
Fixpoint play (events : list (Z * happening)) (horizon : Z) (w : tile * queue)
  : tile * queue :=
  match events with
  | [] => run (length (pending (snd w))) horizon w
  | (t, e) :: rest =>
      play rest horizon (happen t e (run (length (pending (snd w))) t w))
  end.

End Loop.

End Previews.

(** ** The readiness gate: [initLightbox], [tryInitLightbox] and the
    mutation observer *)

Module Gate.
Import Timers.

(** What the checks find in the document at a given time. *)
Record document_state := {
  has_lightbox : bool;             (* getElementById('lightbox') *)
  thumbnails : nat;                (* '.open-lightbox .video-thumbnail' *)
  tiles : nat                      (* '.open-lightbox .project-data' *)
}.

Record world := {
  vimeo_defined : Z → bool;        (* typeof Vimeo !== 'undefined' *)
  document_at : Z → document_state
}.

Definition maxVimeoApiAttempts : nat := 20.
Definition INIT_RETRY_DELAY_MS : Z := 100.
Definition maxAttempts : nat := 10.

(** The module-level variables, what the script has done so far, and the
    timer queue.  [observers] lists the connected mutation observers. *)
Record gate := {
  vimeoApiAttempts : nat;
  initAttempts : nat;
  instances : nat;                 (* [new VimeoLightbox()] executed *)
  observers : list nat;
  next_observer : nat;
  errors : list string;            (* console.error *)
  timers : queue
}.

Definition booted : gate :=
  {| vimeoApiAttempts := 0; initAttempts := 0; instances := 0; observers := [];
     next_observer := 0; errors := []; timers := Timers.empty |}.

Definition with_timers (q : queue) (g : gate) : gate :=
  {| vimeoApiAttempts := vimeoApiAttempts g; initAttempts := initAttempts g;
     instances := instances g; observers := observers g;
     next_observer := next_observer g; errors := errors g; timers := q |}.

Definition log_error (msg : string) (g : gate) : gate :=
  {| vimeoApiAttempts := vimeoApiAttempts g; initAttempts := initAttempts g;
     instances := instances g; observers := observers g;
     next_observer := next_observer g; errors := errors g ++ [msg];
     timers := timers g |}.

Definition later (now : Z) (c : callback) (delay : Z) (g : gate) : gate :=
  with_timers (snd (setTimeout now c delay (timers g))) g.

Section Script.
Variable Wd : world.

(** [initLightbox] *)
Definition initLightbox (now : Z) (g : gate) : gate :=
  if negb (vimeo_defined Wd now)
  then
    if (vimeoApiAttempts g <? maxVimeoApiAttempts)%nat
    then
      later now CbInitLightbox INIT_RETRY_DELAY_MS
        {| vimeoApiAttempts := S (vimeoApiAttempts g);
           initAttempts := initAttempts g; instances := instances g;
           observers := observers g; next_observer := next_observer g;
           errors := errors g; timers := timers g |}
    else log_error "Vimeo API failed to load" g
  else if negb (has_lightbox (document_at Wd now))
  then later now CbInitLightbox INIT_RETRY_DELAY_MS g
  else
    {| vimeoApiAttempts := vimeoApiAttempts g; initAttempts := initAttempts g;
       instances := S (instances g); observers := observers g;
       next_observer := next_observer g; errors := errors g;
       timers := timers g |}.

Definition markup_ready (d : document_state) : bool :=
  has_lightbox d && ((0 <? thumbnails d)%nat || (0 <? tiles d)%nat).

(** [observeDOMForLightbox], a function declared inside [initLightbox]:
    connect an observer and arm its 10 s cut-off. *)
Definition observeDOMForLightbox (now : Z) (g : gate) : gate :=
  let id := next_observer g in
  later now (CbDisconnect id) 10000
    {| vimeoApiAttempts := vimeoApiAttempts g; initAttempts := initAttempts g;
       instances := instances g; observers := observers g ++ [id];
       next_observer := S id; errors := errors g; timers := timers g |}.

Definition disconnect (id : nat) (g : gate) : gate :=
  {| vimeoApiAttempts := vimeoApiAttempts g; initAttempts := initAttempts g;
     instances := instances g;
     observers := filter (λ o, o ≠ id) (observers g);
     next_observer := next_observer g; errors := errors g; timers := timers g |}.

(** The callback of observer [id] (lines 49-57). *)
Definition observer_callback (now : Z) (id : nat) (g : gate) : gate :=
  if markup_ready (document_at Wd now)
  then initLightbox now (disconnect id g)
  else g.

(** A change of the document tree: every connected observer is called. *)
Definition mutation (now : Z) (g : gate) : gate :=
  fold_left (λ g id, observer_callback now id g) (observers g) g.

(** [tryInitLightbox] *)
Definition tryInitLightbox (now : Z) (g : gate) : gate :=
  let g := {| vimeoApiAttempts := vimeoApiAttempts g;
              initAttempts := S (initAttempts g); instances := instances g;
              observers := observers g; next_observer := next_observer g;
              errors := errors g; timers := timers g |} in
  if markup_ready (document_at Wd now)
  then initLightbox now g
  else if (initAttempts g <? maxAttempts)%nat
  then later now CbTryInitLightbox 500 g
  else log_error "Failed to initialize lightbox. Check HTML structure." g.

Definition fire (tm : timer) (g : gate) : gate :=
  match cb tm with
  | CbTryInitLightbox => tryInitLightbox (due tm) g
  | CbInitLightbox => initLightbox (due tm) g
  | CbDisconnect id => disconnect id g
  | _ => g
  end.

Definition run (fuel : nat) (horizon : Z) (g : gate) : gate :=
  Timers.run timers with_timers fire fuel horizon g.

(** The script from the moment it starts trying at [start] (at once, or on
    DOMContentLoaded), with the document changing at the given times. *)
Fixpoint live_through (fuel : nat) (mutations : list Z) (horizon : Z) (g : gate)
  : gate :=
  match mutations with
  | [] => run fuel horizon g
  | t :: rest => live_through fuel rest horizon (mutation t (run fuel t g))
  end.

Definition script (fuel : nat) (start : Z) (mutations : list Z) (horizon : Z) : gate :=
  live_through fuel mutations horizon (tryInitLightbox start booted).

End Script.

End Gate.

(** ** The specification's reference function for the timeline *)

Module Reference.

(** [clamp(v, lo, hi)] *)
Definition clamp (v lo hi : Q) : Q :=
  if Qlt_le_dec v lo then lo else if Qlt_le_dec hi v then hi else v.

(** [positionToFraction(pointerX, trackRect)], as the specification words
    it: [clamp((pointerX - trackRect.left) / trackRect.width, 0, 1)]. *)
Definition positionToFraction (pointerX : Q) (trackRect : Lightbox.rect) : Q :=
  clamp ((pointerX - Lightbox.left trackRect) / Lightbox.width trackRect) 0 1.

End Reference.

(** ** Sample pages and browsers, used to exercise the model *)

Module Samples.
Import JsNum Lightbox.

Definition desktop_nav : Platform.navigator :=
  {| Platform.userAgent :=
       "Mozilla/5.0 (X11; Linux x86_64; rv:128.0) Gecko/20100101 Firefox/128.0";
     Platform.vendor := "";
     Platform.opera := None;
     Platform.platform := "Linux x86_64";
     Platform.maxTouchPoints := 0 |}.

Definition phone_nav : Platform.navigator :=
  {| Platform.userAgent :=
       "Mozilla/5.0 (iPhone; CPU iPhone OS 17_5 like Mac OS X) AppleWebKit/605.1.15 Mobile/15E148";
     Platform.vendor := "Apple Computer, Inc.";
     Platform.opera := None;
     Platform.platform := "iPhone";
     Platform.maxTouchPoints := 5 |}.

(** Browsers in which every player call resolves. *)
Definition desktop : browser :=
  {| nav := desktop_nav; settles := λ _ _ _, Resolves;
     constructor_throws := λ _, false |}.

Definition phone : browser :=
  {| nav := phone_nav; settles := λ _ _ _, Resolves;
     constructor_throws := λ _, false |}.

(** A phone whose player refuses to unmute. *)
Definition stubborn_phone : browser :=
  {| nav := phone_nav;
     settles := λ _ _ c, match c with SetMuted _ => Rejects | _ => Resolves end;
     constructor_throws := λ _, false |}.

Definition plain_plugin : ScrollLock.plugin_obj :=
  {| ScrollLock.sm_offset := ScrollLock.px 0; ScrollLock.sm_paused := false;
     ScrollLock.m_scrollTop := ScrollLock.Works;
     ScrollLock.m_scrollTo := ScrollLock.Works;
     ScrollLock.m_paused := ScrollLock.Works |}.

(** A page scrolled to [y], without the smooth-scroll plugin. *)
Definition page_at (y : ScrollLock.pixels) : ScrollLock.page :=
  {| ScrollLock.scrollY := y; ScrollLock.html_top := "";
     ScrollLock.html_position := ""; ScrollLock.html_width := "";
     ScrollLock.html_scrollBehavior := ""; ScrollLock.html_classes := ∅;
     ScrollLock.body_classes := ∅; ScrollLock.body_overflow := "";
     ScrollLock.plugin_lookup := ScrollLock.NotFound;
     ScrollLock.plugin := plain_plugin |}.

(** A page driven by the plugin, at offset [y]. *)
Definition smooth_page_at (y : ScrollLock.pixels) : ScrollLock.page :=
  {| ScrollLock.scrollY := ScrollLock.px 0; ScrollLock.html_top := "";
     ScrollLock.html_position := ""; ScrollLock.html_width := "";
     ScrollLock.html_scrollBehavior := ""; ScrollLock.html_classes := ∅;
     ScrollLock.body_classes := ∅; ScrollLock.body_overflow := "";
     ScrollLock.plugin_lookup := ScrollLock.Found;
     ScrollLock.plugin :=
       {| ScrollLock.sm_offset := y; ScrollLock.sm_paused := false;
          ScrollLock.m_scrollTop := ScrollLock.Works;
          ScrollLock.m_scrollTo := ScrollLock.Works;
          ScrollLock.m_paused := ScrollLock.Works |} |}.

(** A timeline 400 px wide starting 100 px from the left edge. *)
Definition track : rect := {| left := 100; width := 400 |}.

Definition full_timeline : timeline :=
  {| timelineContainer := Some track; timelineTrack := Some track;
     timelineProgress := Some CssNone; timelineHandle := Some CssNone;
     timelineHoverTime :=
       Some {| h_text := ""; h_left := CssNone; h_opacity := "";
               h_visibility := "" |} |}.

Definition quiet_toast : Toast.toast :=
  {| Toast.pauseIndicator :=
       Some {| Toast.classList := ∅; Toast.opacity := ""; Toast.visibility := "" |};
     Toast.pauseText := Some "";
     Toast.pauseTimeout := None;
     Toast.toastLockUntil := 0 |}.

(** The complete modal markup on a page scrolled to [y]. *)
Definition markup (p : ScrollLock.page) : lightbox :=
  {| ses := {| currentPlayer := None; isPlaying := false; isMuted := true;
               videoDuration := of_Z 0; isDragging := false;
               videoFrame := Some {| src := ""; frame_opacity := "" |} |};
     ui := {| loading := Some ∅; loadingTimeoutId := None; allowLoader := false;
              errorPlaceholder := Some ∅; controls := Some "" |};
     lbl := {| videoTitle := ""; playBtn := "Play"; currentTimeEl := Some "0:00";
               totalTimeEl := Some "0:00"; muteBtn := None |};
     tl := full_timeline;
     tst := quiet_toast;
     lb_classes := ∅;
     sl := ScrollLock.initial_fields;
     pg := p;
     ext := {| live := ∅; fresh := 0; log := []; unhandled := 0 |};
     tq := Timers.empty |}.

Definition idle : lightbox := constructed (markup (page_at (ScrollLock.px 0))).

Definition demo_tile : tile_data :=
  {| mainVideo := Some "123"; thumbnailId := Some "456"; title := Some "Demo" |}.

(** The toast shown for one second at time 10. *)
Definition toast_at_10 : Toast.toast * Timers.queue :=
  Toast.showCenterToast 10 "Paused" 1000 quiet_toast Timers.empty.

(** Two open-then-close cycles. *)
Definition two_cycles : list request :=
  [OpenLightbox 0 (Some demo_tile); CloseLightbox 1000;
   OpenLightbox 2000 (Some demo_tile); CloseLightbox 3000].

(** The modal on a phone once the video plays, still muted. *)
Definition watching_on_phone : lightbox :=
  on_play 400 (openLightbox phone 0 (Some demo_tile) idle).

(** The modal on a phone 100 ms after opening, when the player is ready:
    paused, muted, with the hint to tap for sound on screen until 1600 ms. *)
Definition hinted_on_phone : lightbox :=
  on_ready phone 100 (openLightbox phone 0 (Some demo_tile) idle).

(** A thumbnail of 320 by 180 px inside, or far below, a 1280 by 800
    window. *)
Definition window800 : Previews.viewport :=
  {| Previews.innerHeight := 800; Previews.clientHeight := 800;
     Previews.innerWidth := 1280; Previews.clientWidth := 1280 |}.

Definition box_at (top : Q) : Previews.box :=
  {| Previews.display := "block"; Previews.visibility := "visible";
     Previews.opacity := 1; Previews.b_width := 320; Previews.b_height := 180;
     Previews.b_top := top; Previews.b_bottom := top + 180;
     Previews.b_left := 20; Previews.b_right := 340 |}.

Definition on_screen : Previews.surroundings :=
  {| Previews.thumb_box := λ _, box_at 100;
     Previews.window_at := λ _, window800;
     Previews.frame_size := λ _ _, (326%nat, 184%nat) |}.

Definition below_fold : Previews.surroundings :=
  {| Previews.thumb_box := λ _, box_at 5000;
     Previews.window_at := λ _, window800;
     Previews.frame_size := λ _ _, (326%nat, 184%nat) |}.

(** A document whose lightbox markup is inserted 6 s after the script
    starts, with the Vimeo API loaded all along. *)
Definition no_markup : Gate.document_state :=
  {| Gate.has_lightbox := false; Gate.thumbnails := 0; Gate.tiles := 0 |}.

Definition full_markup : Gate.document_state :=
  {| Gate.has_lightbox := true; Gate.thumbnails := 3; Gate.tiles := 3 |}.

Definition late_world : Gate.world :=
  {| Gate.vimeo_defined := λ _, true;
     Gate.document_at := λ t, if t <? 6000 then no_markup else full_markup |}.

Definition bare_tile : Previews.tile :=
  {| Previews.classList := ∅; Previews.has_img := true; Previews.frames := [];
     Previews.cover :=
       Some {| Previews.cover_opacity := ""; Previews.cover_visibility := "" |};
     Previews.next_fid := 0 |}.

(** The complete markup in a document where the Vimeo API never loads. *)
Definition offline_world : Gate.world :=
  {| Gate.vimeo_defined := λ _, false;
     Gate.document_at := λ _, full_markup |}.

(** Markup that is complete from 1.2 s on, with the API loaded. *)
Definition slow_world : Gate.world :=
  {| Gate.vimeo_defined := λ _, true;
     Gate.document_at := λ t, if t <? 1200 then no_markup else full_markup |}.

(** The API loaded on a page that never gets the [#lightbox] element. *)
Definition bare_world : Gate.world :=
  {| Gate.vimeo_defined := λ _, true;
     Gate.document_at := λ _, no_markup |}.

(** A desktop browser whose SDK throws from [destroy()]. *)
Definition brittle : browser :=
  {| nav := desktop_nav;
     settles := λ _ _ c, match c with Destroy => ThrowsSync | _ => Resolves end;
     constructor_throws := λ _, false |}.

(** A desktop browser in which [new Vimeo.Player] throws. *)
Definition no_player : browser :=
  {| nav := desktop_nav; settles := λ _ _ _, Resolves;
     constructor_throws := λ _, true |}.

(** The modal open on a desktop with a video of two minutes. *)
Definition watching : lightbox :=
  state_of (on_duration (of_Z 120) (openLightbox desktop 0 (Some demo_tile) idle)).

(** The same with the modal given by [brittle]. *)
Definition watching_brittle : lightbox :=
  openLightbox brittle 0 (Some demo_tile) idle.

(** The same on a timeline whose track has no width. *)
Definition collapsed_track : rect := {| left := 100; width := 0 |}.

Definition watching_collapsed : lightbox :=
  with_tl (λ t, {| timelineContainer := timelineContainer t;
                   timelineTrack := Some collapsed_track;
                   timelineProgress := timelineProgress t;
                   timelineHandle := timelineHandle t;
                   timelineHoverTime := timelineHoverTime t |}) watching.


(** A mouse event at [x]. *)
Definition mouse_at (x : Q) : Pointer.point :=
  {| Pointer.clientX := x; Pointer.has_preventDefault := true |}.

(** The first [Touch] of a touch event: it has no [preventDefault]. *)
Definition touch_at (x : Q) : Pointer.point :=
  {| Pointer.clientX := x; Pointer.has_preventDefault := false |}.

(** The idle modal on a page scrolled to 300 px, and on a page that the
    plugin holds at 300 px. *)
Definition idle_at_300 : lightbox := constructed (markup (page_at (ScrollLock.px 300))).

Definition idle_smooth_300 : lightbox :=
  constructed (markup (smooth_page_at (ScrollLock.px 300))).

(** A page the plugin holds at 300 px, with a [scrollTo] that throws. *)
Definition faulty_smooth_page : ScrollLock.page :=
  {| ScrollLock.scrollY := ScrollLock.px 0; ScrollLock.html_top := "";
     ScrollLock.html_position := ""; ScrollLock.html_width := "";
     ScrollLock.html_scrollBehavior := ""; ScrollLock.html_classes := ∅;
     ScrollLock.body_classes := ∅; ScrollLock.body_overflow := "";
     ScrollLock.plugin_lookup := ScrollLock.Found;
     ScrollLock.plugin :=
       {| ScrollLock.sm_offset := ScrollLock.px 300; ScrollLock.sm_paused := false;
          ScrollLock.m_scrollTop := ScrollLock.Works;
          ScrollLock.m_scrollTo := ScrollLock.Throws;
          ScrollLock.m_paused := ScrollLock.Works |} |}.

(** A page with inline styles of its own: smooth scrolling and a width. *)
Definition styled_page : ScrollLock.page :=
  {| ScrollLock.scrollY := ScrollLock.px 300; ScrollLock.html_top := "";
     ScrollLock.html_position := "relative"; ScrollLock.html_width := "90%";
     ScrollLock.html_scrollBehavior := "smooth"; ScrollLock.html_classes := {["dark"]};
     ScrollLock.body_classes := ∅; ScrollLock.body_overflow := "auto";
     ScrollLock.plugin_lookup := ScrollLock.NotFound;
     ScrollLock.plugin := plain_plugin |}.

End Samples.

(* ===================================================================== *)
(** * Part II.  Properties                                                *)
(* ===================================================================== *)

(** ** Symbolic execution of the methods on a state given by its fields *)

Module Flat.
Import JsNum Timers Lightbox.

Lemma with_scroll_flat f s :
  with_scroll f s
  = {| ses := ses s; ui := ui s; lbl := lbl s; tl := tl s; tst := tst s;
       lb_classes := lb_classes s; sl := fst (f (sl s) (pg s));
       pg := snd (f (sl s) (pg s)); ext := ext s; tq := tq s |}.
Proof. unfold with_scroll. by destruct (f (sl s) (pg s)). Qed.

Lemma with_toast_flat f s :
  with_toast f s
  = {| ses := ses s; ui := ui s; lbl := lbl s; tl := tl s;
       tst := fst (f (tst s) (tq s));
       lb_classes := lb_classes s; sl := sl s; pg := pg s; ext := ext s;
       tq := snd (f (tst s) (tq s)) |}.
Proof. unfold with_toast. by destruct (f (tst s) (tq s)). Qed.

Ltac flat s :=
  destruct s as [[? ? ? ? ? ?] [? ? ? ? ?] [? ? ? ? ?] [? ? ? ? ?] ? ? ? ? ? ?].

Ltac crunch :=
  cbv [and_then state_of with_classes with_ses with_lbl with_ui with_tl with_tq with_ext
       with_scroll with_toast
       ses ui lbl tl tst lb_classes Lightbox.sl Lightbox.pg Lightbox.ext Lightbox.tq
       currentPlayer isPlaying isMuted videoDuration isDragging videoFrame
       loading loadingTimeoutId allowLoader errorPlaceholder controls
       videoTitle playBtn currentTimeEl totalTimeEl muteBtn
       timelineContainer timelineTrack timelineProgress timelineHandle timelineHoverTime
       set_currentPlayer set_isPlaying set_isMuted set_videoDuration set_isDragging
       set_videoFrame set_loading set_loadingTimeoutId set_allowLoader
       set_errorPlaceholder set_controls set_playBtn set_videoTitle set_currentTimeEl
       set_totalTimeEl set_muteBtn set_progress set_handle set_hover
       record_call note_unhandled
       live fresh log unhandled
       fst snd
       setTimeout construct destroyed
       src frame_opacity h_text h_left h_opacity h_visibility].

(** Case analysis on what a method branches on: a field, the outcome of a
    player call, a test on a number. *)
Ltac case_step B :=
  match goal with
  | |- context [match ?x with _ => _ end] => is_var x; destruct x
  | |- context [match settles B ?l ?h ?c with _ => _ end] =>
      destruct (settles B l h c) eqn:?
  | |- context [if ?c then _ else _] =>
      lazymatch type of c with bool => destruct c end
  | |- context [match ?c with _ => _ end] =>
      lazymatch type of c with prod _ _ => destruct c as [? ?] eqn:? end
  end.

Ltac cases B := repeat (case_step B; crunch).

End Flat.

(** ** The timer queue *)

Module TimersFacts.
Import Timers.

Lemma earliest_none (l : list timer) : earliest l = None → l = [].
Proof.
  destruct l as [|t rest]; [done|]. simpl.
  destruct (earliest rest) as [u|]; [|done].
  by destruct (due u <? due t).
Qed.

Lemma earliest_elem (l : list timer) (t : timer) :
  earliest l = Some t → t ∈ l.
Proof.
  revert t. induction l as [|a rest IH]; intros t; simpl; [done|].
  destruct (earliest rest) as [u|] eqn:Hu.
  - destruct (due u <? due a); intros [= <-].
    + apply elem_of_cons. right. by apply IH.
    + apply elem_of_cons. by left.
  - intros [= <-]. apply elem_of_cons. by left.
Qed.

Lemma earliest_least (l : list timer) (t u : timer) :
  earliest l = Some t → u ∈ l → due t <= due u.
Proof.
  revert t u. induction l as [|a rest IH]; intros t u; simpl; [done|].
  destruct (earliest rest) as [v|] eqn:Hv.
  - destruct (due v <? due a) eqn:Hlt; intros [= <-] Hin;
      apply elem_of_cons in Hin as [->|Hin]; try lia.
    + specialize (IH v u eq_refl Hin). lia.
    + specialize (IH v u eq_refl Hin). lia.
  - apply earliest_none in Hv as ->. intros [= <-] Hin.
    apply elem_of_cons in Hin as [->|Hin]; [lia|]. by apply elem_of_nil in Hin.
Qed.

Lemma pop_due_some (h : Z) (q q' : queue) (t : timer) :
  pop_due h q = Some (t, q') →
  t ∈ pending q ∧ due t <= h ∧ q' = clearTimeout (tid t) q.
Proof.
  unfold pop_due. destruct (earliest (pending q)) as [u|] eqn:Hu; [|done].
  destruct (due u <=? h) eqn:Hle; [|done]. intros [= <- <-].
  split; [by apply earliest_elem|]. split; [lia|done].
Qed.

Lemma pop_due_none (h : Z) (q : queue) (u : timer) :
  pop_due h q = None → u ∈ pending q → h < due u.
Proof.
  unfold pop_due. destruct (earliest (pending q)) as [t|] eqn:Ht.
  - destruct (due t <=? h) eqn:Hle; [done|]. intros _ Hin.
    pose proof (earliest_least _ _ _ Ht Hin). lia.
  - apply earliest_none in Ht as ->. intros _ Hin. by apply elem_of_nil in Hin.
Qed.

Lemma elem_of_clearTimeout (id : nat) (q : queue) (u : timer) :
  u ∈ pending (clearTimeout id q) ↔ tid u ≠ id ∧ u ∈ pending q.
Proof. exact (list_elem_of_filter (λ t, tid t ≠ id) (pending q) u). Qed.

Lemma length_clearTimeout (id : nat) (q : queue) :
  (length (pending (clearTimeout id q)) ≤ length (pending q))%nat.
Proof. exact (length_filter (λ t, tid t ≠ id) (pending q)). Qed.

Lemma length_clearTimeout_lt (q : queue) (t : timer) :
  t ∈ pending q →
  (length (pending (clearTimeout (tid t) q)) < length (pending q))%nat.
Proof.
  intros Hin.
  apply (length_filter_lt (λ u, tid u ≠ tid t) (pending q) t); [done|].
  intros H. by apply H.
Qed.

Lemma elem_of_setTimeout (now : Z) (c : callback) (d : Z) (q : queue) (u : timer) :
  u ∈ pending (snd (setTimeout now c d q)) ↔
  u ∈ pending q ∨ u = {| tid := next_id q; due := now + Z.max 0 d; cb := c |}.
Proof.
  simpl. rewrite elem_of_app, list_elem_of_singleton. tauto.
Qed.

Lemma wf_empty : wf Timers.empty.
Proof. split; simpl; [constructor|apply NoDup_nil_2]. Qed.

Lemma wf_clearTimeout (id : nat) (q : queue) : wf q → wf (clearTimeout id q).
Proof.
  intros [Hlt Hnd]. split; simpl.
  - apply Forall_forall. intros u Hu. apply list_elem_of_filter in Hu as [_ Hu].
    by apply (proj1 (Forall_forall _ _) Hlt).
  - clear Hlt. induction (pending q) as [|a l IH]; simpl; [apply NoDup_nil_2|].
    apply NoDup_cons in Hnd as [Ha Hl]. rewrite filter_cons.
    destruct (decide (tid a ≠ id)); [|by apply IH].
    simpl. apply NoDup_cons. split; [|by apply IH].
    intros Hin. apply Ha. apply list_elem_of_fmap in Hin as (x & Hx & Hin).
    apply list_elem_of_filter in Hin as [_ Hin].
    apply list_elem_of_fmap. eauto.
Qed.

Lemma wf_setTimeout (now : Z) (c : callback) (d : Z) (q : queue) :
  wf q → wf (snd (setTimeout now c d q)).
Proof.
  intros [Hlt Hnd]. split; simpl.
  - apply Forall_app. split.
    + eapply Forall_impl; [exact Hlt|]. simpl. intros; lia.
    + apply Forall_singleton. simpl. lia.
  - rewrite fmap_app. apply NoDup_app. split; [done|]. split.
    + intros x Hx Hx'. simpl in Hx'. apply list_elem_of_singleton in Hx' as ->.
      apply list_elem_of_fmap in Hx as (u & Hu & Hin).
      pose proof (proj1 (Forall_forall _ _) Hlt u Hin). simpl in *. lia.
    + simpl. apply NoDup_singleton.
Qed.

(** In a well-formed queue the id names the timer. *)
Lemma wf_tid_inj (q : queue) (t u : timer) :
  wf q → t ∈ pending q → u ∈ pending q → tid t = tid u → t = u.
Proof.
  intros [_ Hnd] Ht Hu Heq.
  induction (pending q) as [|a l IH]; [by apply elem_of_nil in Ht|].
  simpl in Hnd. apply NoDup_cons in Hnd as [Ha Hl].
  apply elem_of_cons in Ht as [->|Ht]; apply elem_of_cons in Hu as [->|Hu]; auto.
  - exfalso. apply Ha. rewrite Heq. by apply list_elem_of_fmap_2.
  - exfalso. apply Ha. rewrite <- Heq. by apply list_elem_of_fmap_2.
Qed.

Section LoopFacts.
Context {W : Type}.
Variable getq : W → queue.
Variable setq : queue → W → W.
Variable handle : timer → W → W.
Hypothesis getq_setq : ∀ q w, getq (setq q w) = q.

(** A property kept by every callback that runs is kept by the loop. *)
Lemma run_invariant (P : W → Prop) (horizon : Z) :
  (∀ tm w, P w → tm ∈ pending (getq w) → due tm <= horizon →
           P (handle tm (setq (clearTimeout (tid tm) (getq w)) w))) →
  ∀ fuel w, P w → P (run getq setq handle fuel horizon w).
Proof.
  intros Hstep fuel. induction fuel as [|fuel IH]; intros w Hw; simpl; [done|].
  destruct (pop_due horizon (getq w)) as [[tm q']|] eqn:Hpop; [|done].
  apply pop_due_some in Hpop as (Hin & Hdue & ->).
  apply IH. by apply Hstep.
Qed.

(** When no callback sets a timer, fuel equal to the length of the queue
    runs everything that is due. *)
Lemma run_drains (horizon : Z) :
  (∀ tm w, (length (pending (getq (handle tm w))) ≤ length (pending (getq w)))%nat) →
  ∀ fuel w, (length (pending (getq w)) ≤ fuel)%nat →
            pop_due horizon (getq (run getq setq handle fuel horizon w)) = None.
Proof.
  intros Hsmall fuel. induction fuel as [|fuel IH]; intros w Hlen; simpl.
  - destruct (pending (getq w)) as [|a l] eqn:Hp; [|simpl in Hlen; lia].
    unfold pop_due. by rewrite Hp.
  - destruct (pop_due horizon (getq w)) as [[tm q']|] eqn:Hpop; [|done].
    apply pop_due_some in Hpop as (Hin & Hdue & ->).
    apply IH.
    etransitivity; [apply Hsmall|]. rewrite getq_setq.
    pose proof (length_clearTimeout_lt _ _ Hin). lia.
Qed.

End LoopFacts.

End TimersFacts.

(** ** The toast's lock window *)

Module ToastFacts.
Import Timers Toast TimersFacts.

Lemma next_id_drop_pending (t : toast) (q : queue) :
  next_id (drop_pending t q) = next_id q.
Proof. unfold drop_pending. by destruct (pauseTimeout t). Qed.

Lemma wf_drop_pending (t : toast) (q : queue) : wf q → wf (drop_pending t q).
Proof.
  unfold drop_pending. destruct (pauseTimeout t); [apply wf_clearTimeout|done].
Qed.

Lemma length_drop_pending (t : toast) (q : queue) :
  (length (pending (drop_pending t q)) ≤ length (pending q))%nat.
Proof.
  unfold drop_pending. destruct (pauseTimeout t); [apply length_clearTimeout|done].
Qed.

Lemma hide_queue_shrinks (now : Z) (t : toast) (q : queue) :
  (length (pending (snd (hideCenterToast now t q))) ≤ length (pending q))%nat.
Proof.
  unfold hideCenterToast. destruct (pauseIndicator t); [|done].
  destruct (_ && _); simpl; [done|apply length_drop_pending].
Qed.

Lemma wf_hide (now : Z) (t : toast) (q : queue) :
  wf q → wf (snd (hideCenterToast now t q)).
Proof.
  unfold hideCenterToast. destruct (pauseIndicator t); [|done].
  destruct (_ && _); simpl; [done|apply wf_drop_pending].
Qed.

Lemma fire_queue_shrinks (tm : timer) (t : toast) (q : queue) :
  (length (pending (snd (fire tm t q))) ≤ length (pending q))%nat.
Proof.
  unfold fire. destruct (cb tm); simpl; try done. apply hide_queue_shrinks.
Qed.

(** A toast that is off with no lock stays off under [hideCenterToast]. *)
Definition off (t : toast) : Prop := shown t = false ∧ toastLockUntil t = 0.

Lemma hide_off (now : Z) (t : toast) (q : queue) :
  off t → off (fst (hideCenterToast now t q)).
Proof.
  intros [Hs Hl]. unfold hideCenterToast.
  destruct (pauseIndicator t) as [el|] eqn:Hel; [|done].
  rewrite Hl. simpl. split; [|done].
  unfold shown. simpl. apply bool_decide_eq_false. set_solver.
Qed.

Section AfterShow.

Variables (t : toast) (q : queue) (el : indicator).
Variables (message : string) (T d : Z).
Hypothesis Hel : pauseIndicator t = Some el.
Hypothesis Hwf : wf q.
Hypothesis HT : 0 < T.
Hypothesis Hd : 0 <= d.

Let t1 : toast := fst (showCenterToast T message d t q).
Let q1 : queue := snd (showCenterToast T message d t q).
Let mine : timer :=
  {| tid := next_id q; due := T + d; cb := CbHideCenterToast |}.

Lemma show_state :
  t1 = {| pauseIndicator :=
            Some {| classList := classList el ∪ {["active"]};
                    opacity := "1"; visibility := "visible" |};
          pauseText := (λ _, message) <$> pauseText t;
          pauseTimeout := Some (next_id q);
          toastLockUntil := T + d |}
  ∧ q1 = {| pending := pending (drop_pending t q) ++ [mine];
            next_id := S (next_id q) |}.
Proof.
  subst t1 q1 mine. unfold showCenterToast. rewrite Hel. simpl.
  rewrite next_id_drop_pending. rewrite Z.max_r by lia.
  split; [|done]. by destruct (pauseText t).
Qed.

Lemma show_shown : shown t1 = true.
Proof.
  destruct show_state as [-> _]. unfold shown. simpl.
  apply bool_decide_eq_true. set_solver.
Qed.

Lemma show_wf : wf q1.
Proof.
  subst q1. unfold showCenterToast. rewrite Hel. simpl.
  apply (wf_setTimeout T CbHideCenterToast d), wf_drop_pending, Hwf.
Qed.

Lemma mine_pending : mine ∈ pending q1.
Proof.
  destruct show_state as [_ ->]. simpl. apply elem_of_app. right.
  by apply list_elem_of_singleton.
Qed.

(** Inside the lock window [hideCenterToast] changes nothing. *)
Lemma hide_locked (now : Z) (q' : queue) :
  now < T + d → hideCenterToast now t1 q' = (t1, q').
Proof.
  intros Hnow. destruct show_state as [E _]. unfold hideCenterToast.
  rewrite E. simpl.
  replace (T + d =? 0) with false by lia.
  replace (now <? T + d) with true by lia. done.
Qed.

(** From the deadline on it hides and drops the pending timer. *)
Lemma hide_unlocked (now : Z) (q' : queue) :
  T + d <= now →
  off (fst (hideCenterToast now t1 q'))
  ∧ pauseTimeout (fst (hideCenterToast now t1 q')) = None
  ∧ snd (hideCenterToast now t1 q') = clearTimeout (next_id q) q'.
Proof.
  intros Hnow. destruct show_state as [E _]. unfold hideCenterToast.
  rewrite E. simpl.
  replace (now <? T + d) with false by lia. rewrite andb_false_r. simpl.
  repeat split. unfold shown. simpl. apply bool_decide_eq_false. set_solver.
Qed.

(** The state of toast and queue between the call of [showCenterToast] and
    the moment the toast goes off. *)
Definition waiting (w : toast * queue) : Prop :=
  wf (snd w) ∧ ((fst w = t1 ∧ mine ∈ pending (snd w)) ∨ off (fst w)).

Lemma waiting_start : waiting (t1, q1).
Proof. split; [apply show_wf|]. left. split; [done|apply mine_pending]. Qed.

Lemma waiting_hide (now : Z) (w : toast * queue) :
  waiting w → waiting (hideCenterToast now (fst w) (snd w)).
Proof.
  intros [Hw [[E Hin]|Hoff]]; (split; [by apply wf_hide|]).
  - rewrite E. destruct (Z_lt_le_dec now (T + d)) as [Hlt|Hge].
    + rewrite hide_locked by done. left. by split.
    + right. by apply hide_unlocked.
  - right. by apply hide_off.
Qed.

Lemma waiting_fire (tm : timer) (w : toast * queue) :
  waiting w → tm ∈ pending (snd w) →
  waiting (fire tm (fst w) (clearTimeout (tid tm) (snd w))).
Proof.
  intros [Hw Hcase] Htm.
  assert (Hw' : wf (clearTimeout (tid tm) (snd w))) by by apply wf_clearTimeout.
  destruct Hcase as [[E Hin]|Hoff].
  - destruct (decide (tid tm = tid mine)) as [Heq|Hne].
    + assert (Hmine : tm = mine) by (by apply (wf_tid_inj (snd w))).
      rewrite Hmine. unfold fire. simpl. rewrite E.
      split; [by apply wf_hide, wf_clearTimeout|].
      right. apply hide_unlocked. lia.
    + assert (Hin' : mine ∈ pending (clearTimeout (tid tm) (snd w))).
      { apply elem_of_clearTimeout. split; [congruence|done]. }
      unfold fire. destruct (cb tm);
        try (split; [done|left; by split]).
      apply (waiting_hide (due tm) (fst w, clearTimeout (tid tm) (snd w))).
      split; [done|]. left. by split.
  - unfold fire. destruct (cb tm); try (split; [done|by right]).
    split; [by apply wf_hide|]. right. by apply hide_off.
Qed.

Lemma waiting_run (fuel : nat) (horizon : Z) (w : toast * queue) :
  waiting w → waiting (run fuel horizon (fst w) (snd w)).
Proof.
  intros Hw. unfold run. destruct w as [t0 q0]. simpl.
  apply (run_invariant snd (λ q' w, (fst w, q'))
           (λ tm w, fire tm (fst w) (snd w)) waiting horizon); [|done].
  intros tm w Pw Hin _. simpl. by apply waiting_fire.
Qed.

(** Before the deadline nothing that runs touches the toast. *)
Lemma early_run (fuel : nat) (horizon : Z) (q' : queue) :
  horizon < T + d → fst (run fuel horizon t1 q') = t1.
Proof.
  intros Hh. unfold run.
  apply (run_invariant snd (λ q' w, (fst w, q'))
           (λ tm w, fire tm (fst w) (snd w)) (λ w, fst w = t1) horizon); [|done].
  intros tm w E _ Hdue. simpl. unfold fire.
  destruct (cb tm); try done. rewrite E, hide_locked by lia. done.
Qed.

Lemma run_drained (fuel : nat) (horizon : Z) (t0 : toast) (q0 : queue) :
  (length (pending q0) ≤ fuel)%nat →
  pop_due horizon (snd (run fuel horizon t0 q0)) = None.
Proof.
  intros Hf. unfold run.
  apply (run_drains snd (λ q' w, (fst w, q'))
           (λ tm w, fire tm (fst w) (snd w))); [done| |done].
  intros tm w. apply fire_queue_shrinks.
Qed.

Lemma run_queue_shrinks (fuel : nat) (horizon : Z) (t0 : toast) (q0 : queue) :
  (length (pending (snd (run fuel horizon t0 q0))) ≤ length (pending q0))%nat.
Proof.
  unfold run.
  apply (run_invariant snd (λ q' w, (fst w, q'))
           (λ tm w, fire tm (fst w) (snd w))
           (λ w, (length (pending (snd w)) ≤ length (pending q0))%nat) horizon);
    [|done].
  intros tm w Hlen Hin _. simpl.
  etransitivity; [apply fire_queue_shrinks|].
  etransitivity; [apply length_clearTimeout|done].
Qed.

Lemma hides_then_early (fuel : nat) (calls : list Z) (horizon : Z) (q' : queue) :
  horizon < T + d → Forall (λ c, c <= horizon) calls →
  fst (hides_then fuel calls horizon t1 q') = t1.
Proof.
  intros Hh Hcalls. revert q'.
  induction Hcalls as [|c rest Hc _ IH]; intros q'; simpl.
  - by apply early_run.
  - destruct (run fuel c t1 q') as [ta qa] eqn:Hrun.
    assert (ta = t1) as ->.
    { change ta with (fst (ta, qa)). rewrite <- Hrun. apply early_run. lia. }
    rewrite hide_locked by lia. apply IH.
Qed.

Lemma hides_then_waiting (fuel : nat) (calls : list Z) (horizon : Z)
  (w : toast * queue) :
  waiting w → (length (pending (snd w)) ≤ fuel)%nat →
  waiting (hides_then fuel calls horizon (fst w) (snd w))
  ∧ pop_due horizon (snd (hides_then fuel calls horizon (fst w) (snd w))) = None.
Proof.
  revert w. induction calls as [|c rest IH]; intros [t0 q0] Hw Hlen; simpl in *.
  - split; [by apply (waiting_run fuel horizon (t0, q0))|by apply run_drained].
  - pose proof (waiting_run fuel c (t0, q0) Hw) as Hw1.
    pose proof (run_queue_shrinks fuel c t0 q0) as Hl1. simpl in Hw1.
    destruct (run fuel c t0 q0) as [ta qa]. simpl in *.
    pose proof (waiting_hide c (ta, qa) Hw1) as Hw2.
    pose proof (hide_queue_shrinks c ta qa) as Hl2. simpl in Hw2.
    destruct (hideCenterToast c ta qa) as [tb qb]. simpl in *.
    apply (IH (tb, qb)); [done|simpl; lia].
Qed.

Lemma hides_then_late (fuel : nat) (calls : list Z) (horizon : Z) :
  T + d <= horizon → (length (pending q1) ≤ fuel)%nat →
  shown (fst (hides_then fuel calls horizon t1 q1)) = false.
Proof.
  intros Hh Hlen.
  destruct (hides_then_waiting fuel calls horizon (t1, q1) waiting_start Hlen)
    as [[_ [[_ Hin]|[Hoff _]]] Hnone]; simpl in *; [|done].
  pose proof (pop_due_none _ _ _ Hnone Hin) as Hdue. simpl in Hdue. lia.
Qed.

End AfterShow.

(** C2.  After [showCenterToast(message, durationMs)] at time [T], with the
    toast element present: the toast is shown; [hideCenterToast] at any time
    before [T + durationMs] changes nothing, whatever the queue; at a time
    from [T + durationMs] on it hides the toast at once, clears
    [pauseTimeout] and takes the pending timer off the queue; and over any
    stretch of time with only [hideCenterToast] calls and timers, the toast
    is on screen at [horizon] exactly when [horizon < T + durationMs]. *)
Theorem toast_lock_window (t : toast) (q : queue) (el : indicator)
  (message : string) (T durationMs : Z) :
  pauseIndicator t = Some el → wf q → 0 < T → 0 <= durationMs →
  let t1 := fst (showCenterToast T message durationMs t q) in
  let q1 := snd (showCenterToast T message durationMs t q) in
  shown t1 = true
  ∧ (∀ now q', now < T + durationMs → hideCenterToast now t1 q' = (t1, q'))
  ∧ (∀ now, T + durationMs <= now →
       shown (fst (hideCenterToast now t1 q1)) = false
       ∧ pauseTimeout (fst (hideCenterToast now t1 q1)) = None
       ∧ ∀ u, u ∈ pending (snd (hideCenterToast now t1 q1)) →
              Some (tid u) ≠ pauseTimeout t1)
  ∧ (∀ fuel calls horizon,
       (length (pending q1) ≤ fuel)%nat → Forall (λ c, c <= horizon) calls →
       shown (fst (hides_then fuel calls horizon t1 q1))
       = bool_decide (horizon < T + durationMs)).
Proof.
  intros Hel Hwf HT Hd t1 q1. subst t1 q1.
  split; [by eapply show_shown|].
  split; [intros now q' Hnow; by eapply hide_locked|].
  split.
  - intros now Hnow.
    destruct (hide_unlocked t q el message T durationMs Hel Hwf HT Hd now
                (snd (showCenterToast T message durationMs t q)) Hnow)
      as ([Hoff _] & Hnone & Hq).
    split; [done|]. split; [done|].
    intros u Hu. rewrite Hq in Hu. apply elem_of_clearTimeout in Hu as [Hne _].
    destruct (show_state t q el message T durationMs Hel Hd) as [-> _].
    simpl. congruence.
  - intros fuel calls horizon Hlen Hcalls.
    destruct (decide (horizon < T + durationMs)) as [Hlt|Hge].
    + rewrite bool_decide_eq_true_2 by done.
      rewrite (hides_then_early t q el message T durationMs Hel HT Hd) by done.
      by eapply show_shown.
    + rewrite bool_decide_eq_false_2 by done.
      apply (hides_then_late t q el message T durationMs Hel Hwf HT Hd); [lia|done].
Qed.

End ToastFacts.

(** ** Embed URLs *)

Module EmbedFacts.
Import JsString Embed.

Local Arguments Ascii.eqb : simpl never.

Lemma before_hash_clean (s : string) : mentions "#" s = false → before_hash s = s.
Proof.
  induction s as [|c rest IH]; simpl; [done|].
  rewrite Ascii.eqb_sym. intros H. apply orb_false_elim in H as [-> H].
  by rewrite IH.
Qed.

(** The query of [https://player.vimeo.com/video/<id>?<query>] is [<query>]
    when neither part holds a character that ends a path or a query. *)
Lemma url_query_player (id query : string) :
  mentions "?" id = false → mentions "#" id = false →
  mentions "#" query = false →
  url_query (player_base +:+ id +:+ String "?" query) = Some query.
Proof.
  intros Hq Hh Hc. unfold player_base. simpl.
  induction id as [|c rest IH]; simpl.
  - by rewrite before_hash_clean.
  - simpl in Hq, Hh. rewrite (Ascii.eqb_sym "?" c) in Hq.
    rewrite (Ascii.eqb_sym "#" c) in Hh.
    apply orb_false_elim in Hq as [-> Hq]. apply orb_false_elim in Hh as [-> Hh].
    by apply IH.
Qed.

Definition clean (id : string) : Prop :=
  mentions "?" id = false ∧ mentions "#" id = false.

Lemma loop_src_query (id : string) :
  clean id →
  url_query (loop_src id)
  = Some "background=1&autoplay=1&loop=1&muted=1&controls=0&title=0&byline=0&portrait=0&playsinline=1".
Proof. intros [Hq Hh]. unfold loop_src. by apply url_query_player. Qed.

Lemma embedUrl_query (restricted : bool) (vimeoId : option string) :
  clean (template_text vimeoId) →
  url_query (embedUrl restricted vimeoId)
  = Some (if restricted
          then "background=1&autoplay=0&muted=0&controls=0&dnt=1&transparent=0&playsinline=1"
          else "autoplay=0&muted=0&controls=0&dnt=1&transparent=0&playsinline=1").
Proof.
  intros [Hq Hh]. unfold embedUrl. destruct restricted; by apply url_query_player.
Qed.

End EmbedFacts.

(** ** The controller: which method touches what *)

Module LightboxFacts.
Import JsNum Timers Lightbox TimersFacts.

Section Frames.
Variable B : browser.

Lemma ses_with_toast f s : ses (with_toast f s) = ses s.
Proof. unfold with_toast. by destruct (f (tst s) (tq s)). Qed.
Lemma ext_with_toast f s : ext (with_toast f s) = ext s.
Proof. unfold with_toast. by destruct (f (tst s) (tq s)). Qed.
Lemma ui_with_toast f s : ui (with_toast f s) = ui s.
Proof. unfold with_toast. by destruct (f (tst s) (tq s)). Qed.
Lemma tl_with_toast f s : tl (with_toast f s) = tl s.
Proof. unfold with_toast. by destruct (f (tst s) (tq s)). Qed.
Lemma ses_with_scroll f s : ses (with_scroll f s) = ses s.
Proof. unfold with_scroll. by destruct (f (sl s) (pg s)). Qed.
Lemma ext_with_scroll f s : ext (with_scroll f s) = ext s.
Proof. unfold with_scroll. by destruct (f (sl s) (pg s)). Qed.
Lemma ui_with_scroll f s : ui (with_scroll f s) = ui s.
Proof. unfold with_scroll. by destruct (f (sl s) (pg s)). Qed.
Lemma tq_with_scroll f s : tq (with_scroll f s) = tq s.
Proof. unfold with_scroll. by destruct (f (sl s) (pg s)). Qed.

Lemma ses_showLoading now s : ses (showLoading now s) = ses s.
Proof.
  unfold showLoading. destruct (loading (ui s)); [|done].
  destruct (allowLoader (ui s)); [|done]. simpl.
  by destruct (loadingTimeoutId (ui s)).
Qed.
Lemma ext_showLoading now s : ext (showLoading now s) = ext s.
Proof.
  unfold showLoading. destruct (loading (ui s)); [|done].
  destruct (allowLoader (ui s)); [|done]. simpl.
  by destruct (loadingTimeoutId (ui s)).
Qed.
Lemma ses_hideLoading s : ses (hideLoading s) = ses s.
Proof.
  unfold hideLoading. destruct (loading (ui s)); [|done].
  by destruct (loadingTimeoutId (ui s)).
Qed.
Lemma ext_hideLoading s : ext (hideLoading s) = ext s.
Proof.
  unfold hideLoading. destruct (loading (ui s)); [|done].
  by destruct (loadingTimeoutId (ui s)).
Qed.
Lemma ses_showError s : ses (showError s) = ses s.
Proof. unfold showError, hideControls. simpl. apply ses_hideLoading. Qed.
Lemma ext_showError s : ext (showError s) = ext s.
Proof. unfold showError, hideControls. simpl. apply ext_hideLoading. Qed.
Lemma ses_hideError s : ses (hideError s) = ses s.
Proof. done. Qed.
Lemma ext_hideError s : ext (hideError s) = ext s.
Proof. done. Qed.

Lemma ses_call_caught c s : ses (state_of (call_caught B c s)) = ses s.
Proof.
  unfold call_caught. destruct (currentPlayer (ses s)); [|done].
  by destruct (settles _ _ _ _).
Qed.
Lemma ses_call_bare c s : ses (state_of (call_bare B c s)) = ses s.
Proof.
  unfold call_bare. destruct (currentPlayer (ses s)); [|done].
  by destruct (settles _ _ _ _).
Qed.
Lemma live_call_caught c s : live (ext (state_of (call_caught B c s))) = live (ext s).
Proof.
  unfold call_caught. destruct (currentPlayer (ses s)); [|done].
  by destruct (settles _ _ _ _).
Qed.
Lemma live_call_bare c s : live (ext (state_of (call_bare B c s))) = live (ext s).
Proof.
  unfold call_bare. destruct (currentPlayer (ses s)); [|done].
  by destruct (settles _ _ _ _).
Qed.

Lemma ses_autoplay_requests s : ses (autoplay_requests B s) = ses s.
Proof.
  unfold autoplay_requests.
  pose proof (ses_call_caught (SetMuted false) s) as H1.
  destruct (call_caught B (SetMuted false) s) as [s1|s1]; simpl in *; [|done].
  pose proof (ses_call_caught (SetVolume (of_Z 1)) s1) as H2.
  destruct (call_caught B (SetVolume (of_Z 1)) s1) as [s2|s2]; simpl in *;
    [|congruence].
  rewrite ses_call_caught. congruence.
Qed.
Lemma live_autoplay_requests s :
  live (ext (autoplay_requests B s)) = live (ext s).
Proof.
  unfold autoplay_requests.
  pose proof (live_call_caught (SetMuted false) s) as H1.
  destruct (call_caught B (SetMuted false) s) as [s1|s1]; simpl in *; [|done].
  pose proof (live_call_caught (SetVolume (of_Z 1)) s1) as H2.
  destruct (call_caught B (SetVolume (of_Z 1)) s1) as [s2|s2]; simpl in *;
    [|congruence].
  rewrite live_call_caught. congruence.
Qed.

End Frames.

Section Loading.
Variable B : browser.

(** The state of [loadVideo] when it reaches the id check. *)
Definition primed (now : Z) (s : lightbox) : lightbox :=
  with_ses (λ x, set_videoFrame
     ((λ f, {| src := src f; frame_opacity := "1" |}) <$> videoFrame x) x)
    (hideControls (hideError (showLoading now (with_ui (set_allowLoader true) s)))).

Lemma primed_session now s :
  currentPlayer (ses (primed now s)) = currentPlayer (ses s)
  ∧ videoFrame (ses (primed now s))
    = (λ f, {| src := src f; frame_opacity := "1" |}) <$> videoFrame (ses s).
Proof.
  unfold primed, hideControls, hideError, showControls. simpl.
  rewrite ses_showLoading. done.
Qed.

Lemma primed_ext now s : ext (primed now s) = ext s.
Proof.
  unfold primed, hideControls, hideError, showControls. simpl.
  by rewrite ext_showLoading.
Qed.

Lemma loadVideo_unfold now vimeoId a s :
  loadVideo B now vimeoId a s =
  let s := primed now s in
  if bool_decide (vimeoId = Some "INVALID_VIDEO_ID_FOR_TESTING") then showError s
  else
    match videoFrame (ses s) with
    | None => showError s
    | Some f =>
        let s := with_ses (set_videoFrame
                   (Some {| src := Embed.embedUrl (restricted B) vimeoId;
                            frame_opacity := frame_opacity f |})) s in
        if constructor_throws B (fresh (ext s)) then showError s
        else
          let s := with_ses (set_currentPlayer (Some (fresh (ext s))))
                     (with_ext (λ _, snd (construct (ext s))) s) in
          let s := if a then autoplay_requests B s else s in
          match call_caught B Ready s with
          | Thrown s => showError s
          | Done s =>
              with_tq (λ _, snd (setTimeout now CbShowControls 300 (tq s))) s
          end
    end.
Proof. reflexivity. Qed.

Lemma loadVideo_frame now vimeoId a s f :
  videoFrame (ses s) = Some f →
  vimeoId ≠ Some "INVALID_VIDEO_ID_FOR_TESTING" →
  videoFrame (ses (loadVideo B now vimeoId a s))
  = Some {| src := Embed.embedUrl (restricted B) vimeoId; frame_opacity := "1" |}.
Proof.
  intros Hf Hid. rewrite loadVideo_unfold. cbv zeta.
  rewrite bool_decide_eq_false_2 by done.
  destruct (primed_session now s) as [_ Hv]. rewrite Hf in Hv.
  rewrite Hv. cbn [fmap option_fmap option_map].
  destruct (constructor_throws B _); [by rewrite ses_showError|].
  match goal with |- context [call_caught B Ready ?x] =>
    pose proof (ses_call_caught B Ready x) as Hc;
    destruct (call_caught B Ready x) as [s'|s'] end; simpl in Hc.
  - simpl. rewrite Hc. destruct a; [rewrite ses_autoplay_requests|]; done.
  - rewrite ses_showError, Hc. destruct a; [rewrite ses_autoplay_requests|]; done.
Qed.

End Loading.

(** C5.  The embed URLs carry exactly the three query strings: every preview
    iframe that [createLoopVideoIframe] creates has the preview query, and
    after [loadVideo] on an existing iframe with an id other than the test
    sentinel the iframe's [src] has the restricted-platform query when
    [isAutoplayRestricted] holds and the unrestricted one otherwise.  The id
    is taken free of the characters [?] and [#], which would end the path. *)
Theorem embed_queries_exact :
  (∀ now thumbnailId x q id,
     Embed.loop_id_usable thumbnailId = Some id → EmbedFacts.clean id →
     ∃ f, f ∈ Previews.frames (fst (Previews.createLoopVideoIframe now thumbnailId x q))
          ∧ Previews.fid f = Previews.next_fid x
          ∧ Previews.psrc f = Embed.loop_src id
          ∧ JsString.url_query (Previews.psrc f)
            = Some "background=1&autoplay=1&loop=1&muted=1&controls=0&title=0&byline=0&portrait=0&playsinline=1")
  ∧ (∀ B now vimeoId autoplay s f,
       videoFrame (ses s) = Some f →
       vimeoId ≠ Some "INVALID_VIDEO_ID_FOR_TESTING" →
       EmbedFacts.clean (Embed.template_text vimeoId) →
       ∃ f', videoFrame (ses (loadVideo B now vimeoId autoplay s)) = Some f'
             ∧ JsString.url_query (src f')
               = Some (if Platform.isAutoplayRestricted (nav B)
                       then "background=1&autoplay=0&muted=0&controls=0&dnt=1&transparent=0&playsinline=1"
                       else "autoplay=0&muted=0&controls=0&dnt=1&transparent=0&playsinline=1")).
Proof.
  split.
  - intros now thumbnailId x q id Hid Hclean.
    unfold Previews.createLoopVideoIframe. rewrite Hid.
    exists {| Previews.fid := Previews.next_fid x;
              Previews.psrc := Embed.loop_src id;
              Previews.errorTimeout := next_id q |}.
    split; [|split; [done|split; [done|]]].
    + cbn [setTimeout fst Previews.frames]. destruct (Previews.has_img x).
      * apply elem_of_cons. by left.
      * apply elem_of_app. right. by apply list_elem_of_singleton.
    + by apply EmbedFacts.loop_src_query.
  - intros B now vimeoId autoplay s f Hf Hid Hclean.
    eexists. split; [by eapply loadVideo_frame|].
    simpl. by apply EmbedFacts.embedUrl_query.
Qed.

End LightboxFacts.

(** ** The timeline *)

Module TimelineFacts.
Import JsNum Lightbox Flat.

Local Open Scope Q_scope.

Lemma Qis_zero_pos (w : Q) : 0 < w → Qis_zero w = false.
Proof.
  intros Hw. unfold Qis_zero. destruct (Qeq_bool w 0) eqn:E; [|done].
  apply Qeq_bool_eq in E. rewrite E in Hw. by apply Qlt_irrefl in Hw.
Qed.

Lemma Qis_zero_true (q : Q) : q == 0 → Qis_zero q = true.
Proof. intros H. by apply Qeq_bool_iff. Qed.

Lemma Qis_zero_false (q : Q) : ¬ q == 0 → Qis_zero q = false.
Proof.
  intros H. unfold Qis_zero. destruct (Qeq_bool q 0) eqn:E; [|done].
  by apply Qeq_bool_iff in E.
Qed.

(** On a track of positive width the handlers' expression is a finite
    number: the quotient cut at 0 and 1. *)
Lemma click_percentage_value (x : Q) (r : rect) :
  0 < width r →
  click_percentage x r = Fin (Qmax 0 (Qmin 1 ((x - left r) / width r))).
Proof.
  intros Hw. unfold click_percentage, div, min, max, of_Z.
  by rewrite (Qis_zero_pos _ Hw).
Qed.

Lemma cut_range (v : Q) : 0 <= Qmax 0 (Qmin 1 v) <= 1.
Proof.
  split; [apply Q.le_max_l|].
  apply Q.max_lub; [done|apply Q.le_min_l].
Qed.

Lemma cut_monotone (u v : Q) : u <= v → Qmax 0 (Qmin 1 u) <= Qmax 0 (Qmin 1 v).
Proof.
  intros Huv. apply Q.max_le_compat_l. by apply Q.min_le_compat_l.
Qed.

Lemma cut_below (v : Q) : v < 0 → Qmax 0 (Qmin 1 v) = 0%Q.
Proof.
  intros Hv. unfold Qmax, Qmin, GenericMinMax.gmax, GenericMinMax.gmin.
  assert (H1 : (1 ?= v) = Gt).
  { apply Qgt_alt. eapply Qlt_trans; [exact Hv|done]. }
  rewrite H1.
  assert (H0 : (0 ?= v) = Gt) by by apply Qgt_alt.
  by rewrite H0.
Qed.

Lemma cut_above (v : Q) : 1 < v → Qmax 0 (Qmin 1 v) = 1%Q.
Proof.
  intros Hv. unfold Qmax, Qmin, GenericMinMax.gmax, GenericMinMax.gmin.
  assert (H1 : (1 ?= v) = Lt) by by apply Qlt_alt.
  by rewrite H1.
Qed.

Lemma cut_is_clamp (v : Q) : Qmax 0 (Qmin 1 v) == Reference.clamp v 0 1.
Proof.
  unfold Reference.clamp.
  destruct (Qlt_le_dec v 0) as [Hlt|Hge]; [by rewrite cut_below|].
  destruct (Qlt_le_dec 1 v) as [Hgt|Hle]; [by rewrite cut_above|].
  rewrite (Q.min_r 1 v) by done. by rewrite Q.max_r.
Qed.

Lemma quotient_monotone (x y l w : Q) :
  0 < w → x <= y → (x - l) / w <= (y - l) / w.
Proof.
  intros Hw Hxy. unfold Qdiv. apply Qmult_le_compat_r.
  - unfold Qminus. by apply Qplus_le_compat; [|apply Qle_refl].
  - apply Qinv_le_0_compat. by apply Qlt_le_weak.
Qed.

(** What the three handlers do at pointer position [x] when the fraction is
    [p], on a controller whose track is [r] and whose cached duration [d] is
    not 0.  Click and drag ask the player for the time [p * d] and put the
    fill and the handle at [p * 100] percent; drag and hover write the time
    [p * d] into the hover-time label. *)
Definition handlers_use (r : rect) (x p : Q) : Prop :=
  ∀ (B : browser) (s : lightbox) (d : Q),
    videoDuration (ses s) = Fin d → ¬ d == 0 → timelineTrack (tl s) = Some r →
    (∀ h, currentPlayer (ses s) = Some h →
       let sc := state_of (handleTimelineClick B x s) in
       let sd := state_of (handleTimelineDrag B x s) in
       log (ext sc) = (log (ext s) ++ [(h, SetCurrentTime (Fin (p * d)))])%list
       ∧ log (ext sd) = (log (ext s) ++ [(h, SetCurrentTime (Fin (p * d)))])%list
       ∧ (settles B (log (ext s)) h (SetCurrentTime (Fin (p * d))) ≠ ThrowsSync →
          is_Some (timelineProgress (tl s)) → is_Some (timelineHandle (tl s)) →
          timelineProgress (tl sc) = Some (CssPercent (Fin (p * inject_Z 100)))
          ∧ timelineHandle (tl sc) = Some (CssPercent (Fin (p * inject_Z 100)))
          ∧ timelineProgress (tl sd) = Some (CssPercent (Fin (p * inject_Z 100)))
          ∧ timelineHandle (tl sd) = Some (CssPercent (Fin (p * inject_Z 100)))
          ∧ (is_Some (timelineHoverTime (tl s)) → is_Some (timelineContainer (tl s)) →
             h_text <$> timelineHoverTime (tl sd) = Some (formatTime (Fin (p * d))))))
    ∧ (is_Some (timelineContainer (tl s)) → is_Some (timelineHoverTime (tl s)) →
       h_text <$> timelineHoverTime (tl (state_of (handleTimelineHover x s)))
       = Some (formatTime (Fin (p * d)))).

Lemma handlers_use_cut (r : rect) (x : Q) :
  0 < width r → handlers_use r x (Qmax 0 (Qmin 1 ((x - left r) / width r))).
Proof.
  intros Hw B s d.
  pose proof (cut_range ((x - left r) / width r)) as Hp.
  pose proof (click_percentage_value x r Hw) as Hc.
  set (p := Qmax 0 (Qmin 1 ((x - left r) / width r))) in *.
  assert (Hle : Qle_bool 0 (p * inject_Z 100) = true).
  { apply Qle_bool_iff. destruct Hp as [H0 _].
    apply Qmult_le_0_compat; [done|discriminate]. }
  flat s. cbn [ses tl ext currentPlayer videoDuration timelineTrack
               timelineProgress timelineHandle timelineHoverTime timelineContainer log].
  intros -> Hnz ->.
  pose proof (Qis_zero_false d Hnz) as Hz.
  split.
  - intros h ->. cbv zeta.
    unfold handleTimelineClick, handleTimelineDrag, call_bare, updateTimelinePosition.
    crunch. change (drag_percentage x r) with (click_percentage x r).
    unfold is_zero. rewrite Hz, Hc. cbn [mul of_Z].
    unfold assign_width, assign_left. rewrite Hle.
    split; [cases B; done|]. split; [cases B; done|].
    intros Hs [w ->] [l ->].
    destruct (settles B _ h _); [| |done]; crunch; cases B.
    all: repeat split; try done.
    all: try (by intros [? ?]); by intros _ [? ?].
  - intros [c ->] [lab ->]. unfold handleTimelineHover.
    crunch. change (hover_percentage x r) with (click_percentage x r).
    unfold is_zero. rewrite Hz, Hc. done.
Qed.

(** C3.  On a track of positive width, the fraction each of the click, hover
    and drag handlers computes from the pointer's [clientX] is the
    specification's [positionToFraction], that is
    [clamp((pointerX - left) / width, 0, 1)]; the three handlers compute the
    same value; it lies in [0,1], does not decrease when the pointer moves
    right, and is exactly 0 left of the track and exactly 1 right of it.
    The handlers use it: with a cached duration [d] other than 0, a click
    and a drag at [x] ask the player for [positionToFraction x * d] and put
    the fill and the handle at [positionToFraction x * 100] percent, and a
    drag and a hover write the time [positionToFraction x * d] into the
    hover-time label. *)
Theorem pointer_fraction_is_clamp (r : rect) :
  0 < width r →
  (∀ x, same (click_percentage x r) (Fin (Reference.positionToFraction x r))
        ∧ hover_percentage x r = click_percentage x r
        ∧ drag_percentage x r = click_percentage x r)
  ∧ (∀ x, in_unit (click_percentage x r))
  ∧ (∀ x y, x <= y → le (click_percentage x r) (click_percentage y r))
  ∧ (∀ x, x < left r → click_percentage x r = of_Z 0)
  ∧ (∀ x, left r + width r < x → click_percentage x r = of_Z 1)
  ∧ (∀ x, ∃ p, p == Reference.positionToFraction x r ∧ handlers_use r x p).
Proof.
  intros Hw. split; [|split; [|split; [|split; [|split]]]].
  - intros x. split; [|by split].
    rewrite click_percentage_value by done. simpl.
    unfold Reference.positionToFraction. apply cut_is_clamp.
  - intros x. rewrite click_percentage_value by done. simpl. apply cut_range.
  - intros x y Hxy. rewrite !click_percentage_value by done. simpl.
    by apply cut_monotone, quotient_monotone.
  - intros x Hx. rewrite click_percentage_value by done.
    rewrite cut_below; [done|].
    apply Qlt_shift_div_r; [done|]. rewrite Qmult_0_l.
    unfold Qminus. rewrite <- (Qplus_opp_r (left r)).
    by apply Qplus_lt_l.
  - intros x Hx. rewrite click_percentage_value by done.
    rewrite cut_above; [done|].
    apply Qlt_shift_div_l; [done|]. rewrite Qmult_1_l.
    apply (Qplus_lt_l _ _ (left r)). unfold Qminus.
    rewrite <- Qplus_assoc, (Qplus_comm (- left r)), Qplus_opp_r, Qplus_0_r.
    by rewrite Qplus_comm.
  - intros x. exists (Qmax 0 (Qmin 1 ((x - left r) / width r))). split.
    + unfold Reference.positionToFraction. apply cut_is_clamp.
    + by apply handlers_use_cut.
Qed.

(** The guard of the hover handler looks at the timeline container, not at
    the player: with no player but a cached duration the label is rewritten. *)
Lemma hover_without_player :
  let s := with_ses (set_videoDuration (of_Z 120)) Samples.idle in
  currentPlayer (ses s) = None
  ∧ (h_text <$> timelineHoverTime (tl (state_of (handleTimelineHover 300 s))))
    = Some "1:00"%string
  ∧ (h_text <$> timelineHoverTime (tl s)) = Some ""%string.
Proof. vm_compute. done. Qed.

(** Such a state arises when the duration query of a closed session is
    answered late: open, ready, close, then the answer. *)
Lemma stale_duration_reachable :
  let s := state_of (on_duration (of_Z 120)
             (state_of (closeLightbox Samples.desktop 2000
                (on_ready Samples.desktop 1000
                   (openLightbox Samples.desktop 0 (Some Samples.demo_tile)
                      Samples.idle))))) in
  currentPlayer (ses s) = None ∧ videoDuration (ses s) = of_Z 120.
Proof. vm_compute. done. Qed.

(** What C10 promises of a handler's outcome [s'] from [s]: no request to
    the player, and the fill, the handle and the hover-time label as they
    were. *)
Definition untouched (s s' : lightbox) : Prop :=
  log (ext s') = log (ext s)
  ∧ timelineProgress (tl s') = timelineProgress (tl s)
  ∧ timelineHandle (tl s') = timelineHandle (tl s)
  ∧ timelineHoverTime (tl s') = timelineHoverTime (tl s).

(** C10, as stated, fails: with no player handle, a hover event can still
    update the hover-time label. *)
Lemma timeline_guard_counterexample :
  ¬ (∀ (B : browser) (x : Q) (s : lightbox),
       currentPlayer (ses s) = None ∨ is_zero (videoDuration (ses s)) = true →
       untouched s (state_of (handleTimelineClick B x s))
       ∧ untouched s (state_of (handleTimelineHover x s))
       ∧ untouched s (state_of (handleTimelineDrag B x s))).
Proof.
  intros H.
  destruct (H Samples.desktop 300
              (with_ses (set_videoDuration (of_Z 120)) Samples.idle))
    as (_ & (_ & _ & _ & Hhover) & _); [by left|].
  destruct hover_without_player as (_ & Hnew & Hold).
  cbv zeta in Hnew, Hold. rewrite Hhover in Hnew.
  rewrite Hold in Hnew. discriminate Hnew.
Qed.

(** The guard of the click and drag handlers holds: no player handle, or a
    cached duration of 0. *)
Definition guarded (s : lightbox) : Prop :=
  currentPlayer (ses s) = None ∨ is_zero (videoDuration (ses s)) = true.

Lemma guarded_click_drag (B : browser) (x : Q) (s : lightbox) :
  guarded s →
  handleTimelineClick B x s = Done s ∧ handleTimelineDrag B x s = Done s.
Proof.
  intros [Hp|Hd]; unfold handleTimelineClick, handleTimelineDrag.
  - by rewrite Hp.
  - rewrite Hd. by destruct (currentPlayer (ses s)).
Qed.

Lemma hover_never_seeks (x : Q) (s : lightbox) :
  ext (state_of (handleTimelineHover x s)) = ext s
  ∧ timelineProgress (tl (state_of (handleTimelineHover x s)))
    = timelineProgress (tl s)
  ∧ timelineHandle (tl (state_of (handleTimelineHover x s)))
    = timelineHandle (tl s).
Proof.
  unfold handleTimelineHover.
  destruct (timelineContainer (tl s)); [|done].
  destruct (is_zero (videoDuration (ses s))); [done|].
  destruct (timelineTrack (tl s)); [|done].
  by destruct (timelineHoverTime (tl s)).
Qed.

(** C10, amended.  While there is no player handle or the cached duration
    is 0, the click and drag handlers return with the controller unchanged,
    and no timeline listener asks the player to seek or moves the fill or
    the handle; the click listener and the move listeners of a drag leave
    the controller unchanged.  The press that begins a drag is not guarded:
    it sets the drag flag and, when the pointer object has
    [preventDefault], makes the hover-time label visible.  A hover returns
    with the controller unchanged while the timeline container is missing or
    the cached duration is 0; it does not consult the player handle, and it
    never seeks nor moves the fill or the handle. *)
Theorem timeline_guards (B : browser) (s : lightbox) :
  (currentPlayer (ses s) = None ∨ is_zero (videoDuration (ses s)) = true →
     (∀ x, handleTimelineClick B x s = Done s ∧ handleTimelineDrag B x s = Done s)
     ∧ ∀ ev,
         let s' := Pointer.deliver B s ev in
         ext s' = ext s
         ∧ timelineProgress (tl s') = timelineProgress (tl s)
         ∧ timelineHandle (tl s') = timelineHandle (tl s)
         ∧ match ev with
           | Pointer.ContainerClick _ | Pointer.DocumentMouseMove _
           | Pointer.DocumentTouchMove _ => Pointer.listen B ev s = Done s
           | Pointer.HandleMouseDown p | Pointer.ContainerMouseDown p
           | Pointer.HandleTouchStart p | Pointer.ContainerTouchStart p =>
               isDragging (ses s') = true
               ∧ timelineHoverTime (tl s')
                 = if Pointer.has_preventDefault p
                   then (λ lab, {| h_text := h_text lab; h_left := h_left lab;
                                   h_opacity := "1"; h_visibility := "visible" |})
                        <$> timelineHoverTime (tl s)
                   else timelineHoverTime (tl s)
           | Pointer.ContainerMouseMove _ =>
               is_zero (videoDuration (ses s)) = true → Pointer.listen B ev s = Done s
           | Pointer.ContainerMouseLeave | Pointer.DocumentMouseUp
           | Pointer.DocumentTouchEnd =>
               h_text <$> timelineHoverTime (tl s') = h_text <$> timelineHoverTime (tl s)
           end)
  ∧ (∀ x, timelineContainer (tl s) = None ∨ is_zero (videoDuration (ses s)) = true →
          handleTimelineHover x s = Done s)
  ∧ (∀ x, ext (state_of (handleTimelineHover x s)) = ext s
          ∧ timelineProgress (tl (state_of (handleTimelineHover x s)))
            = timelineProgress (tl s)
          ∧ timelineHandle (tl (state_of (handleTimelineHover x s)))
            = timelineHandle (tl s)).
Proof.
  split; [|split].
  - intros G. split; [intros x; by apply guarded_click_drag|].
    assert (Hc : ∀ x, handleTimelineClick B x s = Done s)
      by (intros x; by apply guarded_click_drag).
    assert (Hd : ∀ x, handleTimelineDrag B x s = Done s)
      by (intros x; by apply guarded_click_drag).
    assert (Gp : guarded (startDragging s)).
    { unfold guarded, startDragging. cbn [ses with_ses tl].
      destruct (timelineHoverTime (tl s)); exact G. }
    intros ev. cbv zeta. unfold Pointer.deliver.
    destruct ev as [e|e| |p|p|e| |p|p|e| ]; cbn [Pointer.listen].
    + rewrite Hc. by destruct (isDragging (ses s)).
    + destruct (hover_never_seeks (Pointer.clientX e) s) as (H1 & H2 & H3).
      split; [done|]. split; [done|]. split; [done|].
      intros Hz. unfold handleTimelineHover. rewrite Hz.
      by destruct (timelineContainer (tl s)).
    + unfold Pointer.mouseleave. cbn [state_of ext tl with_tl set_hover
        timelineProgress timelineHandle timelineHoverTime].
      destruct (timelineHoverTime (tl s)); repeat split; reflexivity.
    + unfold Pointer.startDrag, Pointer.startDragging.
      destruct (Pointer.has_preventDefault p); cbn [and_then state_of].
      * destruct (guarded_click_drag B (Pointer.clientX p) _ Gp) as [_ ->].
        unfold startDragging. cbn [state_of tl with_ses].
        destruct (timelineHoverTime (tl s)) eqn:E;
          cbn [ext ses tl with_tl with_ses set_hover set_isDragging isDragging
               timelineProgress timelineHandle timelineHoverTime];
          rewrite ?E; repeat split; reflexivity.
      * done.
    + unfold Pointer.startDrag, Pointer.startDragging.
      destruct (Pointer.has_preventDefault p); cbn [and_then state_of].
      * destruct (guarded_click_drag B (Pointer.clientX p) _ Gp) as [_ ->].
        unfold startDragging. cbn [state_of tl with_ses].
        destruct (timelineHoverTime (tl s)) eqn:E;
          cbn [ext ses tl with_tl with_ses set_hover set_isDragging isDragging
               timelineProgress timelineHandle timelineHoverTime];
          rewrite ?E; repeat split; reflexivity.
      * done.
    + rewrite Hd. by destruct (isDragging (ses s)).
    + unfold stopDragging. destruct (isDragging (ses s)); [|done].
      cbn [state_of tl with_ses].
      destruct (timelineHoverTime (tl s)) eqn:E;
        cbn [ext ses tl with_tl with_ses set_hover set_isDragging isDragging
             timelineProgress timelineHandle timelineHoverTime];
        rewrite ?E; repeat split; reflexivity.
    + unfold Pointer.startDrag, Pointer.startDragging.
      destruct (Pointer.has_preventDefault p); cbn [and_then state_of].
      * destruct (guarded_click_drag B (Pointer.clientX p) _ Gp) as [_ ->].
        unfold startDragging. cbn [state_of tl with_ses].
        destruct (timelineHoverTime (tl s)) eqn:E;
          cbn [ext ses tl with_tl with_ses set_hover set_isDragging isDragging
               timelineProgress timelineHandle timelineHoverTime];
          rewrite ?E; repeat split; reflexivity.
      * done.
    + unfold Pointer.startDrag, Pointer.startDragging.
      destruct (Pointer.has_preventDefault p); cbn [and_then state_of].
      * destruct (guarded_click_drag B (Pointer.clientX p) _ Gp) as [_ ->].
        unfold startDragging. cbn [state_of tl with_ses].
        destruct (timelineHoverTime (tl s)) eqn:E;
          cbn [ext ses tl with_tl with_ses set_hover set_isDragging isDragging
               timelineProgress timelineHandle timelineHoverTime];
          rewrite ?E; repeat split; reflexivity.
      * done.
    + rewrite Hd. by destruct (isDragging (ses s)).
    + unfold stopDragging. destruct (isDragging (ses s)); [|done].
      cbn [state_of tl with_ses].
      destruct (timelineHoverTime (tl s)) eqn:E;
        cbn [ext ses tl with_tl with_ses set_hover set_isDragging isDragging
             timelineProgress timelineHandle timelineHoverTime];
        rewrite ?E; repeat split; reflexivity.
  - intros x [Hc|Hd]; unfold handleTimelineHover.
    + by rewrite Hc.
    + rewrite Hd. by destruct (timelineContainer (tl s)).
  - intros x. apply hover_never_seeks.
Qed.

End TimelineFacts.

(** ** One player handle at a time *)

Module HandleFacts.
Import JsNum Timers Lightbox LightboxFacts.

(** The handles alive are exactly the one the controller holds. *)
Definition tidy (s : lightbox) : Prop :=
  live (ext s) = match currentPlayer (ses s) with
                 | Some h => {[h]}
                 | None => ∅
                 end.

(** The SDK's [destroy()] returns, as its documentation says. *)
Definition destroy_returns (B : browser) : Prop :=
  ∀ history h, settles B history h Destroy ≠ ThrowsSync.

Section Lifecycle.
Variable B : browser.

(** [loadVideo] either leaves the player as it is or installs a fresh
    handle next to whatever was alive. *)
Lemma loadVideo_player now vimeoId a s :
  let s' := loadVideo B now vimeoId a s in
  (currentPlayer (ses s') = currentPlayer (ses s)
   ∧ live (ext s') = live (ext s))
  ∨ (currentPlayer (ses s') = Some (fresh (ext s))
     ∧ live (ext s') = live (ext s) ∪ {[fresh (ext s)]}).
Proof.
  cbv zeta. rewrite loadVideo_unfold. cbv zeta.
  destruct (primed_session now s) as [Hp _].
  pose proof (primed_ext now s) as He.
  destruct (bool_decide _).
  { left. by rewrite ses_showError, ext_showError, Hp, He. }
  destruct (videoFrame (ses (primed now s))) as [f|].
  2: { left. by rewrite ses_showError, ext_showError, Hp, He. }
  destruct (constructor_throws B _).
  { left. rewrite ses_showError, ext_showError.
    cbn [ses ext with_ses set_videoFrame currentPlayer]. by rewrite Hp, He. }
  right.
  match goal with |- context [call_caught B Ready ?x] =>
    pose proof (ses_call_caught B Ready x) as Hc;
    pose proof (live_call_caught B Ready x) as Hl;
    destruct (call_caught B Ready x) as [s'|s'] end;
    cbn [state_of] in Hc, Hl.
  - cbn [ses ext with_tq]. rewrite Hc, Hl.
    destruct a; [rewrite ses_autoplay_requests, live_autoplay_requests|];
      cbn [ses ext with_ses with_ext set_videoFrame set_currentPlayer
             currentPlayer construct snd live]; by rewrite He.
  - rewrite ses_showError, ext_showError, Hc, Hl.
    destruct a; [rewrite ses_autoplay_requests, live_autoplay_requests|];
      cbn [ses ext with_ses with_ext set_videoFrame set_currentPlayer
             currentPlayer construct snd live]; by rewrite He.
Qed.

Lemma openLightbox_player now d s :
  let s' := openLightbox B now d s in
  (currentPlayer (ses s') = currentPlayer (ses s)
   ∧ live (ext s') = live (ext s))
  ∨ (currentPlayer (ses s') = Some (fresh (ext s))
     ∧ live (ext s') = live (ext s) ∪ {[fresh (ext s)]}).
Proof.
  cbv zeta. unfold openLightbox.
  match goal with |- context [loadVideo B now ?i ?a ?x] =>
    pose proof (loadVideo_player now i a x) as H;
    assert (Hs : ses x = ses s) by (simpl; by rewrite ses_with_scroll);
    assert (He : ext x = ext s) by (simpl; by rewrite ext_with_scroll)
  end.
  cbv zeta in H. by rewrite Hs, He in H.
Qed.

(** Steps that leave the player, the iframe and the SDK alone. *)
Definition keeps_player (s s' : lightbox) : Prop :=
  currentPlayer (ses s') = currentPlayer (ses s)
  ∧ ext s' = ext s.

Lemma keeps_refl s : keeps_player s s.
Proof. by split. Qed.

Lemma keeps_trans s1 s2 s3 :
  keeps_player s1 s2 → keeps_player s2 s3 → keeps_player s1 s3.
Proof. intros [A1 A2] [B1 B2]. split; congruence. Qed.

Lemma keeps_with_ui f s : keeps_player s (with_ui f s).
Proof. by split. Qed.
Lemma keeps_with_lbl f s : keeps_player s (with_lbl f s).
Proof. by split. Qed.
Lemma keeps_with_tl f s : keeps_player s (with_tl f s).
Proof. by split. Qed.
Lemma keeps_with_tq f s : keeps_player s (with_tq f s).
Proof. by split. Qed.
Lemma keeps_with_classes f s : keeps_player s (with_classes f s).
Proof. by split. Qed.
Lemma keeps_with_toast f s : keeps_player s (with_toast f s).
Proof. split; [by rewrite ses_with_toast|by rewrite ext_with_toast]. Qed.
Lemma keeps_with_scroll f s : keeps_player s (with_scroll f s).
Proof. split; [by rewrite ses_with_scroll|by rewrite ext_with_scroll]. Qed.
Lemma keeps_set_isPlaying b s : keeps_player s (with_ses (set_isPlaying b) s).
Proof. by split. Qed.
Lemma keeps_set_isMuted b s : keeps_player s (with_ses (set_isMuted b) s).
Proof. by split. Qed.
Lemma keeps_set_videoDuration d s :
  keeps_player s (with_ses (set_videoDuration d) s).
Proof. by split. Qed.
Lemma keeps_set_isDragging b s : keeps_player s (with_ses (set_isDragging b) s).
Proof. by split. Qed.
Lemma keeps_set_videoFrame f s : keeps_player s (with_ses (set_videoFrame f) s).
Proof. by split. Qed.

Lemma keeps_updateMuteButtonLabel s : keeps_player s (updateMuteButtonLabel s).
Proof. unfold updateMuteButtonLabel. by destruct (muteBtn (lbl s)). Qed.

Lemma keeps_updateTimelinePosition p s :
  keeps_player s (state_of (updateTimelinePosition p s)).
Proof.
  unfold updateTimelinePosition. destruct (timelineProgress (tl s)); [|done].
  simpl. by destruct (timelineHandle (tl s)).
Qed.

Lemma keeps_hideLoading s : keeps_player s (hideLoading s).
Proof. split; [by rewrite ses_hideLoading|by rewrite ext_hideLoading]. Qed.

Lemma keeps_hideError s : keeps_player s (hideError s).
Proof. by split. Qed.

Ltac keeps_step :=
  lazymatch goal with
  | |- keeps_player _ (state_of (updateTimelinePosition _ _)) =>
      apply keeps_updateTimelinePosition
  | |- keeps_player _ (updateMuteButtonLabel _) => apply keeps_updateMuteButtonLabel
  | |- keeps_player _ (hideLoading _) => apply keeps_hideLoading
  | |- keeps_player _ (hideError _) => apply keeps_hideError
  | |- keeps_player _ (with_toast _ _) => apply keeps_with_toast
  | |- keeps_player _ (with_scroll _ _) => apply keeps_with_scroll
  | |- keeps_player _ (with_ui _ _) => apply keeps_with_ui
  | |- keeps_player _ (with_lbl _ _) => apply keeps_with_lbl
  | |- keeps_player _ (with_tl _ _) => apply keeps_with_tl
  | |- keeps_player _ (with_tq _ _) => apply keeps_with_tq
  | |- keeps_player _ (with_classes _ _) => apply keeps_with_classes
  | |- keeps_player _ (with_ses (set_isPlaying _) _) => apply keeps_set_isPlaying
  | |- keeps_player _ (with_ses (set_isMuted _) _) => apply keeps_set_isMuted
  | |- keeps_player _ (with_ses (set_videoDuration _) _) =>
      apply keeps_set_videoDuration
  | |- keeps_player _ (with_ses (set_isDragging _) _) => apply keeps_set_isDragging
  | |- keeps_player _ (with_ses (set_videoFrame _) _) => apply keeps_set_videoFrame
  end.

(** Peel the outermost step off the right-hand state until the left-hand
    state is reached. *)
Ltac keeps_chain :=
  lazymatch goal with
  | |- keeps_player ?s ?s => apply keeps_refl
  | |- keeps_player _ _ =>
      eapply keeps_trans; [|keeps_step]; keeps_chain
  end.

Lemma keeps_resetControls now s :
  keeps_player s (state_of (resetControls now s)).
Proof.
  unfold resetControls, showControls, hidePauseIndicator, hideCenterToast.
  cbv zeta. keeps_chain.
Qed.

Lemma keeps_reset_ui now s : keeps_player s (state_of (reset_ui now s)).
Proof.
  unfold reset_ui. cbv zeta.
  assert (K1 : keeps_player s (recreateIframe s)) by apply keeps_set_videoFrame.
  eapply keeps_trans; [exact K1|].
  eapply keeps_trans; [apply (keeps_resetControls now)|].
  destruct (resetControls now (recreateIframe s)) as [y|y];
    cbn [and_then state_of]; [|apply keeps_refl].
  unfold setTimeout. cbv beta iota. cbn [state_of]. keeps_chain.
Qed.

(** [closeLightbox] leaves no current player and takes the one it held out
    of the live handles. *)
Lemma closeLightbox_player now s :
  destroy_returns B →
  let s' := state_of (closeLightbox B now s) in
  currentPlayer (ses s') = None
  ∧ live (ext s') = live (ext s) ∖ match currentPlayer (ses s) with
                                   | Some h => {[h]}
                                   | None => ∅
                                   end.
Proof.
  intros Hd. cbv zeta. unfold closeLightbox. cbv zeta.
  set (s0 := with_scroll ScrollLock.unlock (with_classes _ s)).
  assert (K0 : keeps_player s s0) by (subst s0; keeps_chain).
  destruct K0 as [Hs He]. unfold clean_up_player. rewrite Hs, He.
  destruct (currentPlayer (ses s)) as [h|] eqn:Hcur.
  - specialize (Hd (log (ext s)) h).
    destruct (settles B (log (ext s)) h Destroy); [| |done];
      cbn [and_then];
      destruct (keeps_reset_ui now
                  (with_ses (set_currentPlayer None) (with_ext (destroyed h) s0)))
        as [-> ->]; cbn [ses ext with_ses with_ext set_currentPlayer
                           currentPlayer destroyed live]; by rewrite He.
  - cbn [and_then]. destruct (keeps_reset_ui now s0) as [-> ->].
    rewrite Hs, He. split; [done|]. set_solver.
Qed.

(** Whether a call is outstanding after the calls [rs]. *)
Definition opened_after (opened : bool) (rs : list request) : bool :=
  fold_left (λ o r, match r with CloseLightbox _ => false | _ => true end)
            rs opened.

Definition builds_player (r : request) : Prop :=
  match r with CloseLightbox _ => False | _ => True end.

Lemma paired_app opened pre suf :
  paired opened (pre ++ suf) = true →
  paired opened pre = true ∧ paired (opened_after opened pre) suf = true.
Proof.
  revert opened. induction pre as [|r pre IH]; intros opened; simpl; [done|].
  destruct r; simpl; intros H.
  - apply andb_prop in H as [-> H]. simpl. by apply IH.
  - apply andb_prop in H as [-> H]. simpl. by apply IH.
  - by apply IH.
Qed.

(** The invariant of a paired call sequence. *)
Definition settled (opened : bool) (s : lightbox) : Prop :=
  tidy s ∧ (opened = false → currentPlayer (ses s) = None).

Lemma settled_build (opened : bool) (s s' : lightbox) :
  settled opened s → opened = false →
  (currentPlayer (ses s') = currentPlayer (ses s) ∧ live (ext s') = live (ext s))
  ∨ (currentPlayer (ses s') = Some (fresh (ext s))
     ∧ live (ext s') = live (ext s) ∪ {[fresh (ext s)]}) →
  settled true s'.
Proof.
  intros [Ht Hn] Ho Hcase. specialize (Hn Ho). unfold tidy in Ht.
  rewrite Hn in Ht. split; [|done]. unfold tidy.
  destruct Hcase as [[-> ->]|[-> ->]].
  - by rewrite Hn.
  - rewrite Ht. set_solver.
Qed.

Lemma settled_serve (opened : bool) (s : lightbox) (r : request) :
  destroy_returns B → settled opened s → paired opened [r] = true →
  settled (opened_after opened [r]) (serve B s r).
Proof.
  intros Hd Hs Hp. destruct r as [now d|now id a|now]; simpl in *.
  - rewrite andb_true_r in Hp. apply negb_true_iff in Hp.
    eapply settled_build; [done..|apply openLightbox_player].
  - rewrite andb_true_r in Hp. apply negb_true_iff in Hp.
    eapply settled_build; [done..|apply loadVideo_player].
  - destruct (closeLightbox_player now s Hd) as [Hc Hl]. destruct Hs as [Ht _].
    split; [|done]. unfold tidy. rewrite Hc, Hl, Ht.
    destruct (currentPlayer (ses s)); set_solver.
Qed.

Lemma settled_serve_all (rs : list request) (opened : bool) (s : lightbox) :
  destroy_returns B → settled opened s → paired opened rs = true →
  settled (opened_after opened rs) (serve_all B s rs).
Proof.
  intros Hd. revert opened s. induction rs as [|r rs IH]; intros opened s Hs Hp.
  - done.
  - change (r :: rs) with ([r] ++ rs) in Hp.
    apply paired_app in Hp as [Hp1 Hp2].
    apply (IH (opened_after opened [r]) (serve B s r));
      [by apply settled_serve|done].
Qed.

Lemma tidy_size (s : lightbox) : tidy s → (size (live (ext s)) ≤ 1)%nat.
Proof.
  unfold tidy. intros ->. destruct (currentPlayer (ses s)).
  - by rewrite size_singleton.
  - rewrite size_empty. lia.
Qed.

End Lifecycle.

(** C1, as stated, fails: two [openLightbox] calls in a row build a second
    handle while the first is still alive. *)
Lemma double_open_counterexample :
  ¬ (∀ (B : browser) (s : lightbox) (rs : list request),
       tidy s → currentPlayer (ses s) = None →
       (size (live (ext (serve_all B s rs))) ≤ 1)%nat).
Proof.
  intros H.
  specialize (H Samples.desktop Samples.idle
                [OpenLightbox 0 (Some Samples.demo_tile);
                 OpenLightbox 5 (Some Samples.demo_tile)]).
  assert (E : size (live (ext (serve_all Samples.desktop Samples.idle
                [OpenLightbox 0 (Some Samples.demo_tile);
                 OpenLightbox 5 (Some Samples.demo_tile)]))) = 2%nat)
    by (vm_compute; reflexivity).
  rewrite E in H. specialize (H eq_refl eq_refl). lia.
Qed.

(** C1, amended.  In every sequence of [openLightbox], [loadVideo] and
    [closeLightbox] calls in which the modal is closed before it is opened
    again, started with no player and with an SDK whose [destroy()]
    returns: at every point the live handles are exactly the current player,
    so at most one; no handle is alive when a call that builds a player is
    about to run; and after each [closeLightbox] none is alive and
    [currentPlayer] is null.  [loadVideo] itself tears nothing down. *)
Theorem one_handle_when_paired (B : browser) (s : lightbox) (rs : list request) :
  destroy_returns B → tidy s → currentPlayer (ses s) = None →
  paired false rs = true →
  ∀ pre suf, rs = pre ++ suf →
    let s' := serve_all B s pre in
    tidy s'
    ∧ (size (live (ext s')) ≤ 1)%nat
    ∧ (∀ r rest, suf = r :: rest → builds_player r → live (ext s') = ∅)
    ∧ (∀ now pre', pre = pre' ++ [CloseLightbox now] →
         live (ext s') = ∅ ∧ currentPlayer (ses s') = None).
Proof.
  intros Hd Ht Hn Hp pre suf ->. cbv zeta.
  apply paired_app in Hp as [Hpre Hsuf].
  assert (Hs : settled false s) by (by split).
  pose proof (settled_serve_all B pre false s Hd Hs Hpre) as [Ht' Hn'].
  split; [done|]. split; [by apply tidy_size|]. split.
  - intros r rest -> Hb. unfold tidy in Ht'.
    destruct r; simpl in Hsuf, Hb; try done;
      apply andb_prop in Hsuf as [Ho _]; apply negb_true_iff in Ho;
      by rewrite (Hn' Ho) in Ht'.
  - intros now pre' ->. unfold tidy in Ht'.
    assert (Ho : opened_after false (pre' ++ [CloseLightbox now]) = false).
    { unfold opened_after. by rewrite fold_left_app. }
    rewrite (Hn' Ho) in Ht'. by split; [|apply Hn'].
Qed.

End HandleFacts.

(** ** Scroll locking *)

Module ScrollFacts.
Import ScrollLock.

Local Arguments Ascii.eqb : simpl never.
Local Open Scope N_scope.

(** The number a run of decimal digits denotes, read left to right. *)
Fixpoint digits_value (acc : N) (d : Decimal.uint) : N :=
  match d with
  | Decimal.Nil => acc
  | Decimal.D0 d => digits_value (10 * acc + 0) d
  | Decimal.D1 d => digits_value (10 * acc + 1) d
  | Decimal.D2 d => digits_value (10 * acc + 2) d
  | Decimal.D3 d => digits_value (10 * acc + 3) d
  | Decimal.D4 d => digits_value (10 * acc + 4) d
  | Decimal.D5 d => digits_value (10 * acc + 5) d
  | Decimal.D6 d => digits_value (10 * acc + 6) d
  | Decimal.D7 d => digits_value (10 * acc + 7) d
  | Decimal.D8 d => digits_value (10 * acc + 8) d
  | Decimal.D9 d => digits_value (10 * acc + 9) d
  end.

Lemma digits_value_revapp (d d' : Decimal.uint) :
  DecimalPos.Unsigned.of_lu (Decimal.revapp d d')
  = digits_value (DecimalPos.Unsigned.of_lu d') d.
Proof.
  revert d'. induction d; intros d'; simpl; try done;
    rewrite IHd; f_equal; simpl DecimalPos.Unsigned.of_lu; lia.
Qed.

Lemma digits_value_to_uint (n : N) : digits_value 0 (N.to_uint n) = n.
Proof.
  rewrite <- (DecimalN.Unsigned.of_to n) at 2.
  unfold N.of_uint. rewrite DecimalPos.Unsigned.of_uint_alt.
  unfold Decimal.rev. by rewrite digits_value_revapp.
Qed.

(** A string that does not go on with a digit. *)
Definition stops (rest : string) : Prop :=
  match rest with
  | String c _ => JsString.is_digit c = false
  | EmptyString => True
  end.

Lemma read_digits_stop (acc : N) (rest : string) :
  stops rest → read_digits acc true rest = Some acc.
Proof. destruct rest as [|c rest]; simpl; [done|]. by intros ->. Qed.

Lemma append_cons (c : ascii) (s t : string) :
  String c s +:+ t = String c (s +:+ t).
Proof. reflexivity. Qed.

Lemma read_digits_numeral (d : Decimal.uint) (acc : N) (seen : bool) (rest : string) :
  stops rest →
  read_digits acc seen (NilEmpty.string_of_uint d +:+ rest)
  = match d with
    | Decimal.Nil => read_digits acc seen rest
    | _ => Some (digits_value acc d)
    end.
Proof.
  intros Hrest. revert acc seen.
  induction d as [|d IH|d IH|d IH|d IH|d IH|d IH|d IH|d IH|d IH|d IH];
    intros acc seen; [done|..];
    cbn [NilEmpty.string_of_uint]; rewrite append_cons; cbn [read_digits];
    change (JsString.is_digit _) with true; cbv iota;
    rewrite IH; cbn [digits_value];
    (destruct d; [by rewrite read_digits_stop|done..]).
Qed.

Lemma N_to_uint_nonnil (n : N) : N.to_uint n ≠ Decimal.Nil.
Proof.
  destruct n; simpl; [done|apply DecimalPos.Unsigned.to_uint_nonnil].
Qed.

(** Reading back the whole part of a printed number. *)
Lemma read_printed (n : N) (rest : string) :
  stops rest →
  read_digits 0 false (NilZero.string_of_uint (N.to_uint n) +:+ rest) = Some n.
Proof.
  intros Hrest. pose proof (N_to_uint_nonnil n) as Hn.
  assert (E : NilZero.string_of_uint (N.to_uint n)
              = NilEmpty.string_of_uint (N.to_uint n)).
  { unfold NilZero.string_of_uint. by destruct (N.to_uint n). }
  rewrite E, read_digits_numeral by done.
  destruct (N.to_uint n) eqn:En; [done|..]; by rewrite <- En, digits_value_to_uint.
Qed.

Lemma append_assoc (a b c : string) : (a +:+ b) +:+ c = a +:+ (b +:+ c).
Proof.
  induction a as [|x a IH]; [done|]. rewrite !append_cons. by rewrite IH.
Qed.

Lemma printed_top_parses (y : pixels) :
  parseInt10 ("-" +:+ px_text y +:+ "px") = Some (- Z.of_N (whole y))%Z.
Proof.
  unfold px_text. rewrite append_assoc.
  change ("-" +:+ ?s) with (String "-" s).
  unfold parseInt10. cbn [skip_space]. change (is_space "-") with false.
  cbv iota. change (Ascii.eqb "-" "-") with true. cbv iota.
  rewrite read_printed; [done|].
  destruct (frac y) as [|c f]; cbn [JsString.truthy]; cbv iota; done.
Qed.

Section RoundTrip.

Variables (th : fields) (p : page).

Let locked := lock th p.
Let unlocked := unlock (fst locked) (snd locked).

(** Without the plugin, closing restores the whole part of the offset
    captured at opening: what [parseInt] reads back from [style.top]. *)
Lemma native_round_trip :
  plugin_lookup p ≠ Found → hadSmoother th && smoother th = false →
  savedScrollY (fst locked) = scrollY p
  ∧ html_top (snd locked) = "-" +:+ px_text (scrollY p) +:+ "px"
  ∧ visible_offset (snd unlocked) = px (whole (scrollY p)).
Proof.
  intros Hl Hs. subst unlocked locked.
  assert (Hlock : lock th p = native_lock th p).
  { unfold lock. by destruct (plugin_lookup p). }
  rewrite Hlock.
  assert (Hy : (if px_truthy (scrollY p) then scrollY p
                else if px_truthy (pageYOffset p) then pageYOffset p else px 0)
               = scrollY p).
  { unfold pageYOffset, px_truthy. destruct (scrollY p) as [w f]. simpl.
    destruct w; [|done]. by destruct f. }
  unfold native_lock. rewrite Hy. cbn [fst snd savedScrollY html_top].
  split; [done|]. split; [done|].
  unfold unlock. cbn [hadSmoother smoother]. rewrite Hs.
  unfold native_unlock, visible_offset.
  cbn [snd plugin_lookup scrollY html_top].
  change (JsString.truthy ("-" +:+ ?s)) with true. cbv iota.
  rewrite printed_top_parses. cbn [abs_int fmap option_fmap option_map window_scrollTo].
  rewrite Zabs2N.inj_opp, Zabs2N.id.
  by destruct (plugin_lookup p).
Qed.

(** With a plugin that has [scrollTop], [scrollTo] and [paused], closing
    puts the plugin back at the offset captured at opening. *)
Lemma plugin_round_trip :
  plugin_lookup p = Found →
  m_scrollTop (plugin p) = Works → m_scrollTo (plugin p) = Works →
  savedSmootherY (fst locked) = visible_offset p
  ∧ visible_offset (snd unlocked) = visible_offset p.
Proof.
  intros Hl Ht Ho. subst unlocked locked. unfold lock. rewrite Hl.
  unfold plugin_lock. rewrite Ht. cbn [fst snd savedSmootherY].
  unfold visible_offset at 1. rewrite Hl. split; [done|].
  unfold unlock. cbn [hadSmoother smoother andb].
  unfold plugin_unlock, visible_offset. cbn [snd plugin_lookup plugin].
  rewrite Hl. destruct (m_paused (plugin p)); cbn [m_scrollTo sm_offset];
    by rewrite Ho.
Qed.

End RoundTrip.

(** A whole number of pixels survives the native path. *)
Lemma native_round_trip_whole (th : fields) (p : page) :
  plugin_lookup p ≠ Found → hadSmoother th && smoother th = false →
  frac (scrollY p) = "" →
  visible_offset (snd (unlock (fst (lock th p)) (snd (lock th p))))
  = visible_offset p.
Proof.
  intros Hl Hs Hf.
  destruct (native_round_trip th p Hl Hs) as (_ & _ & ->).
  unfold visible_offset, px. destruct (plugin_lookup p); [done|..];
    destruct (scrollY p); simpl in *; by subst.
Qed.

(** C4 on the failing input.  On a page without the smooth-scroll plugin,
    scrolled to 100.5 px: [openLightbox] captures 100.5 and writes
    [top: -100.5px]; [closeLightbox] reads it back with [parseInt] and
    scrolls to 100, not to the captured offset. *)
Theorem fractional_offset_not_restored :
  let p0 := Samples.page_at {| whole := 100; frac := "5" |} in
  let locked := lock initial_fields p0 in
  let unlocked := unlock (fst locked) (snd locked) in
  savedScrollY (fst locked) = {| whole := 100; frac := "5" |}
  ∧ html_top (snd locked) = "-100.5px"
  ∧ visible_offset (snd unlocked) = px 100
  ∧ visible_offset (snd unlocked) ≠ visible_offset p0.
Proof. vm_compute. repeat split; discriminate. Qed.

End ScrollFacts.

(** ** [togglePlayPause] *)

Module ToggleFacts.
Import JsNum Timers Lightbox LightboxFacts Flat.

(** The controller after a call [c] on handle [h] has been made. *)
Definition issued (h : nat) (c : call) (s : lightbox) : lightbox :=
  with_ext (record_call h c) s.

Section Toggle.
Variable B : browser.

Lemma issued_facts h c s :
  ses (issued h c s) = ses s
  ∧ tst (issued h c s) = tst s
  ∧ log (ext (issued h c s)) = log (ext s) ++ [(h, c)]
  ∧ unhandled (ext (issued h c s)) = unhandled (ext s).
Proof. done. Qed.

Lemma chain_link_issued h c s :
  currentPlayer (ses s) = Some h →
  chain_link B c s
  = (match settles B (log (ext s)) h c with Rejects => true | _ => false end,
     issued h c s).
Proof.
  intros Hp. unfold chain_link. rewrite Hp.
  by destruct (settles B (log (ext s)) h c).
Qed.

Lemma bare_play_issued h s :
  currentPlayer (ses s) = Some h →
  ses (bare_play B s) = ses s ∧ tst (bare_play B s) = tst s
  ∧ log (ext (bare_play B s)) = log (ext s) ++ [(h, Play)].
Proof.
  intros Hp. unfold bare_play, call_bare. rewrite Hp.
  by destruct (settles B (log (ext s)) h Play).
Qed.

(** The outcomes of the three links of a chain started in [s]. *)
Definition first_outcome h s : settlement :=
  settles B (log (ext s)) h (SetMuted false).
Definition second_outcome h s : settlement :=
  settles B (log (ext s) ++ [(h, SetMuted false)]) h (SetVolume (of_Z 1)).
Definition third_outcome h s : settlement :=
  settles B ((log (ext s) ++ [(h, SetMuted false)]) ++ [(h, SetVolume (of_Z 1))])
          h Play.

Definition rejected (r : settlement) : bool :=
  match r with Rejects => true | _ => false end.

Lemma chain_link_rejected h c s :
  currentPlayer (ses s) = Some h →
  chain_link B c s = (rejected (settles B (log (ext s)) h c), issued h c s).
Proof.
  intros Hp. rewrite (chain_link_issued h) by done.
  by destruct (settles B (log (ext s)) h c).
Qed.

Lemma unmute_chain_cases h later s :
  currentPlayer (ses s) = Some h →
  unmute_chain B later s =
  if rejected (first_outcome h s) then issued h (SetMuted false) s
  else if rejected (second_outcome h s)
       then issued h (SetVolume (of_Z 1)) (issued h (SetMuted false) s)
       else mark_unmuted later
              (issued h (SetVolume (of_Z 1)) (issued h (SetMuted false) s)).
Proof.
  intros Hp. unfold unmute_chain, first_outcome, second_outcome.
  rewrite (chain_link_rejected h) by done.
  destruct (rejected (settles B (log (ext s)) h (SetMuted false))); [done|].
  by rewrite (chain_link_rejected h) by done.
Qed.

Lemma unmute_and_play_chain_cases h later s :
  currentPlayer (ses s) = Some h →
  unmute_and_play_chain B later s =
  if rejected (first_outcome h s)
  then bare_play B (issued h (SetMuted false) s)
  else if rejected (second_outcome h s)
       then bare_play B (issued h (SetVolume (of_Z 1)) (issued h (SetMuted false) s))
       else if rejected (third_outcome h s)
            then bare_play B
                   (issued h Play
                      (issued h (SetVolume (of_Z 1)) (issued h (SetMuted false) s)))
            else mark_unmuted later
                   (issued h Play
                      (issued h (SetVolume (of_Z 1)) (issued h (SetMuted false) s))).
Proof.
  intros Hp.
  unfold unmute_and_play_chain, first_outcome, second_outcome, third_outcome.
  rewrite (chain_link_rejected h) by done.
  destruct (rejected (settles B (log (ext s)) h (SetMuted false))); [done|].
  rewrite (chain_link_rejected h) by done.
  cbn [issued with_ext ext record_call log].
  destruct (rejected (settles B _ h (SetVolume (of_Z 1)))); [done|].
  by rewrite (chain_link_rejected h) by done.
Qed.

End Toggle.

(** The lock of [hideCenterToast] is in force at [now]. *)
Definition toast_locked (now : Z) (s : lightbox) : Prop :=
  Toast.toastLockUntil (tst s) ≠ 0 ∧ now < Toast.toastLockUntil (tst s).

(** What the last link of a chain leaves, seen from outside: the mute flag
    is cleared and the rest of the session kept; the mute button, where
    there is one, reads "Mute"; the toast is off unless its lock is in
    force, in which case the toast and its timer are untouched. *)
Definition unmuted_from (later : Z) (s s' : lightbox) : Prop :=
  isMuted (ses s') = false
  ∧ currentPlayer (ses s') = currentPlayer (ses s)
  ∧ isPlaying (ses s') = isPlaying (ses s)
  ∧ muteBtn (lbl s') = (λ _, "Mute"%string) <$> muteBtn (lbl s)
  ∧ (toast_locked later s → tst s' = tst s ∧ tq s' = tq s)
  ∧ (¬ toast_locked later s → Toast.shown (tst s') = false).

Lemma hide_when_locked (now : Z) (t : Toast.toast) (q : queue) :
  Toast.toastLockUntil t ≠ 0 → now < Toast.toastLockUntil t →
  Toast.hideCenterToast now t q = (t, q).
Proof.
  intros H0 Hn. unfold Toast.hideCenterToast.
  destruct (Toast.pauseIndicator t); [|done].
  replace (Toast.toastLockUntil t =? 0) with false by lia.
  replace (now <? Toast.toastLockUntil t) with true by lia. done.
Qed.

Lemma hide_when_unlocked (now : Z) (t : Toast.toast) (q : queue) :
  ¬ (Toast.toastLockUntil t ≠ 0 ∧ now < Toast.toastLockUntil t) →
  Toast.shown (fst (Toast.hideCenterToast now t q)) = false.
Proof.
  intros Hn. unfold Toast.hideCenterToast.
  destruct (Toast.pauseIndicator t) as [el|] eqn:E;
    [|unfold Toast.shown; cbn [fst]; by rewrite E].
  destruct (negb (Toast.toastLockUntil t =? 0) && (now <? Toast.toastLockUntil t))
    eqn:Hl.
  - exfalso. apply Hn. apply andb_prop in Hl as [H1 H2].
    apply negb_true_iff in H1. lia.
  - unfold Toast.shown. cbn. apply bool_decide_eq_false. set_solver.
Qed.

Lemma mark_unmuted_effect (later : Z) (s : lightbox) :
  ext (mark_unmuted later s) = ext s ∧ unmuted_from later s (mark_unmuted later s).
Proof.
  unfold unmuted_from, mark_unmuted, hideCenterToast, updateMuteButtonLabel, toast_locked.
  rewrite !with_toast_flat.
  destruct (muteBtn (lbl s)) eqn:Hb;
    cbn [ext ses lbl tst tq with_ses with_lbl set_isMuted set_muteBtn isMuted
         currentPlayer isPlaying muteBtn fst snd]; rewrite ?Hb.
  all: split; [done|]; split; [done|]; split; [done|]; split; [done|];
       split; [done|]; split.
  all: try (intros [H0 Hn]; by rewrite hide_when_locked).
  all: intros Hn; by apply hide_when_unlocked.
Qed.

(** C6, as stated, fails: on a phone, 400 ms after the hint to tap for
    sound was put up for 1500 ms, a tap unmutes and plays, all requests
    resolving, and the toast is still on screen: [hideCenterToast] does
    nothing while the toast lock is in force. *)
Lemma toast_survives_tap_counterexample :
  ¬ (∀ (B : browser) (h : nat) (later : Z) (s : lightbox),
       currentPlayer (ses s) = Some h →
       Platform.isAutoplayRestricted (nav B) && isMuted (ses s) = true →
       (∀ history k c, settles B history k c = Resolves) →
       Toast.shown (tst (state_of (togglePlayPause B later s))) = false).
Proof.
  intros H.
  specialize (H Samples.phone 0%nat 500 Samples.hinted_on_phone eq_refl eq_refl
                (λ _ _ _, eq_refl)).
  vm_compute in H. discriminate H.
Qed.

(** C6, amended.  With a player present, [togglePlayPause] takes one of
    four branches.  Playing, on a restricted platform and muted: it asks for
    [setMuted(false)], then [setVolume(1)], then clears the mute flag,
    updates the label and calls [hideCenterToast]; a rejected request ends
    the chain with the session and the toast as they were; it never requests
    a pause.  Playing otherwise: it requests a pause and nothing else.
    Paused, restricted and muted: it asks for [setMuted(false)],
    [setVolume(1)] and [play()], then clears the flag, updates the label and
    calls [hideCenterToast]; if one of the three requests is rejected, the
    session and the toast stay as they were and one bare play request
    follows.  Paused otherwise: it requests play and nothing else, and a
    rejection of that request is handled.  In the two unmuting branches the
    toast goes off only when its lock is not in force; while it is, the
    toast and its timer are left untouched. *)
Theorem togglePlayPause_branches (B : browser) (h : nat) (later : Z) (s : lightbox) :
  currentPlayer (ses s) = Some h →
  let muted_phone := Platform.isAutoplayRestricted (nav B) && isMuted (ses s) in
  let r1 := rejected (first_outcome B h s) in
  let r2 := rejected (second_outcome B h s) in
  let r3 := rejected (third_outcome B h s) in
  let s' := state_of (togglePlayPause B later s) in
  let unmute := [(h, SetMuted false); (h, SetVolume (of_Z 1))] in
  (isPlaying (ses s) = true → muted_phone = true →
     togglePlayPause B later s = Done s'
     ∧ (∃ made, log (ext s') = log (ext s) ++ made ∧ ∀ k, (k, Pause) ∉ made)
     ∧ (r1 = false → r2 = false →
        log (ext s') = log (ext s) ++ unmute ∧ unmuted_from later s s')
     ∧ (r1 = true →
        log (ext s') = log (ext s) ++ [(h, SetMuted false)]
        ∧ ses s' = ses s ∧ tst s' = tst s)
     ∧ (r1 = false → r2 = true →
        log (ext s') = log (ext s) ++ unmute ∧ ses s' = ses s ∧ tst s' = tst s))
  ∧ (isPlaying (ses s) = true → muted_phone = false →
     log (ext s') = log (ext s) ++ [(h, Pause)]
     ∧ ses s' = ses s ∧ tst s' = tst s)
  ∧ (isPlaying (ses s) = false → muted_phone = true →
     togglePlayPause B later s = Done s'
     ∧ (r1 = false → r2 = false → r3 = false →
        log (ext s') = log (ext s) ++ unmute ++ [(h, Play)]
        ∧ unmuted_from later s s')
     ∧ (r1 || r2 || r3 = true →
        ses s' = ses s ∧ tst s' = tst s
        ∧ log (ext s')
          = log (ext s)
            ++ (if r1 then [(h, SetMuted false)]
                else if r2 then unmute else unmute ++ [(h, Play)])
            ++ [(h, Play)]))
  ∧ (isPlaying (ses s) = false → muted_phone = false →
     log (ext s') = log (ext s) ++ [(h, Play)]
     ∧ unhandled (ext s') = unhandled (ext s)
     ∧ ses s' = ses s ∧ tst s' = tst s).
Proof.
  intros Hp. cbv zeta. unfold togglePlayPause, restricted. rewrite Hp.
  split; [|split; [|split]].
  - intros -> ->. rewrite (unmute_chain_cases B h) by done. cbn [state_of].
    split; [done|].
    destruct (rejected (first_outcome B h s)).
    { split; [exists [(h, SetMuted false)]; split; [done|]|].
      - intros k Hin. apply list_elem_of_singleton in Hin. discriminate Hin.
      - split; [done|]. split; [done|]. done. }
    destruct (rejected (second_outcome B h s)).
    { split; [exists [(h, SetMuted false); (h, SetVolume (of_Z 1))]; split|].
      - cbn [issued with_ext ext record_call log]. by rewrite <- app_assoc.
      - intros k Hin.
        repeat (apply elem_of_cons in Hin as [Hin|Hin]; [discriminate Hin|]).
        by apply elem_of_nil in Hin.
      - split; [done|]. split; [done|]. intros _ _.
        cbn [issued with_ext ext record_call log ses tst]. by rewrite <- app_assoc. }
    match goal with |- context [mark_unmuted later ?x] =>
      destruct (mark_unmuted_effect later x) as [He Hu] end.
    rewrite He. cbn [issued with_ext ext record_call log]. rewrite <- app_assoc.
    split; [exists [(h, SetMuted false); (h, SetVolume (of_Z 1))]; split; [done|]|].
    + intros k Hin.
      repeat (apply elem_of_cons in Hin as [Hin|Hin]; [discriminate Hin|]).
      by apply elem_of_nil in Hin.
    + split; [|by split]. intros _ _. split; [done|]. exact Hu.
  - intros -> ->. unfold call_bare. rewrite Hp.
    by destruct (settles B (log (ext s)) h Pause).
  - intros -> ->. rewrite (unmute_and_play_chain_cases B h) by done.
    cbn [state_of]. split; [done|].
    destruct (rejected (first_outcome B h s)).
    { split; [done|]. intros _.
      destruct (bare_play_issued B h (issued h (SetMuted false) s) Hp)
        as (Hs & Ht & Hl).
      rewrite Hs, Ht, Hl. cbn [issued with_ext ext record_call log ses tst].
      by rewrite <- app_assoc. }
    destruct (rejected (second_outcome B h s)).
    { split; [done|]. intros _.
      match goal with |- context [bare_play B ?x] =>
        destruct (bare_play_issued B h x Hp) as (Hs & Ht & Hl) end.
      rewrite Hs, Ht, Hl. cbn [issued with_ext ext record_call log ses tst].
      by rewrite <- !app_assoc. }
    destruct (rejected (third_outcome B h s)).
    { split; [done|]. intros _.
      match goal with |- context [bare_play B ?x] =>
        destruct (bare_play_issued B h x Hp) as (Hs & Ht & Hl) end.
      rewrite Hs, Ht, Hl. cbn [issued with_ext ext record_call log ses tst].
      by rewrite <- !app_assoc. }
    split; [|done]. intros _ _ _.
    match goal with |- context [mark_unmuted later ?x] =>
      destruct (mark_unmuted_effect later x) as [He Hu] end.
    rewrite He. cbn [issued with_ext ext record_call log]. rewrite <- !app_assoc.
    split; [done|]. exact Hu.
  - intros -> ->. unfold call_caught. rewrite Hp.
    by destruct (settles B (log (ext s)) h Play).
Qed.

End ToggleFacts.

(** ** A rejected [ready()] *)

Module ReadyFacts.
Import JsNum Timers Lightbox TimersFacts LightboxFacts.

Definition error_shown (s : lightbox) : Prop :=
  ∃ cl, errorPlaceholder (ui s) = Some cl ∧ "active" ∈ cl.

Definition controls_hidden (s : lightbox) : Prop :=
  controls (ui s) = Some "none"%string.

Definition controls_revealed (s : lightbox) : Prop :=
  controls (ui s) = Some ""%string.

(** The modal has its error placeholder and its controls. *)
Definition furnished (s : lightbox) : Prop :=
  is_Some (errorPlaceholder (ui s)) ∧ is_Some (controls (ui s)).

(** No field holds the id [id]. *)
Definition forgotten (id : nat) (s : lightbox) : Prop :=
  Toast.pauseTimeout (tst s) ≠ Some id ∧ loadingTimeoutId (ui s) ≠ Some id.

(** The fields hold ids that were handed out. *)
Definition ids_known (s : lightbox) : Prop :=
  (∀ id, Toast.pauseTimeout (tst s) = Some id → (id < next_id (tq s))%nat)
  ∧ (∀ id, loadingTimeoutId (ui s) = Some id → (id < next_id (tq s))%nat).

Lemma tq_with_toast f s : tq (with_toast f s) = snd (f (tst s) (tq s)).
Proof. unfold with_toast. by destruct (f (tst s) (tq s)). Qed.
Lemma tst_with_toast f s : tst (with_toast f s) = fst (f (tst s) (tq s)).
Proof. unfold with_toast. by destruct (f (tst s) (tq s)). Qed.

Ltac pick := repeat split; first [done | left; done | right; done].

(** The callback armed by [loadVideo]. *)
Definition is_reveal (c : callback) : bool :=
  match c with CbShowControls => true | _ => false end.

(** What [hideLoading] does to the parts that matter here. *)
Lemma hideLoading_effect s :
  errorPlaceholder (ui (hideLoading s)) = errorPlaceholder (ui s)
  ∧ controls (ui (hideLoading s)) = controls (ui s)
  ∧ tst (hideLoading s) = tst s
  ∧ (tq (hideLoading s) = tq s
     ∨ ∃ id, loadingTimeoutId (ui s) = Some id
             ∧ tq (hideLoading s) = clearTimeout id (tq s))
  ∧ (loadingTimeoutId (ui (hideLoading s)) = None
     ∨ loadingTimeoutId (ui (hideLoading s)) = loadingTimeoutId (ui s)).
Proof.
  unfold hideLoading. destruct (loading (ui s)); [|pick].
  destruct (loadingTimeoutId (ui s)) as [id|] eqn:E; cbn.
  - repeat split; [right; by exists id|by left].
  - rewrite E. pick.
Qed.

Lemma showError_effect s :
  errorPlaceholder (ui (showError s)) = add_class "active" (errorPlaceholder (ui s))
  ∧ controls (ui (showError s)) = (λ _, "none"%string) <$> controls (ui s)
  ∧ tst (showError s) = tst s
  ∧ (tq (showError s) = tq s
     ∨ ∃ id, loadingTimeoutId (ui s) = Some id
             ∧ tq (showError s) = clearTimeout id (tq s))
  ∧ (loadingTimeoutId (ui (showError s)) = None
     ∨ loadingTimeoutId (ui (showError s)) = loadingTimeoutId (ui s)).
Proof.
  destruct (hideLoading_effect s) as (He & Hc & Ht & Hq & Hl).
  unfold showError, hideControls.
  cbn [ui with_ui set_controls set_errorPlaceholder errorPlaceholder controls
       tst tq loadingTimeoutId].
  by rewrite He, Hc.
Qed.

(** What a timer callback does to them. *)
Lemma fire_effect tm s :
  errorPlaceholder (ui (fire tm s)) = errorPlaceholder (ui s)
  ∧ controls (ui (fire tm s))
    = (if is_reveal (cb tm)
       then (λ _, ""%string) <$> controls (ui s) else controls (ui s))
  ∧ (tq (fire tm s) = tq s
     ∨ ∃ id, Toast.pauseTimeout (tst s) = Some id
             ∧ tq (fire tm s) = clearTimeout id (tq s))
  ∧ (Toast.pauseTimeout (tst (fire tm s)) = None
     ∨ Toast.pauseTimeout (tst (fire tm s)) = Toast.pauseTimeout (tst s))
  ∧ (loadingTimeoutId (ui (fire tm s)) = None
     ∨ loadingTimeoutId (ui (fire tm s)) = loadingTimeoutId (ui s)).
Proof.
  unfold fire. destruct (cb tm) eqn:Hcb; cbn [is_reveal]; try pick.
  - unfold hideCenterToast. rewrite ui_with_toast, tq_with_toast, tst_with_toast.
    unfold Toast.hideCenterToast.
    destruct (Toast.pauseIndicator (tst s)); [|pick].
    destruct (negb (Toast.toastLockUntil (tst s) =? 0)
              && (due tm <? Toast.toastLockUntil (tst s))); cbn; [pick|].
    split; [done|]. split; [done|]. split; [|split; [by left|by right]].
    unfold Toast.drop_pending.
    destruct (Toast.pauseTimeout (tst s)) as [id|]; [right; by exists id|by left].
  - unfold revealLoading. cbn. destruct (allowLoader (ui s)); cbn; pick.
Qed.

Lemma length_fire tm s :
  (length (pending (tq (fire tm s))) ≤ length (pending (tq s)))%nat.
Proof.
  destruct (fire_effect tm s) as (_ & _ & [->|(id & _ & ->)] & _); [done|].
  apply length_clearTimeout.
Qed.

Lemma wf_fire tm s : wf (tq s) → wf (tq (fire tm s)).
Proof.
  intros Hw. destruct (fire_effect tm s) as (_ & _ & [->|(id & _ & ->)] & _);
    [done|by apply wf_clearTimeout].
Qed.

Lemma pending_fire tm s u :
  u ∈ pending (tq (fire tm s)) → u ∈ pending (tq s).
Proof.
  destruct (fire_effect tm s) as (_ & _ & [->|(id & _ & ->)] & _); [done|].
  intros Hu. by apply elem_of_clearTimeout in Hu as [_ Hu].
Qed.

(** The state in which a timer is taken off the queue before it runs. *)
Definition popped (tm : timer) (s : lightbox) : lightbox :=
  with_tq (λ _, clearTimeout (tid tm) (tq s)) s.

Lemma run_keeps (P : lightbox → Prop) (horizon : Z) (fuel : nat) (s : lightbox) :
  (∀ tm w, P w → tm ∈ pending (tq w) → due tm <= horizon →
           P (fire tm (popped tm w))) →
  P s → P (run fuel horizon s).
Proof.
  intros Hstep Hs. unfold run.
  by apply (run_invariant tq (λ q', with_tq (λ _, q')) fire).
Qed.

Lemma run_empties (horizon : Z) (fuel : nat) (s : lightbox) (u : timer) :
  (length (pending (tq s)) ≤ fuel)%nat →
  u ∈ pending (tq (run fuel horizon s)) → horizon < due u.
Proof.
  intros Hf Hu. eapply pop_due_none; [|exact Hu]. unfold run.
  apply (run_drains tq (λ q', with_tq (λ _, q')) fire); [done| |done].
  intros tm w. apply length_fire.
Qed.

Lemma run_shrinks (horizon : Z) (fuel : nat) (s : lightbox) :
  (length (pending (tq (run fuel horizon s))) ≤ length (pending (tq s)))%nat.
Proof.
  apply (run_keeps (λ w, (length (pending (tq w)) ≤ length (pending (tq s)))%nat));
    [|done].
  intros tm w Hw Hin _. etransitivity; [apply length_fire|].
  unfold popped. cbn [tq with_tq].
  etransitivity; [apply length_clearTimeout|done].
Qed.

(** The error placeholder stays as it is while timers run. *)
Lemma run_error (horizon : Z) (fuel : nat) (s : lightbox) :
  errorPlaceholder (ui (run fuel horizon s)) = errorPlaceholder (ui s).
Proof.
  apply (run_keeps (λ w, errorPlaceholder (ui w) = errorPlaceholder (ui s)));
    [|done].
  intros tm w Hw _ _. destruct (fire_effect tm (popped tm w)) as (-> & _).
  exact Hw.
Qed.

Lemma run_controls_present (horizon : Z) (fuel : nat) (s : lightbox) :
  is_Some (controls (ui s)) → is_Some (controls (ui (run fuel horizon s))).
Proof.
  apply (run_keeps (λ w, is_Some (controls (ui w)))).
  intros tm w Hw _ _. destruct (fire_effect tm (popped tm w)) as (_ & -> & _).
  destruct (is_reveal (cb tm)); [|exact Hw].
  apply fmap_is_Some. exact Hw.
Qed.

(** Hidden controls stay hidden while no reveal is pending. *)
Definition quiet (s : lightbox) : Prop :=
  controls_hidden s ∧ ∀ u, u ∈ pending (tq s) → is_reveal (cb u) = false.

Lemma run_quiet (horizon : Z) (fuel : nat) (s : lightbox) :
  quiet s → quiet (run fuel horizon s).
Proof.
  apply run_keeps. intros tm w [Hh Hq] Hin _.
  destruct (fire_effect tm (popped tm w)) as (_ & Hc & _).
  split.
  - unfold controls_hidden. rewrite Hc, (Hq tm Hin). exact Hh.
  - intros u Hu. apply pending_fire in Hu.
    unfold popped in Hu. cbn [tq with_tq] in Hu.
    apply elem_of_clearTimeout in Hu as [_ Hu]. by apply Hq.
Qed.

Section Armed.

(** [mine] is the reveal timer under consideration. *)
Variable mine : timer.
Hypothesis mine_reveal : cb mine = CbShowControls.

(** The reveal is pending and cannot be cancelled through a stale id. *)
Definition armed (s : lightbox) : Prop :=
  wf (tq s) ∧ mine ∈ pending (tq s) ∧ forgotten (tid mine) s.

Lemma forgotten_fire tm s :
  forgotten (tid mine) s → forgotten (tid mine) (fire tm s).
Proof.
  intros [Hp Hl]. destruct (fire_effect tm s) as (_ & _ & _ & Hp' & Hl').
  split.
  - destruct Hp' as [->| ->]; [done|exact Hp].
  - destruct Hl' as [->| ->]; [done|exact Hl].
Qed.

(** Another timer's callback leaves the reveal armed. *)
Lemma armed_fire_other tm s :
  armed s → tm ∈ pending (tq s) → tid tm ≠ tid mine →
  armed (fire tm (popped tm s)).
Proof.
  intros (Hw & Hin & Hf) Htm Hne.
  assert (Hin' : mine ∈ pending (tq (popped tm s))).
  { unfold popped. cbn [tq with_tq]. apply elem_of_clearTimeout. by split. }
  assert (Hf' : forgotten (tid mine) (popped tm s)) by exact Hf.
  split; [apply wf_fire; by apply wf_clearTimeout|].
  split; [|by apply forgotten_fire].
  destruct (fire_effect tm (popped tm s)) as (_ & _ & [->|(id & Hid & ->)] & _);
    [done|].
  apply elem_of_clearTimeout. split; [|done].
  destruct Hf' as [Hp _]. intros E. apply Hp. by rewrite Hid, E.
Qed.

(** Before its due time the reveal stays armed. *)
Lemma run_armed (horizon : Z) (fuel : nat) (s : lightbox) :
  horizon < due mine → armed s → armed (run fuel horizon s).
Proof.
  intros Hh. apply run_keeps. intros tm w Hw Hin Hdue.
  apply armed_fire_other; [done..|]. intros E.
  destruct Hw as (Hwf & Hm & _).
  assert (tm = mine) by by apply (wf_tid_inj (tq w)). subst tm. lia.
Qed.

(** Once due, the reveal has run: the controls are displayed. *)
Definition armed_or_revealed (s : lightbox) : Prop :=
  wf (tq s)
  ∧ ((mine ∈ pending (tq s) ∧ forgotten (tid mine) s ∧ is_Some (controls (ui s)))
     ∨ controls_revealed s).

Lemma run_reveals (horizon : Z) (fuel : nat) (s : lightbox) :
  due mine <= horizon → (length (pending (tq s)) ≤ fuel)%nat →
  armed s → is_Some (controls (ui s)) →
  controls_revealed (run fuel horizon s).
Proof.
  intros Hh Hf Ha Hc.
  assert (H : armed_or_revealed (run fuel horizon s)).
  { apply run_keeps.
    - intros tm w [Hw Hcase] Hin _. split.
      { apply wf_fire. unfold popped. cbn [tq with_tq]. by apply wf_clearTimeout. }
      destruct (fire_effect tm (popped tm w)) as (_ & Hctl & _).
      destruct Hcase as [(Hm & Hfo & Hsome)|Hrev].
      + destruct (decide (tid tm = tid mine)) as [E|Hne].
        * assert (tm = mine) by by apply (wf_tid_inj (tq w)). subst tm.
          right. unfold controls_revealed. rewrite Hctl, mine_reveal.
          cbn [is_reveal]. destruct Hsome as [d Hd].
          unfold popped. cbn [ui with_tq]. by rewrite Hd.
        * destruct (armed_fire_other tm w) as (_ & Hm' & Hfo'); [done..|].
          destruct (is_reveal (cb tm)) eqn:Hr.
          -- right. unfold controls_revealed. rewrite Hctl.
             destruct Hsome as [d Hd]. unfold popped. cbn [ui with_tq].
             by rewrite Hd.
          -- left. split; [done|]. split; [done|]. by rewrite Hctl.
      + right. unfold controls_revealed in *. rewrite Hctl.
        unfold popped. cbn [ui with_tq]. rewrite Hrev.
        by destruct (is_reveal (cb tm)).
    - destruct Ha as (Hw & Hm & Hfo). split; [done|]. left. by split. }
  destruct H as [_ [(Hm & _)|Hrev]]; [|done].
  pose proof (run_empties horizon fuel s mine Hf Hm). lia.
Qed.

End Armed.

Section Load.
Variable B : browser.

(** Calls on the player touch nothing but the SDK. *)
Definition beside_sdk (s s' : lightbox) : Prop :=
  ui s' = ui s ∧ tq s' = tq s ∧ tst s' = tst s.

Lemma beside_call_caught c s : beside_sdk s (state_of (call_caught B c s)).
Proof.
  unfold call_caught. destruct (currentPlayer (ses s)); [|done].
  by destruct (settles _ _ _ _).
Qed.

Lemma beside_autoplay_requests s : beside_sdk s (autoplay_requests B s).
Proof.
  unfold autoplay_requests.
  destruct (beside_call_caught (SetMuted false) s) as (A1 & A2 & A3).
  destruct (call_caught B (SetMuted false) s) as [s1|s1]; cbn in *; [|done].
  destruct (beside_call_caught (SetVolume (of_Z 1)) s1) as (B1 & B2 & B3).
  destruct (call_caught B (SetVolume (of_Z 1)) s1) as [s2|s2]; cbn in *.
  - destruct (beside_call_caught Play s2) as (C1 & C2 & C3).
    unfold beside_sdk. by rewrite C1, C2, C3, B1, B2, B3.
  - unfold beside_sdk. by rewrite B1, B2, B3.
Qed.

Lemma showLoading_effect now s :
  controls (ui (showLoading now s)) = controls (ui s)
  ∧ errorPlaceholder (ui (showLoading now s)) = errorPlaceholder (ui s)
  ∧ tst (showLoading now s) = tst s
  ∧ ((tq (showLoading now s) = tq s
      ∧ loadingTimeoutId (ui (showLoading now s)) = loadingTimeoutId (ui s))
     ∨ (tq (showLoading now s) = snd (setTimeout now CbRevealLoading 600 (tq s))
        ∧ loadingTimeoutId (ui (showLoading now s)) = Some (next_id (tq s)))).
Proof.
  unfold showLoading. destruct (loading (ui s)); [|pick].
  destruct (allowLoader (ui s)); [|pick]. cbn [negb].
  destruct (loadingTimeoutId (ui s)) eqn:E; [rewrite ?E; pick|]. cbn. pick.
Qed.

Lemma primed_effect now s :
  controls (ui (primed now s)) = (λ _, "none"%string) <$> controls (ui s)
  ∧ errorPlaceholder (ui (primed now s))
    = remove_class "active" (errorPlaceholder (ui s))
  ∧ tst (primed now s) = tst s
  ∧ ((tq (primed now s) = tq s
      ∧ loadingTimeoutId (ui (primed now s)) = loadingTimeoutId (ui s))
     ∨ (tq (primed now s) = snd (setTimeout now CbRevealLoading 600 (tq s))
        ∧ loadingTimeoutId (ui (primed now s)) = Some (next_id (tq s)))).
Proof.
  destruct (showLoading_effect now (with_ui (set_allowLoader true) s))
    as (Hc & He & Ht & Hq).
  unfold primed, hideControls, hideError, showControls.
  cbn [ui tq tst with_ses with_ui set_controls set_errorPlaceholder controls
       errorPlaceholder loadingTimeoutId].
  rewrite Hc, He, Ht. cbn [ui with_ui set_allowLoader controls errorPlaceholder tst].
  split; [by destruct (controls (ui s))|]. split; [done|]. split; [done|].
  exact Hq.
Qed.

(** [loadVideo] when it gets as far as [ready()]: the state it returns is a
    state [s'] with the reveal timer added. *)
Lemma loadVideo_reaches_ready now vimeoId a s f :
  videoFrame (ses s) = Some f →
  vimeoId ≠ Some "INVALID_VIDEO_ID_FOR_TESTING"%string →
  constructor_throws B (fresh (ext s)) = false →
  (∀ history h, settles B history h Ready ≠ ThrowsSync) →
  ∃ s', loadVideo B now vimeoId a s
        = with_tq (λ _, snd (setTimeout now CbShowControls 300 (tq s'))) s'
        ∧ beside_sdk (primed now s) s'.
Proof.
  intros Hf Hid Hctor Hready. rewrite loadVideo_unfold. cbv zeta.
  rewrite bool_decide_eq_false_2 by done.
  destruct (primed_session now s) as [_ Hv]. rewrite Hf in Hv. rewrite Hv.
  cbn [fmap option_fmap option_map].
  cbn [ext with_ses]. rewrite (primed_ext now s), Hctor.
  match goal with |- context [call_caught B Ready ?x] =>
    set (s0 := x);
    assert (K : beside_sdk (primed now s) s0)
  end.
  { subst s0. destruct a.
    - match goal with |- beside_sdk _ (autoplay_requests B ?y) =>
        destruct (beside_autoplay_requests y) as (A1 & A2 & A3) end.
      unfold beside_sdk. by rewrite A1, A2, A3.
    - done. }
  destruct (beside_call_caught Ready s0) as (C1 & C2 & C3).
  assert (Hdone : ∃ s', call_caught B Ready s0 = Done s').
  { unfold call_caught. destruct (currentPlayer (ses s0)) as [h|] eqn:Hcur.
    - specialize (Hready (log (ext s0)) h).
      destruct (settles B (log (ext s0)) h Ready); [eauto..|done].
    - exfalso. subst s0. revert Hcur.
      destruct a; [rewrite ses_autoplay_requests|]; done. }
  destruct Hdone as [s' Hs']. rewrite Hs' in *. cbn [state_of] in *.
  exists s'. split; [done|]. destruct K as (K1 & K2 & K3).
  unfold beside_sdk. by rewrite C1, C2, C3.
Qed.

End Load.

Lemma run_pending_subset (horizon : Z) (fuel : nat) (s : lightbox) (u : timer) :
  u ∈ pending (tq (run fuel horizon s)) → u ∈ pending (tq s).
Proof.
  revert u.
  apply (run_keeps (λ w, ∀ u, u ∈ pending (tq w) → u ∈ pending (tq s)));
    [|done].
  intros tm w Hw _ _ u Hu. apply pending_fire in Hu.
  unfold popped in Hu. cbn [tq with_tq] in Hu.
  apply elem_of_clearTimeout in Hu as [_ Hu]. by apply Hw.
Qed.

Lemma showError_pending s u :
  u ∈ pending (tq (showError s)) → u ∈ pending (tq s).
Proof.
  destruct (showError_effect s) as (_ & _ & _ & [->|(id & _ & ->)] & _); [done|].
  intros Hu. by apply elem_of_clearTimeout in Hu as [_ Hu].
Qed.

Lemma showError_armed (mine : timer) s :
  armed mine s → armed mine (showError s).
Proof.
  intros (Hw & Hin & Hp & Hl).
  destruct (showError_effect s) as (_ & _ & Ht & Hq & Hl').
  split; [|split; [|split]].
  - destruct Hq as [->|(id & _ & ->)]; [done|by apply wf_clearTimeout].
  - destruct Hq as [->|(id & Hid & ->)]; [done|].
    apply elem_of_clearTimeout. split; [|done]. intros E. apply Hl.
    by rewrite Hid, E.
  - by rewrite Ht.
  - destruct Hl' as [->| ->]; [done|exact Hl].
Qed.

(** What the controller must be like for [loadVideo] to reach [ready()]
    and for the reveal timer it arms to be the only one. *)
Definition ready_to_load (B : browser) (s : lightbox) (vimeoId : option string)
  : Prop :=
  furnished s ∧ wf (tq s) ∧ ids_known s
  ∧ (∀ u, u ∈ pending (tq s) → is_reveal (cb u) = false)
  ∧ is_Some (videoFrame (ses s))
  ∧ vimeoId ≠ Some "INVALID_VIDEO_ID_FOR_TESTING"%string
  ∧ constructor_throws B (fresh (ext s)) = false
  ∧ (∀ history h, settles B history h Ready ≠ ThrowsSync).

Lemma sample_ready_to_load :
  ready_to_load Samples.desktop Samples.idle (Some "123"%string).
Proof.
  unfold ready_to_load, furnished, ids_known. cbn.
  repeat split; try done; try (by eexists).
  - apply wf_empty.
  - intros u Hu. by apply elem_of_nil in Hu.
Qed.

(** After a [loadVideo] that reaches [ready()]: the controls are hidden,
    the placeholder is there, and the reveal is armed for [now + 300]. *)
Lemma loadVideo_arms B now vimeoId a s :
  ready_to_load B s vimeoId →
  let s1 := loadVideo B now vimeoId a s in
  ∃ mine, cb mine = CbShowControls ∧ due mine = now + 300
          ∧ armed mine s1
          ∧ (∀ u, u ∈ pending (tq s1) → is_reveal (cb u) = true → u = mine)
          ∧ furnished s1
          ∧ (length (pending (tq s1)) ≤ length (pending (tq s)) + 2)%nat.
Proof.
  intros ((He & Hc) & Hw & (Kp & Kl) & Hq & [f Hf] & Hid & Hctor & Hready).
  cbv zeta.
  destruct (loadVideo_reaches_ready B now vimeoId a s f Hf Hid Hctor Hready)
    as (s' & -> & (U & Q & T)).
  destruct (primed_effect now s) as (Pc & Pe & Pt & Pq).
  set (q0 := tq s') in *.
  assert (Hq0 : wf q0 ∧ (next_id (tq s) ≤ next_id q0)%nat
                ∧ (∀ u, u ∈ pending q0 → is_reveal (cb u) = false)
                ∧ (length (pending q0) ≤ length (pending (tq s)) + 1)%nat
                ∧ (∀ id, loadingTimeoutId (ui s') = Some id → (id < next_id q0)%nat)).
  { subst q0. rewrite Q, U. destruct Pq as [[-> ->]|[-> ->]].
    - split; [done|]. split; [done|]. split; [done|]. split; [lia|done].
    - split; [by apply (wf_setTimeout now CbRevealLoading 600)|].
      split; [simpl; lia|]. split.
      + intros u Hu. apply elem_of_setTimeout in Hu as [Hu| ->]; [by apply Hq|done].
      + split; [simpl; rewrite length_app; simpl; lia|].
        intros id [= <-]. simpl. lia. }
  destruct Hq0 as (Wq0 & Nq0 & Rq0 & Lq0 & Iq0).
  exists {| tid := next_id q0; due := now + Z.max 0 300; cb := CbShowControls |}.
  split; [done|]. split; [done|].
  unfold armed, forgotten, furnished.
  cbn [tq with_tq ui tst snd setTimeout pending tid].
  split; [|split; [|split]].
  - split; [by apply (wf_setTimeout now CbShowControls 300)|].
    split; [apply elem_of_app; right; by apply list_elem_of_singleton|].
    split.
    + rewrite T, Pt. intros E. specialize (Kp _ E). lia.
    + intros E. specialize (Iq0 _ E). lia.
  - intros u Hu Hr. apply elem_of_app in Hu as [Hu|Hu].
    + by rewrite (Rq0 u Hu) in Hr.
    + by apply list_elem_of_singleton in Hu.
  - rewrite U, Pc, Pe. split.
    + destruct He as [cl ->]. by eexists.
    + destruct Hc as [d ->]. by eexists.
  - rewrite length_app. simpl. lia.
Qed.

(** C7, as stated, fails: when [ready()] rejects 100 ms after [loadVideo],
    the controls are hidden then, and displayed again by the reveal timer
    300 ms after [loadVideo], with the error placeholder still shown. *)
Lemma early_rejection_counterexample :
  ¬ (∀ (B : browser) (s : lightbox) (vimeoId : option string) (a : bool)
       (now tr horizon : Z) (fuel : nat),
       ready_to_load B s vimeoId → now <= tr <= horizon →
       (length (pending (tq s)) + 2 ≤ fuel)%nat →
       controls_hidden
         (run fuel horizon
            (on_ready_rejected (run fuel tr (loadVideo B now vimeoId a s))))).
Proof.
  intros H.
  specialize (H Samples.desktop Samples.idle (Some "123"%string) true
                0 100 300 10%nat sample_ready_to_load).
  assert (E : controls (ui (run 10 300
                (on_ready_rejected
                   (run 10 100
                      (loadVideo Samples.desktop 0 (Some "123"%string) true
                         Samples.idle))))) = Some ""%string)
    by (vm_compute; reflexivity).
  unfold controls_hidden in H. rewrite E in H.
  assert (Hbad : Some ""%string = Some "none"%string).
  { apply H; [lia|]. simpl. lia. }
  discriminate Hbad.
Qed.

(** C7, amended.  For a [loadVideo] call that reaches [ready()], whose
    promise is rejected at time [tr]: at that moment the error placeholder
    is shown and the controls are hidden, and the placeholder stays shown.
    If the rejection comes 300 ms or more after the call, the controls stay
    hidden; if it comes earlier, the reveal timer that [loadVideo] armed
    displays the controls again 300 ms after the call. *)
Theorem rejected_ready_error_state (B : browser) (s : lightbox)
  (vimeoId : option string) (a : bool) (now tr horizon : Z) (fuel : nat) :
  ready_to_load B s vimeoId → now <= tr <= horizon →
  (length (pending (tq s)) + 2 ≤ fuel)%nat →
  let s1 := loadVideo B now vimeoId a s in
  let s2 := on_ready_rejected (run fuel tr s1) in
  let s3 := run fuel horizon s2 in
  error_shown s2 ∧ controls_hidden s2
  ∧ error_shown s3
  ∧ (now + 300 <= tr → controls_hidden s3)
  ∧ (tr < now + 300 → now + 300 <= horizon → controls_revealed s3).
Proof.
  intros Hr Ht Hfuel. cbv zeta.
  destruct (loadVideo_arms B now vimeoId a s Hr)
    as (mine & Hcb & Hdue & Harmed & Honly & [He Hc] & Hlen).
  set (s1 := loadVideo B now vimeoId a s) in *.
  set (s1r := run fuel tr s1).
  assert (He1 : is_Some (errorPlaceholder (ui s1r)))
    by (subst s1r; by rewrite run_error).
  assert (Hc1 : is_Some (controls (ui s1r)))
    by (subst s1r; by apply run_controls_present).
  unfold on_ready_rejected.
  destruct (showError_effect s1r) as (Se & Sc & St & Sq & Sl).
  assert (Hshown : error_shown (showError s1r)).
  { destruct He1 as [cl Hcl]. exists (cl ∪ {["active"]}).
    rewrite Se, Hcl. split; [done|]. set_solver. }
  assert (Hhidden : controls_hidden (showError s1r)).
  { destruct Hc1 as [d Hd]. unfold controls_hidden. by rewrite Sc, Hd. }
  split; [done|]. split; [done|]. split.
  { destruct Hshown as (cl & Hcl & Hact). exists cl. by rewrite run_error. }
  assert (Hl2 : (length (pending (tq (showError s1r))) ≤ fuel)%nat).
  { etransitivity; [|exact Hfuel]. etransitivity; [|exact Hlen].
    etransitivity; [|apply (run_shrinks tr fuel s1)].
    destruct Sq as [->|(id & _ & ->)]; [done|apply length_clearTimeout]. }
  split.
  - intros Hlate. apply run_quiet. split; [done|].
    intros u Hu. apply showError_pending in Hu.
    assert (Hdu : tr < due u).
    { eapply run_empties; [|exact Hu]. lia. }
    apply run_pending_subset in Hu.
    destruct (is_reveal (cb u)) eqn:Hrev; [|done].
    rewrite (Honly u Hu Hrev) in Hdu. lia.
  - intros Hearly Hh.
    apply (run_reveals mine Hcb); [lia|done| |].
    + apply showError_armed. apply run_armed; [lia|done].
    + destruct Hc1 as [d Hd]. rewrite Sc, Hd. by eexists.
Qed.

End ReadyFacts.

(** ** Preview tiles *)

Module PreviewFacts.
Import Timers Previews TimersFacts.

Lemma failed_mark (x : tile) : failed (mark_failed x) = true.
Proof. unfold failed. simpl. apply bool_decide_eq_true. set_solver. Qed.

Lemma failed_hideStaticImageOnMobile E now x :
  failed (hideStaticImageOnMobile E now x) = failed x.
Proof. done. Qed.

Section Tile.
Variable E : surroundings.

(** The failure class is never taken away by a callback. *)
Lemma on_timeout_keeps now x : failed x = true → failed (on_timeout E now x) = true.
Proof.
  intros Hf. unfold on_timeout. destruct (visible_at E now); [|done].
  by rewrite Hf.
Qed.

Lemma on_settle_keeps now fr x : failed x = true → failed (on_settle E now fr x) = true.
Proof.
  intros Hf. unfold on_settle. destruct (visible_at E now); [|done]. simpl.
  destruct (frame_size E fr now) as [w h].
  destruct (_ || _); [apply failed_mark|done].
Qed.

(** While the tile is hidden the two checks do nothing. *)
Lemma on_timeout_hidden now x : visible_at E now = false → on_timeout E now x = x.
Proof. intros Hv. unfold on_timeout. by rewrite Hv. Qed.

Lemma on_settle_hidden now fr x :
  visible_at E now = false → on_settle E now fr x = x.
Proof. intros Hv. unfold on_settle. by rewrite Hv. Qed.

(** A visible tile is failed after the failure check. *)
Lemma on_timeout_visible now x :
  visible_at E now = true → failed (on_timeout E now x) = true.
Proof.
  intros Hv. unfold on_timeout. rewrite Hv. simpl.
  destruct (failed x) eqn:Hf; [done|apply failed_mark].
Qed.

Lemma fire_queue tm w : snd (fire E tm w) = snd w.
Proof. unfold fire. by destruct (cb tm). Qed.

Lemma fire_keeps tm w : failed (fst w) = true → failed (fst (fire E tm w)) = true.
Proof.
  intros Hf. unfold fire. destruct (cb tm); try done; simpl.
  - by apply on_timeout_keeps.
  - by apply on_settle_keeps.
Qed.

Lemma tile_run_keeps (P : tile * queue → Prop) (horizon : Z) (fuel : nat) w :
  (∀ tm w, P w → tm ∈ pending (snd w) → due tm <= horizon →
           P (fire E tm (fst w, clearTimeout (tid tm) (snd w)))) →
  P w → P (run E fuel horizon w).
Proof.
  intros Hstep Hw. unfold run.
  by apply (run_invariant snd (λ q' w, (fst w, q')) (fire E)).
Qed.

Lemma tile_run_empties (horizon : Z) (fuel : nat) w u :
  (length (pending (snd w)) ≤ fuel)%nat →
  u ∈ pending (snd (run E fuel horizon w)) → horizon < due u.
Proof.
  intros Hf Hu. eapply pop_due_none; [|exact Hu]. unfold run.
  apply (run_drains snd (λ q' w, (fst w, q')) (fire E)); [done| |done].
  intros tm w'. by rewrite fire_queue.
Qed.

(** The check armed by [createLoopVideoIframe] runs when it is due. *)
Lemma run_checks (mine : timer) (horizon : Z) (fuel : nat) w :
  cb mine = CbPreviewTimeout → visible_at E (due mine) = true →
  wf (snd w) → mine ∈ pending (snd w) →
  due mine <= horizon → (length (pending (snd w)) ≤ fuel)%nat →
  failed (fst (run E fuel horizon w)) = true.
Proof.
  intros Hcb Hvis Hw Hin Hdue Hfuel.
  assert (H : (λ w, wf (snd w)
                    ∧ (mine ∈ pending (snd w) ∨ failed (fst w) = true))
                (run E fuel horizon w)).
  { apply tile_run_keeps; [|by split; [|left]].
    intros tm w' [Hw' Hcase] Htm _. rewrite fire_queue. simpl.
    split; [by apply wf_clearTimeout|].
    destruct Hcase as [Hm|Hf]; [|right; by apply fire_keeps].
    destruct (decide (tid tm = tid mine)) as [Eq|Hne].
    - assert (tm = mine) by by apply (wf_tid_inj (snd w')). subst tm.
      right. unfold fire. rewrite Hcb. simpl. by apply on_timeout_visible.
    - left. apply elem_of_clearTimeout. by split. }
  destruct H as [_ [Hm|Hf]]; [|done].
  pose proof (tile_run_empties horizon fuel w mine Hfuel Hm). lia.
Qed.

(** Before it is due, and with no [load] event, the check stays pending. *)
Lemma run_pending (mine : timer) (horizon : Z) (fuel : nat) w :
  horizon < due mine → wf (snd w) → mine ∈ pending (snd w) →
  mine ∈ pending (snd (run E fuel horizon w)).
Proof.
  intros Hh Hw Hin.
  assert (H : (λ w, wf (snd w) ∧ mine ∈ pending (snd w)) (run E fuel horizon w)).
  { apply tile_run_keeps; [|by split].
    intros tm w' [Hw' Hm] Htm Hdue. rewrite fire_queue. simpl.
    split; [by apply wf_clearTimeout|].
    apply elem_of_clearTimeout. split; [|done]. intros Eq.
    assert (tm = mine) by by apply (wf_tid_inj (snd w')). subst tm. lia. }
  by destruct H.
Qed.

(** A tile that is never visible is not marked by timers, [load] events or
    re-initialisation. *)
Definition no_error (events : list (Z * happening)) : Prop :=
  ∀ t fr, (t, IframeError fr) ∉ events.

Lemma run_hidden (horizon : Z) (fuel : nat) w :
  (∀ t, visible_at E t = false) →
  failed (fst w) = false → failed (fst (run E fuel horizon w)) = false.
Proof.
  intros Hv. apply (tile_run_keeps (λ w, failed (fst w) = false)).
  intros tm w' Hf _ _. unfold fire. destruct (cb tm); try done; simpl.
  - by rewrite on_timeout_hidden.
  - by rewrite on_settle_hidden.
Qed.

Lemma happen_hidden now e w :
  (∀ fr, e ≠ IframeError fr) →
  failed (fst w) = false → failed (fst (happen now e w)) = false.
Proof.
  intros He Hf. destruct e as [fr|fr|id]; simpl.
  - destruct (find_frame fr (fst w)); [|done]. by unfold on_load.
  - by destruct (He fr).
  - unfold reinitialize, createLoopVideoIframe.
    by destruct (Embed.loop_id_usable id).
Qed.

Lemma play_hidden (events : list (Z * happening)) (horizon : Z) w :
  (∀ t, visible_at E t = false) → no_error events →
  failed (fst w) = false → failed (fst (play E events horizon w)) = false.
Proof.
  intros Hv. revert w. induction events as [|[t e] rest IH]; intros w Hne Hf; simpl.
  - by apply run_hidden.
  - apply IH.
    + intros t' fr Hin. apply (Hne t' fr). apply elem_of_cons. by right.
    + apply happen_hidden; [|by apply run_hidden].
      intros fr ->. apply (Hne t fr). apply elem_of_cons. by left.
Qed.

End Tile.

Lemma below_fold_hidden t : visible_at Samples.below_fold t = false.
Proof. reflexivity. Qed.

Lemma on_screen_visible t : visible_at Samples.on_screen t = true.
Proof. reflexivity. Qed.

(** C8, as stated, fails: a tile that is never visible is still marked
    failed when its iframe fires an [error] event. *)
Lemma hidden_tile_counterexample :
  ¬ (∀ (E : surroundings) (events : list (Z * happening)) (horizon now : Z)
       (thumbnailId : option string) (x : tile) (q : queue),
       (∀ t, visible_at E t = false) → failed x = false →
       failed (fst (play E events horizon
                      (createLoopVideoIframe now thumbnailId x q))) = false).
Proof.
  intros H.
  specialize (H Samples.below_fold [(100, IframeError 0)] 6000 0
                (Some "456"%string) Samples.bare_tile Timers.empty
                below_fold_hidden eq_refl).
  vm_compute in H. discriminate H.
Qed.

(** C8, amended.  [createLoopVideoIframe] with a usable id arms the failure
    check for 5000 ms after the creation, and with no [load] event the check
    stays pending until then.  If the tile is visible at that moment it has
    the [video-failed] class from then on; if it is hidden the check leaves
    the tile as it is.  A tile that is never visible is not marked failed by
    the check, by the check that follows a [load] event or by
    re-initialisation: only an [error] event of an iframe marks it,
    whatever the visibility. *)
Theorem preview_failure_timer (E : surroundings) (now : Z)
  (thumbnailId : option string) (id : string) (x : tile) (q : queue) :
  Embed.loop_id_usable thumbnailId = Some id → wf q →
  let w := createLoopVideoIframe now thumbnailId x q in
  (∃ mine f, mine ∈ pending (snd w) ∧ cb mine = CbPreviewTimeout
             ∧ due mine = now + 5000
             ∧ f ∈ frames (fst w) ∧ errorTimeout f = tid mine
             ∧ ∀ fuel horizon, horizon < now + 5000 →
                 mine ∈ pending (snd (run E fuel horizon w)))
  ∧ (visible_at E (now + 5000) = true →
     ∀ fuel horizon, now + 5000 <= horizon →
       (length (pending (snd w)) ≤ fuel)%nat →
       failed (fst (run E fuel horizon w)) = true)
  ∧ (∀ t y, visible_at E t = false → on_timeout E t y = y)
  ∧ ((∀ t, visible_at E t = false) → failed x = false →
     ∀ events horizon, no_error events →
       failed (fst (play E events horizon w)) = false)
  ∧ (∀ y, failed (on_error y) = true).
Proof.
  intros Hid Hw. cbv zeta.
  set (mine := {| tid := next_id q; due := now + Z.max 0 5000;
                  cb := CbPreviewTimeout |}).
  set (f := {| fid := next_fid x; psrc := Embed.loop_src id;
               errorTimeout := next_id q |}).
  assert (Hwq : createLoopVideoIframe now thumbnailId x q
    = ({| classList := classList x; has_img := has_img x;
          frames := if has_img x then f :: frames x else frames x ++ [f];
          cover := cover x; next_fid := S (next_fid x) |},
       snd (setTimeout now CbPreviewTimeout 5000 q))).
  { unfold createLoopVideoIframe. by rewrite Hid. }
  rewrite Hwq. cbn [fst snd].
  assert (Hwf : wf (snd (setTimeout now CbPreviewTimeout 5000 q)))
    by by apply wf_setTimeout.
  assert (Hin : mine ∈ pending (snd (setTimeout now CbPreviewTimeout 5000 q))).
  { apply elem_of_setTimeout. by right. }
  split; [|split; [|split; [|split]]].
  - exists mine, f. split; [done|]. split; [done|]. split; [done|]. split.
    { cbn [frames]. destruct (has_img x).
      - apply elem_of_cons. by left.
      - apply elem_of_app. right. by apply list_elem_of_singleton. }
    split; [done|]. intros fuel horizon Hh.
    apply (run_pending E mine); [simpl; lia|done..].
  - intros Hvis fuel horizon Hh Hfuel.
    apply (run_checks E mine); [done|done|done|done|simpl; lia|done].
  - intros t y. apply on_timeout_hidden.
  - intros Hv Hf events horizon Hne. by apply play_hidden.
  - intros y. apply failed_mark.
Qed.

End PreviewFacts.

(** * Start-up: the retries and the mutation observer *)
Module GateFacts.
Import Timers TimersFacts Gate.

Lemma timers_with_timers q g : timers (with_timers q g) = q.
Proof. done. Qed.

Section Watch.
Variable Wd : world.

Lemma observers_initLightbox now g :
  observers (initLightbox Wd now g) = observers g.
Proof.
  unfold initLightbox.
  by repeat match goal with |- context [if ?b then _ else _] => destruct b end.
Qed.

Lemma observers_tryInitLightbox now g :
  observers (tryInitLightbox Wd now g) = observers g.
Proof.
  unfold tryInitLightbox.
  destruct (markup_ready _); [by rewrite observers_initLightbox|].
  by destruct (_ <? _)%nat.
Qed.

Lemma observers_fire tm g :
  observers g = [] → observers (fire Wd tm g) = [].
Proof.
  intros Ho. unfold fire. destruct (cb tm); try done.
  - by rewrite observers_tryInitLightbox.
  - by rewrite observers_initLightbox.
  - simpl. by rewrite Ho.
Qed.

Lemma mutation_unobserved now g : observers g = [] → mutation Wd now g = g.
Proof. unfold mutation. by intros ->. Qed.

(** [observeDOMForLightbox] is declared and never called: no start-up path
    connects an observer. *)
Lemma never_observes fuel start mutations horizon :
  observers (script Wd fuel start mutations horizon) = [].
Proof.
  unfold script.
  assert (H0 : observers (tryInitLightbox Wd start booted) = [])
    by by rewrite observers_tryInitLightbox.
  revert H0. generalize (tryInitLightbox Wd start booted).
  induction mutations as [|t rest IH]; intros g Hg; simpl.
  - apply (run_invariant timers with_timers (fire Wd) (λ g, observers g = []));
      [|done].
    intros tm w Hw _ _. by apply observers_fire.
  - apply IH.
    assert (Hr : observers (run Wd fuel t g) = []).
    { apply (run_invariant timers with_timers (fire Wd) (λ g, observers g = []));
        [|done].
      intros tm w Hw _ _. by apply observers_fire. }
    by rewrite mutation_unobserved.
Qed.

Variable start : Z.
Hypothesis absent : ∀ k, (k < maxAttempts)%nat →
  markup_ready (document_at Wd (start + 500 * Z.of_nat k)) = false.

(** The state while the retries of [tryInitLightbox] go on, and after the
    last of them. *)
Definition retrying (g : gate) : Prop :=
  observers g = [] ∧ instances g = 0%nat
  ∧ (pending (timers g) = []
     ∨ ∃ tm k, pending (timers g) = [tm] ∧ cb tm = CbTryInitLightbox
               ∧ (k < maxAttempts)%nat ∧ initAttempts g = k
               ∧ due tm = start + 500 * Z.of_nat k).

Lemma retrying_tryInitLightbox k g :
  (k < maxAttempts)%nat → observers g = [] → instances g = 0%nat →
  pending (timers g) = [] → initAttempts g = k →
  retrying (tryInitLightbox Wd (start + 500 * Z.of_nat k) g).
Proof.
  intros Hk Ho Hi Hp Ha. unfold tryInitLightbox.
  rewrite (absent k Hk). cbn [initAttempts]. rewrite Ha.
  destruct (S k <? maxAttempts)%nat eqn:Hlt.
  - apply Nat.ltb_lt in Hlt. split; [done|]. split; [done|]. right.
    eexists _, (S k). unfold later. cbn. rewrite Hp. cbn.
    split; [done|]. split; [done|]. split; [done|]. split; [done|].
    simpl. lia.
  - split; [done|]. split; [done|]. by left.
Qed.

Lemma retrying_fire tm g :
  retrying g → tm ∈ pending (timers g) →
  retrying (fire Wd tm (with_timers (clearTimeout (tid tm) (timers g)) g)).
Proof.
  intros (Ho & Hi & [Hp|(tm0 & k & Hp & Hcb & Hk & Ha & Hd)]) Hin;
    rewrite Hp in Hin.
  { by apply elem_of_nil in Hin. }
  apply list_elem_of_singleton in Hin as ->.
  unfold fire. rewrite Hcb, Hd.
  apply retrying_tryInitLightbox; try done.
  cbn. rewrite Hp. by rewrite filter_cons_False, filter_nil by (by intros H).
Qed.

Lemma retrying_run fuel horizon g : retrying g → retrying (run Wd fuel horizon g).
Proof.
  apply (run_invariant timers with_timers (fire Wd) retrying).
  intros tm w Hw Hin _. by apply retrying_fire.
Qed.

Lemma retrying_live_through fuel mutations horizon g :
  retrying g → retrying (live_through Wd fuel mutations horizon g).
Proof.
  revert g. induction mutations as [|t rest IH]; intros g Hg; simpl.
  - by apply retrying_run.
  - apply IH. pose proof (retrying_run fuel t g Hg) as Hr.
    rewrite mutation_unobserved; [done|]. apply Hr.
Qed.

Lemma retrying_script fuel mutations horizon :
  retrying (script Wd fuel start mutations horizon).
Proof.
  apply retrying_live_through.
  replace start with (start + 500 * Z.of_nat 0) at 1 by (simpl; lia).
  apply retrying_tryInitLightbox; try done. unfold maxAttempts. lia.
Qed.

End Watch.

(** Had [observeDOMForLightbox] been called, the first mutation after the
    markup is complete would disconnect the observer and activate the
    lightbox. *)
Lemma observer_if_connected (Wd : world) (now t : Z) (g : gate) :
  observers g = [] → vimeo_defined Wd t = true →
  markup_ready (document_at Wd t) = true →
  let g' := mutation Wd t (observeDOMForLightbox now g) in
  instances g' = S (instances g) ∧ observers g' = [].
Proof.
  intros Ho Hv Hm. cbv zeta.
  unfold mutation, observeDOMForLightbox, later. cbn. rewrite Ho. cbn.
  unfold observer_callback. rewrite Hm. unfold initLightbox. rewrite Hv.
  apply andb_prop in Hm as [-> _]. cbn.
  by rewrite decide_False by (by intros H).
Qed.

(** The run on the sample document: ten attempts, the error message, and
    nothing left to run when the markup arrives. *)
Lemma late_markup_run :
  let g := script Samples.late_world 20 0 [6000] 20000 in
  initAttempts g = 10%nat
  ∧ errors g = ["Failed to initialize lightbox. Check HTML structure."%string]
  ∧ pending (timers g) = [] ∧ instances g = 0%nat.
Proof. vm_compute. done. Qed.

(** C9, refuted by the code: whatever the document does, no mutation
    observer is ever connected and no 10 s cut-off is armed, and when the
    markup is absent at each of the ten attempts of [tryInitLightbox]
    (500 ms apart from [start]) the lightbox is never activated, however
    the document changes afterwards. *)
Theorem late_markup_is_missed (Wd : world) (fuel : nat) (start : Z)
  (mutations : list Z) (horizon : Z) :
  (∀ k, (k < maxAttempts)%nat →
        markup_ready (document_at Wd (start + 500 * Z.of_nat k)) = false) →
  let g := script Wd fuel start mutations horizon in
  observers g = [] ∧ instances g = 0%nat
  ∧ ∀ tm, tm ∈ pending (timers g) → cb tm = CbTryInitLightbox.
Proof.
  intros Habs. cbv zeta.
  destruct (retrying_script Wd start Habs fuel mutations horizon)
    as (Ho & Hi & Hp).
  split; [done|]. split; [done|]. intros tm Hin.
  destruct Hp as [Hp|(tm0 & k & Hp & Hcb & _)]; rewrite Hp in Hin.
  - by apply elem_of_nil in Hin.
  - by apply list_elem_of_singleton in Hin as ->.
Qed.

End GateFacts.

(** * The theorems at the sample inputs *)
Module Examples.
Import JsNum Timers Lightbox.

(** A toast shown for 1000 ms at time 10 is still on screen after a
    [hideCenterToast] at 510 and is off at 1010. *)
Lemma toast_lock_window_witness :
  Toast.shown (fst (Toast.hides_then 1 [510] 510 (fst Samples.toast_at_10)
                      (snd Samples.toast_at_10))) = true
  ∧ Toast.shown (fst (Toast.hides_then 1 [] 1010 (fst Samples.toast_at_10)
                        (snd Samples.toast_at_10))) = false.
Proof.
  unfold Samples.toast_at_10.
  destruct (ToastFacts.toast_lock_window Samples.quiet_toast Timers.empty _
              "Paused" 10 1000 eq_refl TimersFacts.wf_empty eq_refl
              ltac:(discriminate)) as (_ & _ & _ & H).
  split.
  - rewrite H; [reflexivity|simpl; lia|].
    apply Forall_cons. split; [lia|apply Forall_nil_2].
  - rewrite H; [reflexivity|simpl; lia|apply Forall_nil_2].
Defined.

(** On the sample track the fraction is clamped, and a click, a drag and a
    hover at its middle, on a video of two minutes, use the same fraction,
    one half. *)
Lemma pointer_fraction_is_clamp_witness :
  (0 < width Samples.track)%Q
  ∧ in_unit (click_percentage 300 Samples.track)
  ∧ click_percentage 50 Samples.track = of_Z 0
  ∧ click_percentage 600 Samples.track = of_Z 1
  ∧ ∃ p, (p == 1 # 2)%Q
      ∧ log (ext (state_of (handleTimelineClick Samples.desktop 300 Samples.watching)))
        = log (ext Samples.watching) ++ [(0%nat, SetCurrentTime (Fin (p * 120)))]
      ∧ log (ext (state_of (handleTimelineDrag Samples.desktop 300 Samples.watching)))
        = log (ext Samples.watching) ++ [(0%nat, SetCurrentTime (Fin (p * 120)))]
      ∧ (h_text <$> timelineHoverTime
                     (tl (state_of (handleTimelineHover 300 Samples.watching))))
        = Some (formatTime (Fin (p * 120))).
Proof.
  split; [reflexivity|].
  destruct (TimelineFacts.pointer_fraction_is_clamp Samples.track eq_refl)
    as (_ & Hin & _ & Hlo & Hhi & Huse).
  split; [apply Hin|]. split; [apply Hlo; reflexivity|].
  split; [apply Hhi; reflexivity|].
  destruct (Huse 300%Q) as (p & Hp & Hu).
  exists p. split; [rewrite Hp; reflexivity|].
  destruct (Hu Samples.desktop Samples.watching 120%Q eq_refl
              ltac:(discriminate) eq_refl) as [Hseek Hhover].
  pose proof (Hseek 0%nat eq_refl) as H. cbv zeta in H.
  destruct H as (Hc & Hd & _).
  split; [exact Hc|]. split; [exact Hd|].
  apply Hhover; by eexists.
Defined.

Lemma embed_queries_exact_witness :
  (∃ f, f ∈ Previews.frames
              (fst (Previews.createLoopVideoIframe 0 (Some "456"%string)
                      Samples.bare_tile Timers.empty))
        ∧ JsString.url_query (Previews.psrc f)
          = Some "background=1&autoplay=1&loop=1&muted=1&controls=0&title=0&byline=0&portrait=0&playsinline=1"%string)
  ∧ (∃ f, videoFrame (ses (loadVideo Samples.phone 0 (Some "123"%string) false
                             Samples.idle)) = Some f
          ∧ JsString.url_query (src f)
            = Some "background=1&autoplay=0&muted=0&controls=0&dnt=1&transparent=0&playsinline=1"%string)
  ∧ (∃ f, videoFrame (ses (loadVideo Samples.desktop 0 (Some "123"%string) true
                             Samples.idle)) = Some f
          ∧ JsString.url_query (src f)
            = Some "autoplay=0&muted=0&controls=0&dnt=1&transparent=0&playsinline=1"%string).
Proof.
  destruct LightboxFacts.embed_queries_exact as [Hpreview Hmain].
  split; [|split].
  - destruct (Hpreview 0 (Some "456"%string) Samples.bare_tile Timers.empty
                "456"%string eq_refl (conj eq_refl eq_refl))
      as (f & Hin & _ & _ & Hq).
    exists f. split; [exact Hin|exact Hq].
  - destruct (Hmain Samples.phone 0 (Some "123"%string) false Samples.idle _
                eq_refl ltac:(discriminate) (conj eq_refl eq_refl))
      as (f & Hf & Hq).
    exists f. split; [exact Hf|exact Hq].
  - destruct (Hmain Samples.desktop 0 (Some "123"%string) true Samples.idle _
                eq_refl ltac:(discriminate) (conj eq_refl eq_refl))
      as (f & Hf & Hq).
    exists f. split; [exact Hf|exact Hq].
Defined.

(** On a phone with the hint on screen: a tap on the paused video unmutes
    and plays and leaves the toast to its timer; a tap while the video plays
    muted requests no pause. *)
Lemma togglePlayPause_branches_witness :
  currentPlayer (ses Samples.hinted_on_phone) = Some 0%nat
  ∧ (let s' := state_of (togglePlayPause Samples.phone 500 Samples.hinted_on_phone) in
     log (ext s')
     = log (ext Samples.hinted_on_phone)
       ++ [(0%nat, SetMuted false); (0%nat, SetVolume (of_Z 1))] ++ [(0%nat, Play)]
     ∧ isMuted (ses s') = false
     ∧ tst s' = tst Samples.hinted_on_phone)
  ∧ ∃ made,
      log (ext (state_of (togglePlayPause Samples.phone 900 Samples.watching_on_phone)))
      = log (ext Samples.watching_on_phone) ++ made
      ∧ ∀ k, (k, Pause) ∉ made.
Proof.
  split; [reflexivity|]. split.
  - pose proof (ToggleFacts.togglePlayPause_branches Samples.phone 0 500
                  Samples.hinted_on_phone eq_refl) as H.
    cbv zeta in H. destruct H as (_ & _ & H & _).
    destruct (H eq_refl eq_refl) as (_ & Hok & _).
    destruct (Hok eq_refl eq_refl eq_refl) as (Hlog & Hm & _ & _ & _ & Hlock & _).
    cbv zeta. split; [exact Hlog|]. split; [exact Hm|].
    apply Hlock. split; [discriminate|reflexivity].
  - pose proof (ToggleFacts.togglePlayPause_branches Samples.phone 0 900
                  Samples.watching_on_phone eq_refl) as H.
    cbv zeta in H. destruct H as (H & _).
    destruct (H eq_refl eq_refl) as (_ & Hmade & _). exact Hmade.
Defined.

(** Two open-then-close cycles on a desktop browser leave no handle. *)
Lemma one_handle_when_paired_witness :
  paired false Samples.two_cycles = true
  ∧ live (ext (serve_all Samples.desktop Samples.idle Samples.two_cycles)) = ∅
  ∧ currentPlayer (ses (serve_all Samples.desktop Samples.idle Samples.two_cycles))
    = None.
Proof.
  split; [reflexivity|].
  destruct (HandleFacts.one_handle_when_paired Samples.desktop Samples.idle
              Samples.two_cycles
              (λ _ _, ltac:(discriminate)) eq_refl eq_refl eq_refl
              Samples.two_cycles [] eq_refl) as (_ & _ & _ & H).
  apply (H 3000 [OpenLightbox 0 (Some Samples.demo_tile); CloseLightbox 1000;
                 OpenLightbox 2000 (Some Samples.demo_tile)]).
  reflexivity.
Defined.

(** A rejection 500 ms after the call: the error state holds and lasts. *)
Lemma rejected_ready_error_state_witness :
  ReadyFacts.ready_to_load Samples.desktop Samples.idle (Some "123"%string)
  ∧ ReadyFacts.error_shown
      (on_ready_rejected
         (run 5 500 (loadVideo Samples.desktop 0 (Some "123"%string) true Samples.idle)))
  ∧ ReadyFacts.controls_hidden
      (run 5 1000
         (on_ready_rejected
            (run 5 500 (loadVideo Samples.desktop 0 (Some "123"%string) true
                          Samples.idle)))).
Proof.
  split; [exact ReadyFacts.sample_ready_to_load|].
  destruct (ReadyFacts.rejected_ready_error_state Samples.desktop Samples.idle
              (Some "123"%string) true 0 500 1000 5
              ReadyFacts.sample_ready_to_load
              ltac:(lia) ltac:(simpl; lia)) as (H2 & _ & _ & H3 & _).
  split; [exact H2|]. apply H3. lia.
Defined.

(** Before any player exists a click changes nothing, and a mouse press
    on the timeline sets the drag flag without a seek. *)
Lemma timeline_guards_witness :
  currentPlayer (ses Samples.idle) = None
  ∧ handleTimelineClick Samples.desktop 300 Samples.idle = Done Samples.idle
  ∧ handleTimelineDrag Samples.desktop 300 Samples.idle = Done Samples.idle
  ∧ handleTimelineHover 300 Samples.idle = Done Samples.idle
  ∧ ext (Pointer.deliver Samples.desktop Samples.idle
           (Pointer.ContainerMouseDown (Samples.mouse_at 300)))
    = ext Samples.idle
  ∧ isDragging (ses (Pointer.deliver Samples.desktop Samples.idle
                       (Pointer.ContainerMouseDown (Samples.mouse_at 300))))
    = true.
Proof.
  split; [reflexivity|].
  destruct (TimelineFacts.timeline_guards Samples.desktop Samples.idle)
    as (Hg & Hh & _).
  destruct (Hg (or_introl eq_refl)) as [Hcd Hev].
  destruct (Hcd 300%Q) as [Hc Hd].
  split; [exact Hc|]. split; [exact Hd|].
  split; [apply Hh; right; reflexivity|].
  pose proof (Hev (Pointer.ContainerMouseDown (Samples.mouse_at 300))) as H.
  cbv zeta in H. destruct H as (He & _ & _ & Hp & _).
  split; [exact He|exact Hp].
Defined.

(** A visible tile whose iframe stays silent is marked failed at 5000 ms. *)
Lemma preview_failure_timer_witness :
  Previews.visible_at Samples.on_screen 5000 = true
  ∧ Previews.failed
      (fst (Previews.run Samples.on_screen 1 5000
              (Previews.createLoopVideoIframe 0 (Some "456"%string)
                 Samples.bare_tile Timers.empty))) = true.
Proof.
  split; [reflexivity|].
  destruct (PreviewFacts.preview_failure_timer Samples.on_screen 0
              (Some "456"%string) "456"%string Samples.bare_tile Timers.empty
              eq_refl TimersFacts.wf_empty) as (_ & H & _).
  apply H; [reflexivity|lia|simpl; lia].
Defined.

(** Markup inserted at 6 s, after the ten attempts: present from then on,
    never picked up. *)
Lemma late_markup_is_missed_witness :
  Gate.markup_ready (Gate.document_at Samples.late_world 6000) = true
  ∧ Gate.observers (Gate.script Samples.late_world 20 0 [6000] 20000) = []
  ∧ Gate.instances (Gate.script Samples.late_world 20 0 [6000] 20000) = 0%nat.
Proof.
  split; [reflexivity|].
  assert (Habs : ∀ k, (k < Gate.maxAttempts)%nat →
            Gate.markup_ready
              (Gate.document_at Samples.late_world (0 + 500 * Z.of_nat k)) = false).
  { intros k Hk. unfold Gate.maxAttempts in Hk.
    do 10 (destruct k as [|k]; [reflexivity|]). lia. }
  destruct (GateFacts.late_markup_is_missed Samples.late_world 20 0 [6000] 20000
              Habs) as (Ho & Hi & _).
  split; [exact Ho|exact Hi].
Defined.

End Examples.

(* ===================================================================== *)
(** * Part III.  Further properties of the code                          *)
(* ===================================================================== *)

(** ** [formatTime] *)

Module FormatFacts.
Import JsNum Lightbox.

Lemma Qfloor_spec (q : Q) (z : Z) :
  (inject_Z z <= q)%Q → (q < inject_Z (z + 1))%Q → Qfloor q = z.
Proof.
  intros Hlo Hhi.
  pose proof (Qfloor_le q) as H1. pose proof (Qlt_floor q) as H2.
  assert (A : (inject_Z z < inject_Z (Qfloor q + 1))%Q) by lra.
  assert (B : (inject_Z (Qfloor q) < inject_Z (z + 1))%Q) by lra.
  rewrite <- Zlt_Qlt in A, B. lia.
Qed.

Lemma Qfloor_div60 (q : Q) : Qfloor (q / inject_Z 60) = Qfloor q / 60.
Proof.
  pose proof (Qfloor_le q) as H1. pose proof (Qlt_floor q) as H2.
  pose proof (Z.div_mod (Qfloor q) 60 ltac:(lia)) as Hdm.
  pose proof (Z.mod_pos_bound (Qfloor q) 60 ltac:(lia)) as Hm.
  set (k := Qfloor q / 60) in *. set (r := Qfloor q mod 60) in *.
  assert (E : (inject_Z (Qfloor q) == 60 * inject_Z k + inject_Z r)%Q).
  { rewrite Hdm, inject_Z_plus, inject_Z_mult. reflexivity. }
  assert (Hr0 : (inject_Z 0 <= inject_Z r)%Q) by (rewrite <- Zle_Qle; lia).
  assert (Hr1 : (inject_Z r <= inject_Z 59)%Q) by (rewrite <- Zle_Qle; lia).
  change (inject_Z 0) with 0%Q in Hr0. change (inject_Z 59) with 59%Q in Hr1.
  assert (F : (inject_Z (Qfloor q + 1) == inject_Z (Qfloor q) + 1)%Q)
    by (rewrite inject_Z_plus; reflexivity).
  assert (G : (inject_Z (k + 1) == inject_Z k + 1)%Q)
    by (rewrite inject_Z_plus; reflexivity).
  apply Qfloor_spec.
  - apply Qle_shift_div_l; [reflexivity|]. change (inject_Z 60) with 60%Q. lra.
  - apply Qlt_shift_div_r; [reflexivity|]. change (inject_Z 60) with 60%Q. lra.
Qed.

Lemma Qfloor_minus_Z (q : Q) (m : Z) : Qfloor (q - inject_Z m) = Qfloor q - m.
Proof.
  pose proof (Qfloor_le q) as H1. pose proof (Qlt_floor q) as H2.
  assert (F : (inject_Z (Qfloor q + 1) == inject_Z (Qfloor q) + 1)%Q)
    by (rewrite inject_Z_plus; reflexivity).
  apply Qfloor_spec.
  - unfold Z.sub. rewrite inject_Z_plus, inject_Z_opp. lra.
  - replace (Qfloor q - m + 1) with (Qfloor q + 1 + - m) by lia.
    rewrite inject_Z_plus, inject_Z_opp. lra.
Qed.

Lemma two_digits_nat (n : nat) :
  (n < 60)%nat → String.length (padStart2 (int_text (Z.of_nat n))) = 2%nat.
Proof. intros Hn. do 60 (destruct n as [|n]; [reflexivity|]). lia. Qed.

Lemma two_digits (z : Z) :
  0 <= z < 60 → String.length (padStart2 (int_text z)) = 2%nat.
Proof.
  intros Hz. rewrite <- (Z2Nat.id z) by lia. apply two_digits_nat. lia.
Qed.

(** X1.  [formatTime] of a finite, non-negative number of seconds (below
    10^21, where numbers print in plain decimal) prints the whole minutes,
    a colon and the remaining whole seconds: the minutes are
    [floor(seconds) / 60], not reduced to hours, and the seconds are
    [floor(seconds) mod 60], always written with two digits. *)
Theorem formatTime_minutes_seconds (q : Q) :
  (0 <= q)%Q → (q < inject_Z (10 ^ 21))%Q →
  formatTime (Fin q)
  = int_text (Qfloor q / 60) +:+ ":" +:+ padStart2 (int_text (Qfloor q mod 60))
  ∧ String.length (padStart2 (int_text (Qfloor q mod 60))) = 2%nat.
Proof.
  intros Hq _. split.
  - unfold formatTime, div, rem, of_Z.
    change (Qis_zero (inject_Z 60)) with false. cbv iota.
    unfold floor, to_text, of_Z. rewrite !Qfloor_Z, Qfloor_div60.
    assert (Ht : Qtrunc (q / inject_Z 60) = Qfloor q / 60).
    { unfold Qtrunc. destruct (Qlt_le_dec (q / inject_Z 60) 0) as [Hneg|_].
      - exfalso. apply (Qlt_not_le _ _ Hneg).
        apply Qle_shift_div_l; [reflexivity|]. lra.
      - apply Qfloor_div60. }
    rewrite Ht.
    assert (Hs : Qfloor (q - inject_Z 60 * inject_Z (Qfloor q / 60))
                 = Qfloor q mod 60).
    { rewrite <- inject_Z_mult, Qfloor_minus_Z. rewrite Z.mod_eq by lia. lia. }
    by rewrite Hs.
  - apply two_digits. apply Z.mod_pos_bound. lia.
Qed.

End FormatFacts.

(** ** [isElementVisible] *)

Module VisibleFacts.
Import Previews.

(** The element is painted: not [display: none], not [visibility: hidden],
    not fully transparent. *)
Definition painted (e : box) : Prop :=
  display e ≠ "none"%string ∧ visibility e ≠ "hidden"%string
  ∧ ¬ (opacity e == 0)%Q.

(** The box is a rectangle: its right and bottom edges are where its width
    and height put them, as in a [DOMRect]. *)
Definition rectangle (e : box) : Prop :=
  (b_right e == b_left e + b_width e)%Q ∧ (b_bottom e == b_top e + b_height e)%Q.

Definition view_width (win : viewport) : Q := num_or (innerWidth win) (clientWidth win).
Definition view_height (win : viewport) : Q := num_or (innerHeight win) (clientHeight win).

(** Some point lies both in the box and in the viewport, edges included. *)
Definition meets (e : box) (win : viewport) : Prop :=
  ∃ x y : Q,
    (b_left e <= x <= b_right e)%Q ∧ (b_top e <= y <= b_bottom e)%Q
    ∧ (0 <= x <= view_width win)%Q ∧ (0 <= y <= view_height win)%Q.

Lemma Qlt_bool_iff (a b : Q) : Qlt_bool a b = true ↔ (a < b)%Q.
Proof.
  unfold Qlt_bool. rewrite negb_true_iff. split.
  - intros H. apply Qnot_le_lt. intros Hle. apply Qle_bool_iff in Hle. congruence.
  - intros H. destruct (Qle_bool b a) eqn:E; [|done].
    apply Qle_bool_iff in E. exfalso. by apply (Qlt_not_le _ _ H).
Qed.

Lemma styled_out (e : box) :
  String.eqb (display e) "none" || String.eqb (visibility e) "hidden"
  || Qeq_bool (opacity e) 0 = false ↔ painted e.
Proof.
  unfold painted. rewrite !orb_false_iff, !String.eqb_neq.
  split.
  - intros [[H1 H2] H3]. split; [done|]. split; [done|].
    intros E. apply Qeq_bool_iff in E. congruence.
  - intros (H1 & H2 & H3). split; [done|].
    destruct (Qeq_bool (opacity e) 0) eqn:E; [|done].
    apply Qeq_bool_iff in E. done.
Qed.

(** X2.  [isElementVisible] on an element whose box is a rectangle, in a
    viewport of non-negative size: it answers true exactly when the element
    is painted, has a positive width and height, and its box and the
    viewport have a point in common, edges included. *)
Theorem isElementVisible_meets (e : box) (win : viewport) :
  rectangle e → (0 <= view_width win)%Q → (0 <= view_height win)%Q →
  isElementVisible (Some e) win = true
  ↔ painted e ∧ (0 < b_width e)%Q ∧ (0 < b_height e)%Q ∧ meets e win.
Proof.
  intros [Hr Hb] HW HH. unfold isElementVisible.
  destruct (String.eqb (display e) "none" || String.eqb (visibility e) "hidden"
            || Qeq_bool (opacity e) 0) eqn:Hs.
  - split; [done|]. intros (Hp & _). apply styled_out in Hp. congruence.
  - apply styled_out in Hs.
    rewrite !andb_true_iff, !Qlt_bool_iff, !Qle_bool_iff.
    fold (view_width win) (view_height win).
    split.
    + intros (((((Hw & Hh) & Hbo) & Hri) & Hto) & Hle).
      split; [done|]. split; [done|]. split; [done|].
      exists (if Qlt_le_dec (b_left e) 0 then 0%Q else b_left e),
             (if Qlt_le_dec (b_top e) 0 then 0%Q else b_top e).
      destruct (Qlt_le_dec (b_left e) 0), (Qlt_le_dec (b_top e) 0);
        repeat split; lra.
    + intros (_ & Hw & Hh & (x & y & Hx & Hy & Hx' & Hy')).
      repeat split; lra.
Qed.

End VisibleFacts.

(** ** [isAutoplayRestricted] *)

Module PlatformFacts.
Import JsString Platform.

Definition occurs (pat s : string) : Prop := ∃ a b, s = a +:+ pat +:+ b.

Definition occurs_then_digit (pat s : string) : Prop :=
  ∃ a c b, s = a +:+ pat +:+ String c b ∧ is_digit c = true.

Lemma prefix_iff (p s : string) : String.prefix p s = true ↔ ∃ b, s = p +:+ b.
Proof.
  revert s. induction p as [|c p IH]; intros s.
  - split; [intros _; exists s; reflexivity|intros _; by destruct s].
  - destruct s as [|d s]; [split; [done|]; intros [b Hb]; discriminate Hb|].
    cbn [String.prefix]. destruct (ascii_dec c d) as [->|Hne].
    + rewrite IH. split; intros [b Hb]; exists b.
      * rewrite Hb. reflexivity.
      * change (String d s = String d (p +:+ b)) in Hb. by injection Hb.
    + split; [done|]. intros [b Hb].
      change (String d s = String c (p +:+ b)) in Hb. by injection Hb as -> _.
Qed.

Lemma occurs_here (pat s : string) : String.prefix pat s = true → occurs pat s.
Proof.
  intros E. apply prefix_iff in E as [b Hb]. exists ""%string, b. exact Hb.
Qed.

Lemma occurs_cons (pat : string) (c : ascii) (s : string) :
  occurs pat (String c s) ↔ String.prefix pat (String c s) = true ∨ occurs pat s.
Proof.
  split.
  - intros (a & b & H). destruct a as [|d a].
    + left. apply prefix_iff. exists b. exact H.
    + right. change (String c s = String d (a +:+ pat +:+ b)) in H.
      injection H as _ ->. by exists a, b.
  - intros [E|(a & b & ->)]; [by apply occurs_here|].
    exists (String c a), b. reflexivity.
Qed.

Lemma includes_iff (pat s : string) : includes pat s = true ↔ occurs pat s.
Proof.
  induction s as [|c s IH]; cbn [includes].
  - destruct (String.prefix pat "") eqn:E.
    + split; [|done]. intros _. by apply occurs_here.
    + split; [done|]. intros (a & b & H). destruct a as [|d a]; [|discriminate H].
      assert (String.prefix pat "" = true) by (apply prefix_iff; by exists b).
      congruence.
  - rewrite occurs_cons. destruct (String.prefix pat (String c s)) eqn:E.
    + split; [by left|done].
    + rewrite IH. split; [by right|]. by intros [?|?].
Qed.

Lemma get_after (p : string) (rest : string) :
  String.get (String.length p) (p +:+ rest) = String.get 0 rest.
Proof. induction p as [|c p IH]; [done|]. exact IH. Qed.

Definition digit_here (pat s : string) : bool :=
  String.prefix pat s
  && match String.get (String.length pat) s with
     | Some c => is_digit c
     | None => false
     end.

Lemma here_iff (pat s : string) :
  digit_here pat s = true ↔ ∃ c b, s = pat +:+ String c b ∧ is_digit c = true.
Proof.
  unfold digit_here. rewrite andb_true_iff, prefix_iff. split.
  - intros [[b ->] H]. rewrite get_after in H.
    destruct b as [|c b]; [done|]. by exists c, b.
  - intros (c & b & -> & Hd). split; [by eexists|]. by rewrite get_after.
Qed.

Lemma occurs_then_digit_here (pat s : string) :
  digit_here pat s = true → occurs_then_digit pat s.
Proof.
  intros E. apply here_iff in E as (d & b & Hs & Hd). by exists ""%string, d, b.
Qed.

Lemma occurs_then_digit_cons (pat : string) (c : ascii) (s : string) :
  occurs_then_digit pat (String c s)
  ↔ digit_here pat (String c s) = true ∨ occurs_then_digit pat s.
Proof.
  split.
  - intros (a & d & b & H & Hd). destruct a as [|x a].
    + left. apply here_iff. by exists d, b.
    + right. change (String c s = String x (a +:+ pat +:+ String d b)) in H.
      injection H as _ ->. by exists a, d, b.
  - intros [E|(a & d & b & -> & Hd)]; [by apply occurs_then_digit_here|].
    by exists (String c a), d, b.
Qed.

Lemma includes_then_digit_iff (pat s : string) :
  includes_then_digit pat s = true ↔ occurs_then_digit pat s.
Proof.
  induction s as [|c s IH]; cbn [includes_then_digit]; cbv zeta;
    [fold (digit_here pat "")|fold (digit_here pat (String c s))].
  - destruct (digit_here pat "") eqn:E.
    + split; [|done]. intros _. by apply occurs_then_digit_here.
    + split; [done|]. intros (a & d & b & H & Hd).
      destruct a as [|x a]; [|discriminate H].
      assert (digit_here pat "" = true) by (apply here_iff; by exists d, b).
      congruence.
  - rewrite occurs_then_digit_cons. destruct (digit_here pat (String c s)) eqn:E.
    + split; [by left|done].
    + rewrite IH. split; [by right|]. by intros [?|?].
Qed.

(** X3.  [isAutoplayRestricted] in terms of the text it tests, which is
    the user agent, else the vendor, else [window.opera]: the platform is
    restricted exactly when that text contains iPad, iPhone or iPod, or the
    platform is MacIntel with more than one touch point, or the text
    contains Android, or it contains both Chrome/ followed by a digit and
    Mobile. *)
Theorem isAutoplayRestricted_iff (nav : navigator) :
  isAutoplayRestricted nav = true
  ↔ occurs "iPad" (ua_string nav) ∨ occurs "iPhone" (ua_string nav)
    ∨ occurs "iPod" (ua_string nav)
    ∨ (platform nav = "MacIntel"%string ∧ (1 < maxTouchPoints nav)%nat)
    ∨ occurs "Android" (ua_string nav)
    ∨ (occurs_then_digit "Chrome/" (ua_string nav)
       ∧ occurs "Mobile" (ua_string nav)).
Proof.
  unfold isAutoplayRestricted. cbv zeta.
  rewrite !orb_true_iff, !andb_true_iff, !includes_iff, includes_then_digit_iff,
    String.eqb_eq, Nat.ltb_lt.
  tauto.
Qed.

End PlatformFacts.

(** ** Start-up: the retries of [tryInitLightbox] and [initLightbox] *)

Module StartupFacts.
Import Timers TimersFacts Gate.

Lemma pop_single (h : Z) (q : queue) (tm : timer) :
  pending q = [tm] → due tm <= h →
  pop_due h q = Some (tm, {| pending := []; next_id := next_id q |}).
Proof.
  intros Hp Hd. unfold pop_due, clearTimeout. rewrite Hp. cbn [earliest].
  destruct (due tm <=? h) eqn:E; [|lia].
  by rewrite filter_cons_False, filter_nil by (by intros H).
Qed.

Lemma pop_waits (h : Z) (q : queue) (tm : timer) :
  pending q = [tm] → h < due tm → pop_due h q = None.
Proof.
  intros Hp Hd. unfold pop_due. rewrite Hp. cbn [earliest].
  destruct (due tm <=? h) eqn:E; [lia|done].
Qed.

Lemma pop_empty (h : Z) (q : queue) : pending q = [] → pop_due h q = None.
Proof. intros Hp. unfold pop_due. by rewrite Hp. Qed.

Section Startup.
Variable Wd : world.

Lemma run_single (fuel : nat) (h : Z) (g : gate) (tm : timer) :
  pending (timers g) = [tm] → due tm <= h →
  run Wd (S fuel) h g
  = run Wd fuel h
      (fire Wd tm (with_timers {| pending := []; next_id := next_id (timers g) |} g)).
Proof.
  intros Hp Hd. unfold run. cbn [Timers.run]. by rewrite (pop_single h _ tm).
Qed.

Lemma run_waits (fuel : nat) (h : Z) (g : gate) (tm : timer) :
  pending (timers g) = [tm] → h < due tm → run Wd fuel h g = g.
Proof.
  intros Hp Hd. unfold run. destruct fuel; [done|]. cbn [Timers.run].
  by rewrite (pop_waits h _ tm).
Qed.

Lemma run_idle (fuel : nat) (h : Z) (g : gate) :
  pending (timers g) = [] → run Wd fuel h g = g.
Proof.
  intros Hp. unfold run. destruct fuel; [done|]. cbn [Timers.run].
  by rewrite pop_empty.
Qed.

(** No observer, and either one retry pending or at most one controller. *)
Definition single (g : gate) : Prop :=
  observers g = []
  ∧ (instances g + length (pending (timers g)) ≤ 1)%nat.

Lemma single_initLightbox (now : Z) (g : gate) :
  observers g = [] → instances g = 0%nat → pending (timers g) = [] →
  single (initLightbox Wd now g).
Proof.
  intros Ho Hi Hp. unfold initLightbox, single, later, log_error.
  repeat match goal with |- context [if ?b then _ else _] => destruct b end;
    cbn; rewrite ?Hp, ?Hi; cbn; split; (done || lia).
Qed.

Lemma single_tryInitLightbox (now : Z) (g : gate) :
  observers g = [] → instances g = 0%nat → pending (timers g) = [] →
  single (tryInitLightbox Wd now g).
Proof.
  intros Ho Hi Hp. unfold tryInitLightbox.
  destruct (markup_ready _); [by apply single_initLightbox|].
  unfold single, later, log_error.
  destruct (_ <? _)%nat; cbn; rewrite ?Hp, ?Hi; cbn; split; (done || lia).
Qed.

Lemma single_fire (tm : timer) (g : gate) :
  single g → tm ∈ pending (timers g) →
  single (fire Wd tm (with_timers (clearTimeout (tid tm) (timers g)) g)).
Proof.
  intros [Ho Hle] Hin.
  pose proof (length_clearTimeout_lt (timers g) tm Hin) as Hlt.
  assert (Hi : instances g = 0%nat) by lia.
  remember (clearTimeout (tid tm) (timers g)) as q' eqn:Hq'.
  assert (Hp : pending q' = []) by (apply length_zero_iff_nil; lia).
  clear Hq' Hlt Hle Hin.
  unfold fire. destruct (cb tm).
  all: try (split; [exact Ho|cbn [instances timers with_timers]; rewrite Hp, Hi; cbn; lia]).
  - by apply single_tryInitLightbox.
  - by apply single_initLightbox.
  - split; [cbn; by rewrite Ho|]. cbn. rewrite Hp, Hi. cbn. lia.
Qed.

Lemma single_run (fuel : nat) (h : Z) (g : gate) : single g → single (run Wd fuel h g).
Proof.
  apply (run_invariant timers with_timers (fire Wd) single).
  intros tm w Hw Hin _. by apply single_fire.
Qed.

Lemma single_live_through (fuel : nat) (mutations : list Z) (h : Z) (g : gate) :
  single g → single (live_through Wd fuel mutations h g).
Proof.
  revert g. induction mutations as [|t rest IH]; intros g Hg; cbn [live_through].
  - by apply single_run.
  - apply IH. pose proof (single_run fuel t g Hg) as Hr.
    unfold mutation. destruct Hr as [Ho Hr]. rewrite Ho. by split.
Qed.

(** *** The wait for the Vimeo API *)

Variable start : Z.

(** After [k] failed looks for the API: the [k]-th retry is pending. *)
Definition api_wait (k : nat) : gate :=
  {| vimeoApiAttempts := k; initAttempts := 1; instances := 0; observers := [];
     next_observer := 0; errors := [];
     timers := {| pending := [{| tid := k; due := start + 100 * Z.of_nat k;
                                 cb := CbInitLightbox |}];
                  next_id := S k |} |}.

Definition api_given_up : gate :=
  {| vimeoApiAttempts := 20; initAttempts := 1; instances := 0; observers := [];
     next_observer := 0; errors := ["Vimeo API failed to load"%string];
     timers := {| pending := []; next_id := 21 |} |}.

Section NoApi.
Hypothesis markup : markup_ready (document_at Wd start) = true.
Hypothesis no_api : ∀ k, (k ≤ 20)%nat →
  vimeo_defined Wd (start + 100 * Z.of_nat k) = false.

Lemma begin_api_wait : tryInitLightbox Wd start booted = api_wait 1.
Proof.
  unfold tryInitLightbox. rewrite markup. unfold initLightbox.
  pose proof (no_api 0 ltac:(lia)) as H0.
  replace (start + 100 * Z.of_nat 0) with start in H0 by lia.
  cbn [vimeoApiAttempts booted]. rewrite H0. reflexivity.
Qed.

Lemma step_api_wait (k : nat) :
  (k < 20)%nat →
  fire Wd {| tid := k; due := start + 100 * Z.of_nat k; cb := CbInitLightbox |}
    (with_timers {| pending := []; next_id := S k |} (api_wait k))
  = api_wait (S k).
Proof.
  intros Hk. unfold fire. cbn [cb due]. unfold initLightbox.
  rewrite (no_api k) by lia. cbn [negb vimeoApiAttempts with_timers api_wait].
  apply Nat.ltb_lt in Hk as Hk'. unfold maxVimeoApiAttempts. rewrite Hk'.
  unfold later, api_wait, INIT_RETRY_DELAY_MS. cbn. unfold with_timers. cbn.
  replace (start + 100 * Z.of_nat k + Z.max 0 100)
    with (start + 100 * Z.of_nat (S k)) by lia.
  reflexivity.
Qed.

Lemma last_api_wait :
  fire Wd {| tid := 20; due := start + 100 * Z.of_nat 20; cb := CbInitLightbox |}
    (with_timers {| pending := []; next_id := 21 |} (api_wait 20))
  = api_given_up.
Proof.
  unfold fire. cbn [cb due]. unfold initLightbox.
  rewrite (no_api 20) by lia. reflexivity.
Qed.

Lemma run_api_wait (n k fuel : nat) (h : Z) :
  (k + n = 20)%nat → (1 ≤ k)%nat → (S n ≤ fuel)%nat → start + 2000 <= h →
  run Wd fuel h (api_wait k) = api_given_up.
Proof.
  revert k fuel. induction n as [|n IH]; intros k fuel Hk H1 Hf Hh.
  - assert (k = 20%nat) as -> by lia. destruct fuel as [|fuel]; [lia|].
    rewrite (run_single fuel h (api_wait 20)
               {| tid := 20; due := start + 100 * Z.of_nat 20; cb := CbInitLightbox |}
               eq_refl) by (cbn [due]; lia).
    cbn [timers api_wait next_id]. rewrite last_api_wait.
    by apply run_idle.
  - destruct fuel as [|fuel]; [lia|].
    rewrite (run_single fuel h (api_wait k)
               {| tid := k; due := start + 100 * Z.of_nat k; cb := CbInitLightbox |}
               eq_refl) by (cbn [due]; lia).
    cbn [timers api_wait next_id]. rewrite step_api_wait by lia.
    apply IH; lia.
Qed.

Lemma early_api_wait (fuel : nat) (h : Z) :
  h < start + 2000 →
  ∃ k, (1 ≤ k ≤ 20)%nat ∧ run Wd fuel h (api_wait 1) = api_wait k.
Proof.
  intros Hh.
  apply (run_invariant timers with_timers (fire Wd)
           (λ g, ∃ k, (1 ≤ k ≤ 20)%nat ∧ g = api_wait k) h).
  - intros tm w (k & Hk & ->) Hin Hdue.
    apply list_elem_of_singleton in Hin as ->. cbn [due] in Hdue.
    exists (S k). split; [lia|].
    cbn [timers api_wait tid]. unfold clearTimeout. cbn [pending next_id].
    rewrite filter_cons_False, filter_nil by (by intros H).
    apply step_api_wait. lia.
  - exists 1%nat. split; [lia|done].
Qed.

End NoApi.

(** *** The wait for the markup *)

(** After [i] attempts of [tryInitLightbox] found the markup incomplete. *)
Definition markup_wait (i : nat) : gate :=
  {| vimeoApiAttempts := 0; initAttempts := i; instances := 0; observers := [];
     next_observer := 0; errors := [];
     timers := {| pending := [{| tid := i; due := start + 500 * Z.of_nat i;
                                 cb := CbTryInitLightbox |}];
                  next_id := S i |} |}.

(** The state in which the [i]-th retry runs (the first call for [i = 0]). *)
Definition about_to_try (i : nat) : gate :=
  {| vimeoApiAttempts := 0; initAttempts := i; instances := 0; observers := [];
     next_observer := 0; errors := [];
     timers := {| pending := []; next_id := S i |} |}.

(** Activated by the [n]-th attempt. *)
Definition activated (n : nat) : gate :=
  {| vimeoApiAttempts := 0; initAttempts := n; instances := 1; observers := [];
     next_observer := 0; errors := [];
     timers := {| pending := []; next_id := n |} |}.

Lemma try_fails (i : nat) :
  (S i < 10)%nat →
  markup_ready (document_at Wd (start + 500 * Z.of_nat i)) = false →
  tryInitLightbox Wd (start + 500 * Z.of_nat i) (about_to_try i) = markup_wait (S i).
Proof.
  intros Hi Hm. unfold tryInitLightbox. rewrite Hm.
  cbn [initAttempts about_to_try]. unfold maxAttempts.
  apply Nat.ltb_lt in Hi as ->.
  unfold later, with_timers, markup_wait. cbn.
  replace (start + 500 * Z.of_nat i + Z.max 0 500)
    with (start + 500 * Z.of_nat (S i)) by lia.
  reflexivity.
Qed.

Lemma try_succeeds (i : nat) :
  markup_ready (document_at Wd (start + 500 * Z.of_nat i)) = true →
  vimeo_defined Wd (start + 500 * Z.of_nat i) = true →
  tryInitLightbox Wd (start + 500 * Z.of_nat i) (about_to_try i) = activated (S i).
Proof.
  intros Hm Hv. unfold tryInitLightbox. rewrite Hm. unfold initLightbox.
  rewrite Hv. unfold markup_ready in Hm. apply andb_prop in Hm as [-> _].
  reflexivity.
Qed.

Section FirstReady.
Variable j : nat.
Hypothesis in_time : (j < 10)%nat.
Hypothesis not_before : ∀ i, (i < j)%nat →
  markup_ready (document_at Wd (start + 500 * Z.of_nat i)) = false.
Hypothesis ready : markup_ready (document_at Wd (start + 500 * Z.of_nat j)) = true.
Hypothesis api : vimeo_defined Wd (start + 500 * Z.of_nat j) = true.

Lemma popped_markup_wait (i : nat) :
  with_timers {| pending := []; next_id := S i |} (markup_wait i) = about_to_try i.
Proof. reflexivity. Qed.

Lemma run_markup_wait (n i fuel : nat) (h : Z) :
  (i + n = j)%nat → (1 ≤ i)%nat → (S n ≤ fuel)%nat → start + 500 * Z.of_nat j <= h →
  run Wd fuel h (markup_wait i) = activated (S j).
Proof.
  revert i fuel. induction n as [|n IH]; intros i fuel Hi H1 Hf Hh;
    (destruct fuel as [|fuel]; [lia|]);
    rewrite (run_single fuel h (markup_wait i)
               {| tid := i; due := start + 500 * Z.of_nat i; cb := CbTryInitLightbox |}
               eq_refl) by (cbn [due]; lia);
    cbn [timers markup_wait next_id]; fold (markup_wait i);
    rewrite popped_markup_wait; unfold fire; cbn [cb due].
  - assert (i = j) as -> by lia. rewrite try_succeeds by done. by apply run_idle.
  - rewrite try_fails by (try apply not_before; lia). apply IH; lia.
Qed.

End FirstReady.

Lemma script_activates (j fuel : nat) (h : Z) :
  (j < 10)%nat →
  (∀ i, (i < j)%nat →
        markup_ready (document_at Wd (start + 500 * Z.of_nat i)) = false) →
  markup_ready (document_at Wd (start + 500 * Z.of_nat j)) = true →
  vimeo_defined Wd (start + 500 * Z.of_nat j) = true →
  (j ≤ fuel)%nat → start + 500 * Z.of_nat j <= h →
  script Wd fuel start [] h = activated (S j).
Proof.
  intros Hj Hnot Hready Hapi Hf Hh. unfold script. cbn [live_through].
  change booted with (about_to_try 0).
  replace start with (start + 500 * Z.of_nat 0) at 1 by lia.
  destruct j as [|j'].
  - rewrite try_succeeds by done. by apply run_idle.
  - rewrite try_fails by (try apply Hnot; lia).
    apply (run_markup_wait (S j') Hj Hnot Hready Hapi j'); lia.
Qed.

Lemma script_still_waiting (j fuel : nat) (h : Z) :
  (j < 10)%nat →
  (∀ i, (i < j)%nat →
        markup_ready (document_at Wd (start + 500 * Z.of_nat i)) = false) →
  (0 < j)%nat → h < start + 500 * Z.of_nat j →
  ∃ i, (1 ≤ i ≤ j)%nat ∧ script Wd fuel start [] h = markup_wait i.
Proof.
  intros Hlt Hnot Hj Hh.
  assert (E : tryInitLightbox Wd start booted = markup_wait 1).
  { change booted with (about_to_try 0).
    replace start with (start + 500 * Z.of_nat 0) at 1 by lia.
    apply try_fails; [lia|apply Hnot; lia]. }
  unfold script. cbn [live_through]. rewrite E. clear E.
  apply (run_invariant timers with_timers (fire Wd)
           (λ g, ∃ i, (1 ≤ i ≤ j)%nat ∧ g = markup_wait i) h).
  - intros tm w (i & Hi & ->) Hin Hdue.
    apply list_elem_of_singleton in Hin as ->. cbn [due] in Hdue.
    exists (S i). split; [lia|].
    cbn [timers markup_wait tid]. unfold clearTimeout. cbn [pending next_id].
    rewrite filter_cons_False, filter_nil by (by intros H).
    fold (markup_wait i). rewrite popped_markup_wait. unfold fire. cbn [cb due].
    apply try_fails; [lia|apply Hnot; lia].
  - exists 1%nat. split; [lia|done].
Qed.



(** *** The wait for [#lightbox] inside [initLightbox] *)

Section NoLightbox.
Variable now : Z.
Variable g : gate.
Hypothesis idle : pending (timers g) = [].
Hypothesis api_loaded : ∀ t, vimeo_defined Wd t = true.
Hypothesis missing : ∀ t, has_lightbox (document_at Wd t) = false.

(** [n] retries have run and the next one is pending. *)
Definition lightbox_wait (n : nat) : gate :=
  {| vimeoApiAttempts := vimeoApiAttempts g; initAttempts := initAttempts g;
     instances := instances g; observers := observers g;
     next_observer := next_observer g; errors := errors g;
     timers := {| pending := [{| tid := next_id (timers g) + n;
                                 due := now + 100 * Z.of_nat (S n);
                                 cb := CbInitLightbox |}];
                  next_id := S (next_id (timers g) + n) |} |}.

Lemma begin_lightbox_wait : initLightbox Wd now g = lightbox_wait 0.
Proof.
  unfold initLightbox. rewrite api_loaded, missing. cbn [negb].
  unfold later, with_timers, lightbox_wait, INIT_RETRY_DELAY_MS. cbn.
  rewrite idle, Nat.add_0_r. reflexivity.
Qed.

Lemma step_lightbox_wait (n : nat) :
  fire Wd {| tid := next_id (timers g) + n; due := now + 100 * Z.of_nat (S n);
             cb := CbInitLightbox |}
    (with_timers {| pending := []; next_id := S (next_id (timers g) + n) |}
       (lightbox_wait n))
  = lightbox_wait (S n).
Proof.
  unfold fire. cbn [cb due]. unfold initLightbox. rewrite api_loaded, missing. cbn [negb].
  unfold later, with_timers, lightbox_wait, INIT_RETRY_DELAY_MS.
  cbn [vimeoApiAttempts initAttempts instances observers next_observer errors
       timers setTimeout snd pending next_id app].
  replace (now + 100 * Z.of_nat (S n) + Z.max 0 100)
    with (now + 100 * Z.of_nat (S (S n))) by lia.
  by rewrite Nat.add_succ_r.
Qed.

Lemma run_lightbox_wait (fuel : nat) (h : Z) (n : nat) :
  ∃ m, run Wd fuel h (lightbox_wait n) = lightbox_wait m ∧ (n ≤ m)%nat
       ∧ ∀ k, (k ≤ fuel)%nat → now + 100 * Z.of_nat (n + k) <= h → (n + k ≤ m)%nat.
Proof.
  revert n. induction fuel as [|fuel IH]; intros n.
  - exists n. split; [done|]. split; [done|]. intros k Hk _. lia.
  - destruct (Z_le_gt_dec (now + 100 * Z.of_nat (S n)) h) as [Hdue|Hlate].
    + rewrite (run_single fuel h (lightbox_wait n)
                 {| tid := next_id (timers g) + n; due := now + 100 * Z.of_nat (S n);
                    cb := CbInitLightbox |} eq_refl) by exact Hdue.
      cbn [timers lightbox_wait next_id]. fold (lightbox_wait n).
      rewrite step_lightbox_wait.
      destruct (IH (S n)) as (m & -> & Hm & Hall).
      exists m. split; [done|]. split; [lia|].
      intros [|k] Hk Hh; [lia|].
      replace (n + S k)%nat with (S n + k)%nat by lia. apply Hall; [lia|].
      replace (S n + k)%nat with (n + S k)%nat by lia. exact Hh.
    + rewrite (run_waits (S fuel) h (lightbox_wait n)
                 {| tid := next_id (timers g) + n; due := now + 100 * Z.of_nat (S n);
                    cb := CbInitLightbox |} eq_refl) by (cbn [due]; lia).
      exists n. split; [done|]. split; [done|].
      intros [|k] Hk Hh; [lia|]. lia.
Qed.

End NoLightbox.
End Startup.

(** X4.  The script never builds a second controller: on every start-up
    run, whatever the document and the API do, [new VimeoLightbox()] is
    executed at most once. *)
Theorem at_most_one_controller (Wd : world) (fuel : nat) (start : Z)
  (mutations : list Z) (horizon : Z) :
  (instances (script Wd fuel start mutations horizon) ≤ 1)%nat.
Proof.
  assert (H : single (script Wd fuel start mutations horizon)).
  { apply single_live_through. by apply single_tryInitLightbox. }
  destruct H as [_ H]. lia.
Qed.

(** X5.  When the markup is there but the Vimeo API never loads,
    [initLightbox] looks for it 21 times, 100 ms apart, and gives up: from
    2000 ms after the start the error is logged once, nothing is pending and
    no controller exists; before that no error is logged and one retry is
    pending. *)
Theorem api_wait_is_bounded (Wd : world) (start : Z) :
  markup_ready (document_at Wd start) = true →
  (∀ k, (k ≤ 20)%nat → vimeo_defined Wd (start + 100 * Z.of_nat k) = false) →
  (∀ fuel horizon, (20 ≤ fuel)%nat → start + 2000 <= horizon →
     let g := script Wd fuel start [] horizon in
     errors g = ["Vimeo API failed to load"%string] ∧ instances g = 0%nat
     ∧ pending (timers g) = [] ∧ vimeoApiAttempts g = 20%nat)
  ∧ (∀ fuel horizon, horizon < start + 2000 →
     let g := script Wd fuel start [] horizon in
     errors g = [] ∧ instances g = 0%nat
     ∧ ∃ tm, pending (timers g) = [tm] ∧ cb tm = CbInitLightbox).
Proof.
  intros Hm Hv. split; intros fuel horizon; cbv zeta; unfold script;
    cbn [live_through]; rewrite (begin_api_wait Wd start Hm Hv).
  - intros Hf Hh.
    rewrite (run_api_wait Wd start Hv 19 1 fuel horizon) by lia. done.
  - intros Hh.
    destruct (early_api_wait Wd start Hv fuel horizon Hh) as (k & _ & ->).
    split; [done|]. split; [done|]. by eexists.
Qed.

(** X6.  When the markup is first complete at the attempt number [j] of
    [tryInitLightbox] (attempts are 500 ms apart, [j < 10]) and the Vimeo
    API is loaded then, the controller is built by that attempt and by no
    other: before it there is none, after it there is exactly one, no error
    is logged and no retry is pending. *)
Theorem activation_at_first_ready_attempt (Wd : world) (start : Z) (j : nat) :
  (j < 10)%nat →
  (∀ i, (i < j)%nat →
        markup_ready (document_at Wd (start + 500 * Z.of_nat i)) = false) →
  markup_ready (document_at Wd (start + 500 * Z.of_nat j)) = true →
  vimeo_defined Wd (start + 500 * Z.of_nat j) = true →
  (∀ fuel horizon, (j ≤ fuel)%nat → start + 500 * Z.of_nat j <= horizon →
     let g := script Wd fuel start [] horizon in
     instances g = 1%nat ∧ errors g = [] ∧ pending (timers g) = []
     ∧ initAttempts g = S j)
  ∧ (∀ fuel horizon, (0 < j)%nat → horizon < start + 500 * Z.of_nat j →
     instances (script Wd fuel start [] horizon) = 0%nat).
Proof.
  intros Hj Hnot Hready Hapi. split; intros fuel horizon; cbv zeta.
  - intros Hf Hh.
    by rewrite (script_activates Wd start j fuel horizon Hj Hnot Hready Hapi Hf Hh).
  - intros H0 Hh.
    destruct (script_still_waiting Wd start j fuel horizon Hj Hnot H0 Hh)
      as (i & _ & ->).
    done.
Qed.

(** X7.  [initLightbox] does not bound its wait for [#lightbox]: with the
    API loaded and the element missing it retries every 100 ms for ever.
    At every moment one retry is pending, nothing is logged and no
    controller is built; by [now + 100 n] more than [n] retries have been
    scheduled. *)
Theorem lightbox_wait_is_unbounded (Wd : world) (now : Z) (g : gate) :
  pending (timers g) = [] →
  (∀ t, vimeo_defined Wd t = true) →
  (∀ t, has_lightbox (document_at Wd t) = false) →
  ∀ fuel horizon,
    let g' := run Wd fuel horizon (initLightbox Wd now g) in
    errors g' = errors g ∧ instances g' = instances g
    ∧ (∃ tm, pending (timers g') = [tm] ∧ cb tm = CbInitLightbox)
    ∧ ∀ n, (n ≤ fuel)%nat → now + 100 * Z.of_nat n <= horizon →
           (next_id (timers g) + n < next_id (timers g'))%nat.
Proof.
  intros Hp Hv Hl fuel horizon. cbv zeta.
  rewrite (begin_lightbox_wait Wd now g Hp Hv Hl).
  destruct (run_lightbox_wait Wd now g Hv Hl fuel horizon 0)
    as (m & -> & _ & Hall).
  split; [done|]. split; [done|]. split; [by eexists|].
  intros n Hn Hh. cbn [timers lightbox_wait next_id].
  specialize (Hall n Hn Hh). lia.
Qed.

End StartupFacts.

(** ** The timeline listeners *)

Module PointerFacts.
Import JsNum Timers Lightbox Pointer Flat.

(** Whether the drag flag is set after a listener ran. *)
Definition pressed_after (ev : listener) (dragging : bool) : bool :=
  match ev with
  | HandleMouseDown _ | ContainerMouseDown _
  | HandleTouchStart _ | ContainerTouchStart _ => true
  | DocumentMouseUp | DocumentTouchEnd => false
  | _ => dragging
  end.

(** Whether a listener may ask the player to seek. *)
Definition may_seek (ev : listener) (dragging : bool) : bool :=
  match ev with
  | ContainerClick _ => negb dragging
  | HandleMouseDown _ | ContainerMouseDown _
  | HandleTouchStart _ | ContainerTouchStart _ => true
  | DocumentMouseMove _ | DocumentTouchMove _ => dragging
  | _ => false
  end.

Section Handlers.
Variable B : browser.

(** One listener call: the drag flag follows [pressed_after]; the player
    reference and the live handles stay; the SDK log stays or grows by one
    [setCurrentTime], the latter only where [may_seek] allows. *)
Lemma listen_effect (ev : listener) (s : lightbox) :
  let s' := deliver B s ev in
  isDragging (ses s') = pressed_after ev (isDragging (ses s))
  ∧ currentPlayer (ses s') = currentPlayer (ses s)
  ∧ videoDuration (ses s') = videoDuration (ses s)
  ∧ live (ext s') = live (ext s) ∧ fresh (ext s') = fresh (ext s)
  ∧ (log (ext s') = log (ext s)
     ∨ (may_seek ev (isDragging (ses s)) = true
        ∧ ∃ h t, currentPlayer (ses s) = Some h
                 ∧ log (ext s') = log (ext s) ++ [(h, SetCurrentTime t)])).
Proof.
  cbv zeta. flat s.
  unfold deliver, listen, startDrag, startDragging, Lightbox.startDragging,
    stopDragging, mouseleave, handleTimelineClick, handleTimelineHover,
    handleTimelineDrag, call_bare, updateTimelinePosition, pressed_after, may_seek.
  destruct ev; crunch; cases B.
  all: repeat split; try reflexivity.
  all: try (left; reflexivity).
  all: try (right; split; [reflexivity|]; by eexists _, _).
Qed.

End Handlers.

(** X8.  The drag flag over any sequence of timeline listener calls: it is
    set after the sequence exactly when the last press or release in it was
    a press, and is what it was before when there was neither.  This holds
    also when a listener throws. *)
Theorem drag_flag_follows_presses (B : browser) (evs : list listener) (s : lightbox) :
  isDragging (ses (deliver_all B evs s))
  = fold_left (λ d ev, pressed_after ev d) evs (isDragging (ses s)).
Proof.
  revert s. induction evs as [|ev evs IH]; intros s; [done|].
  cbn [deliver_all fold_left]. fold (deliver_all B evs (deliver B s ev)).
  rewrite IH. by destruct (listen_effect B ev s) as (-> & _).
Qed.

(** X9.  What the timeline listeners ask of the player: a listener call
    makes no SDK call, or exactly one [setCurrentTime] on the current
    player; it does so only for a click outside a drag, a press, or a
    pointer move during a drag; it never constructs or destroys a player. *)
Theorem listeners_only_seek (B : browser) (ev : listener) (s : lightbox) :
  let s' := deliver B s ev in
  currentPlayer (ses s') = currentPlayer (ses s)
  ∧ live (ext s') = live (ext s) ∧ fresh (ext s') = fresh (ext s)
  ∧ (log (ext s') = log (ext s)
     ∨ (may_seek ev (isDragging (ses s)) = true
        ∧ ∃ h t, currentPlayer (ses s) = Some h
                 ∧ log (ext s') = log (ext s) ++ [(h, SetCurrentTime t)])).
Proof.
  destruct (listen_effect B ev s) as (_ & H1 & _ & H2 & H3 & H4). by cbv zeta.
Qed.

(** X10.  A press with an object that has no [preventDefault] method (the
    [Touch] that the touchstart listeners pass on): [startDragging] throws
    after setting the drag flag, so the press neither seeks nor shows the
    hover label; the drag is on all the same, and the next touchmove is
    handled by [handleTimelineDrag]. *)
Theorem touch_press_throws (B : browser) (t u : point) (s : lightbox) :
  has_preventDefault t = false →
  listen B (HandleTouchStart t) s = Thrown (with_ses (set_isDragging true) s)
  ∧ listen B (ContainerTouchStart t) s = Thrown (with_ses (set_isDragging true) s)
  ∧ ext (deliver B s (HandleTouchStart t)) = ext s
  ∧ tl (deliver B s (HandleTouchStart t)) = tl s
  ∧ listen B (DocumentTouchMove u) (deliver B s (HandleTouchStart t))
    = handleTimelineDrag B (clientX u) (with_ses (set_isDragging true) s).
Proof.
  intros Ht. unfold deliver, listen, startDrag, startDragging. rewrite Ht.
  cbn [and_then state_of]. repeat split.
Qed.

End PointerFacts.

(** ** [closeLightbox] *)

Module CloseFacts.
Import JsNum Timers Lightbox Flat.




(** X13.  [closeLightbox] when the SDK's [destroy()] throws: the modal is
    hidden and the scroll lock undone, and then the method ends with the
    exception; the player reference, the iframe, the controls and the labels
    are as before and nothing is scheduled.  The [destroy] method of the
    class swallows the same exception and also keeps the reference. *)
Theorem closeLightbox_aborts_when_destroy_throws (B : browser) (now : Z)
  (s : lightbox) (h : nat) :
  currentPlayer (ses s) = Some h →
  settles B (log (ext s)) h Destroy = ThrowsSync →
  (∃ s', closeLightbox B now s = Thrown s'
     ∧ ses s' = ses s ∧ ui s' = ui s ∧ lbl s' = lbl s ∧ tl s' = tl s
     ∧ tst s' = tst s ∧ tq s' = tq s
     ∧ lb_classes s' = lb_classes s ∖ {["active"]}
     ∧ (sl s', pg s') = ScrollLock.unlock (sl s) (pg s)
     ∧ live (ext s') = live (ext s)
     ∧ log (ext s') = log (ext s) ++ [(h, Destroy)])
  ∧ destroy B s = with_ext (record_call h Destroy) s.
Proof.
  intros Hp Ht. split.
  - revert Hp Ht. flat s. cbn [ses ext currentPlayer log]. intros -> Ht.
    unfold closeLightbox; crunch; cases B.
    unfold clean_up_player; crunch. cbn [log] in Ht. rewrite Ht.
    eexists; split; [reflexivity|]. repeat split; try reflexivity.
  - unfold destroy. by rewrite Hp, Ht.
Qed.

Lemma closeLightbox_page (B : browser) (now : Z) (s : lightbox) :
  pg (state_of (closeLightbox B now s)) = snd (ScrollLock.unlock (sl s) (pg s)).
Proof.
  flat s.
  unfold closeLightbox; crunch; cases B.
  unfold clean_up_player; crunch; cases B.
  all: (unfold reset_ui, recreateIframe, resetControls, updateMuteButtonLabel;
    crunch; cases B).
  all: (unfold hidePauseIndicator, hideCenterToast; crunch; cases B).
  all: (unfold showControls, updateTimelinePosition; crunch; cases B).
  all: (unfold hideError, showControls, hideLoading; crunch; cases B).
  all: reflexivity.
Qed.

(** The page and the scroll fields are the same in [s'] as in [s]. *)
Definition same_page (s s' : lightbox) : Prop := pg s' = pg s ∧ sl s' = sl s.

Lemma same_page_trans s1 s2 s3 : same_page s1 s2 → same_page s2 s3 → same_page s1 s3.
Proof. intros [A1 A2] [B1 B2]. split; congruence. Qed.

Lemma same_page_showLoading now s : same_page s (showLoading now s).
Proof.
  unfold showLoading. destruct (loading (ui s)); [|done].
  destruct (negb _); [done|]. by destruct (loadingTimeoutId (ui s)).
Qed.

Lemma same_page_hideLoading s : same_page s (hideLoading s).
Proof.
  unfold hideLoading. destruct (loading (ui s)); [|done].
  by destruct (loadingTimeoutId (ui s)).
Qed.

Lemma same_page_showError s : same_page s (showError s).
Proof.
  unfold showError, hideControls.
  destruct (same_page_hideLoading s) as [A1 A2]. split; cbn [pg sl with_ui]; done.
Qed.

Lemma same_page_call_caught B c s : same_page s (state_of (call_caught B c s)).
Proof.
  unfold call_caught. destruct (currentPlayer (ses s)); [|done].
  by destruct (settles _ _ _ _).
Qed.

Lemma same_page_autoplay_requests B s : same_page s (autoplay_requests B s).
Proof.
  unfold autoplay_requests.
  pose proof (same_page_call_caught B (SetMuted false) s) as H1.
  destruct (call_caught B (SetMuted false) s) as [s1|s1]; cbn [and_then state_of] in *;
    [|done].
  pose proof (same_page_call_caught B (SetVolume (of_Z 1)) s1) as H2.
  destruct (call_caught B (SetVolume (of_Z 1)) s1) as [s2|s2];
    cbn [and_then state_of] in *; [|by eapply same_page_trans].
  pose proof (same_page_call_caught B Play s2) as H3.
  eapply same_page_trans; [exact H1|]. by eapply same_page_trans.
Qed.

Lemma same_page_primed now s : same_page s (LightboxFacts.primed now s).
Proof.
  unfold LightboxFacts.primed, hideControls, hideError, showControls.
  destruct (same_page_showLoading now (with_ui (set_allowLoader true) s)) as [A1 A2].
  split; cbn [pg sl with_ui with_ses]; [rewrite A1|rewrite A2]; done.
Qed.

Lemma loadVideo_page (B : browser) (now : Z) (vimeoId : option string) (a : bool)
  (s : lightbox) :
  same_page s (loadVideo B now vimeoId a s).
Proof.
  rewrite LightboxFacts.loadVideo_unfold. cbv zeta.
  pose proof (same_page_primed now s) as Hp.
  set (s0 := LightboxFacts.primed now s) in *. clearbody s0.
  destruct (bool_decide _);
    [eapply same_page_trans; [exact Hp|apply same_page_showError]|].
  destruct (videoFrame (ses s0)) as [f|];
    [|eapply same_page_trans; [exact Hp|apply same_page_showError]].
  match goal with |- context [constructor_throws B (fresh (ext ?x))] =>
    assert (H1 : same_page s x) by exact Hp; set (s1 := x) in *; clearbody s1 end.
  destruct (constructor_throws B (fresh (ext s1)));
    [eapply same_page_trans; [exact H1|apply same_page_showError]|].
  match goal with |- context [call_caught B Ready ?x] =>
    assert (H2 : same_page s x); [|set (s2 := x) in *; clearbody s2] end.
  { destruct a; [|exact H1].
    eapply same_page_trans; [|apply same_page_autoplay_requests]. exact H1. }
  pose proof (same_page_call_caught B Ready s2) as H3.
  destruct (call_caught B Ready s2) as [s3|s3]; cbn [state_of] in H3.
  - eapply same_page_trans; [exact H2|]. exact H3.
  - eapply same_page_trans; [exact H2|].
    eapply same_page_trans; [exact H3|apply same_page_showError].
Qed.

(** X14.  [openLightbox] followed by [closeLightbox], however the latter
    ends: the offset the user sees is the one before opening, when the page
    scrolls natively at a whole number of pixels, and when the plugin drives
    the page and has working [scrollTop] and [scrollTo]. *)
Theorem open_close_restores_scroll (B : browser) (t1 t2 : Z)
  (d : option tile_data) (s : lightbox) :
  (ScrollLock.plugin_lookup (pg s) ≠ ScrollLock.Found
   ∧ ScrollLock.hadSmoother (sl s) && ScrollLock.smoother (sl s) = false
   ∧ ScrollLock.frac (ScrollLock.scrollY (pg s)) = ""%string)
  ∨ (ScrollLock.plugin_lookup (pg s) = ScrollLock.Found
     ∧ ScrollLock.m_scrollTop (ScrollLock.plugin (pg s)) = ScrollLock.Works
     ∧ ScrollLock.m_scrollTo (ScrollLock.plugin (pg s)) = ScrollLock.Works) →
  ScrollLock.visible_offset
    (pg (state_of (closeLightbox B t2 (openLightbox B t1 d s))))
  = ScrollLock.visible_offset (pg s).
Proof.
  intros Hcase. rewrite closeLightbox_page. unfold openLightbox.
  destruct (loadVideo_page B t1 (d ≫= mainVideo) (negb (restricted B))
              (with_scroll ScrollLock.lock
                 (with_classes (λ c, c ∪ {["active"]})
                    (with_lbl (set_videoTitle (default ""%string (d ≫= title))) s))))
    as [-> ->].
  rewrite with_scroll_flat. cbn [sl pg with_classes with_lbl].
  destruct Hcase as [(Hl & Hs & Hf)|(Hl & Ht & Ho)].
  - by apply ScrollFacts.native_round_trip_whole.
  - by apply (ScrollFacts.plugin_round_trip (sl s) (pg s)).
Qed.

End CloseFacts.

(** ** [loadVideo]: the paths that fail at once *)

Module LoadFacts.
Import JsNum Timers Lightbox TimersFacts LightboxFacts ReadyFacts.

Lemma showError_enters (s : lightbox) :
  furnished s →
  (∀ u, u ∈ pending (tq s) → is_reveal (cb u) = false) →
  ∀ fuel horizon,
    error_shown (run fuel horizon (showError s))
    ∧ controls_hidden (run fuel horizon (showError s)).
Proof.
  intros [[cl Hcl] [d Hd]] Hq fuel horizon.
  destruct (showError_effect s) as (Se & Sc & _).
  split.
  - exists (cl ∪ {["active"]}). rewrite run_error, Se, Hcl. split; [done|].
    set_solver.
  - apply run_quiet. split.
    + unfold controls_hidden. by rewrite Sc, Hd.
    + intros u Hu. apply showError_pending in Hu. by apply Hq.
Qed.

(** X15.  [loadVideo] with the test sentinel as id, or without an iframe,
    or with a [Vimeo.Player] constructor that throws: no player is created
    and the SDK is not touched; the error placeholder is shown and the
    controls are hidden, and both stay so while timers run, since these
    paths return before the reveal of the controls is scheduled. *)
Theorem loadVideo_fails_closed (B : browser) (now : Z) (vimeoId : option string)
  (a : bool) (s : lightbox) :
  furnished s →
  (∀ u, u ∈ pending (tq s) → is_reveal (cb u) = false) →
  vimeoId = Some "INVALID_VIDEO_ID_FOR_TESTING"%string
  ∨ videoFrame (ses s) = None
  ∨ constructor_throws B (fresh (ext s)) = true →
  let s1 := loadVideo B now vimeoId a s in
  ext s1 = ext s
  ∧ currentPlayer (ses s1) = currentPlayer (ses s)
  ∧ ∀ fuel horizon,
      error_shown (run fuel horizon s1) ∧ controls_hidden (run fuel horizon s1).
Proof.
  intros [[cl Hcl] [d Hd]] Hq Hcase. cbv zeta.
  destruct (primed_effect now s) as (Pc & Pe & Pt & Pq).
  destruct (primed_session now s) as [Pp Pv].
  pose proof (primed_ext now s) as Px.
  assert (Hfur : ∀ x, ui x = ui (primed now s) → furnished x).
  { intros x E. unfold furnished. rewrite E, Pe, Pc, Hcl, Hd. split; by eexists. }
  assert (Hquiet : ∀ x, tq x = tq (primed now s) →
            ∀ u, u ∈ pending (tq x) → is_reveal (cb u) = false).
  { intros x E u. rewrite E. destruct Pq as [[-> _]|[-> _]]; [apply Hq|].
    intros Hu. apply elem_of_setTimeout in Hu as [Hu| ->]; [by apply Hq|done]. }
  assert (Hfail : ∀ x, ui x = ui (primed now s) → tq x = tq (primed now s) →
            ext x = ext s → currentPlayer (ses x) = currentPlayer (ses s) →
            ext (showError x) = ext s
            ∧ currentPlayer (ses (showError x)) = currentPlayer (ses s)
            ∧ ∀ fuel horizon,
                error_shown (run fuel horizon (showError x))
                ∧ controls_hidden (run fuel horizon (showError x))).
  { intros x Eu Eq Ex Ep. rewrite ext_showError, ses_showError.
    split; [done|]. split; [done|].
    apply showError_enters; [by apply Hfur|by apply Hquiet]. }
  rewrite loadVideo_unfold. cbv zeta.
  destruct (bool_decide (vimeoId = Some "INVALID_VIDEO_ID_FOR_TESTING"%string))
    eqn:Hid.
  { by apply Hfail. }
  apply bool_decide_eq_false in Hid.
  destruct (videoFrame (ses (primed now s))) as [f|] eqn:Hf.
  2: { by apply Hfail. }
  destruct Hcase as [Hc|[Hc|Hc]]; [done| |].
  { rewrite Hc in Pv. rewrite Pv in Hf. done. }
  cbn [ext with_ses]. rewrite Px, Hc.
  by apply Hfail.
Qed.

End LoadFacts.

(** ** The loading indicator *)

Module LoaderFacts.
Import JsNum Timers Lightbox TimersFacts LightboxFacts ReadyFacts Flat.

(** The loading indicator is on screen, or not. *)
Definition loader_on (s : lightbox) : Prop :=
  ∃ cl, loading (ui s) = Some cl ∧ "active" ∈ cl.

Definition loader_off (s : lightbox) : Prop :=
  ∀ cl, loading (ui s) = Some cl → "active" ∉ cl.

Definition is_loader (c : callback) : bool :=
  match c with CbRevealLoading => true | _ => false end.

Lemma fire_loader tm s :
  allowLoader (ui (fire tm s)) = allowLoader (ui s)
  ∧ loading (ui (fire tm s))
    = (if is_loader (cb tm) && allowLoader (ui s)
       then add_class "active" (loading (ui s)) else loading (ui s)).
Proof.
  unfold fire. destruct (cb tm); cbn [is_loader andb]; try done.
  - unfold hideCenterToast. by rewrite ui_with_toast.
  - unfold revealLoading. cbn [ui with_ui set_loadingTimeoutId allowLoader].
    destruct (allowLoader (ui s)) eqn:E;
      cbn [ui with_ui set_loading set_loadingTimeoutId allowLoader loading];
      rewrite ?E; done.
Qed.

Lemma removed_off (o : option (gset string)) (cl : gset string) :
  remove_class "active" o = Some cl → "active" ∉ cl.
Proof. destruct o as [c|]; [|done]. intros [= <-]. set_solver. Qed.

Lemma hideLoading_loader s :
  allowLoader (ui (hideLoading s)) = allowLoader (ui s)
  ∧ (loading (ui (hideLoading s)) = remove_class "active" (loading (ui s))).
Proof.
  unfold hideLoading. destruct (loading (ui s)) eqn:E; [|by rewrite E].
  destruct (loadingTimeoutId (ui s));
    cbn [ui with_ui with_tq set_loading set_loadingTimeoutId allowLoader loading];
    rewrite ?E; done.
Qed.

Lemma showError_loader s :
  allowLoader (ui (showError s)) = allowLoader (ui s)
  ∧ (loading (ui (showError s)) = remove_class "active" (loading (ui s))).
Proof.
  destruct (hideLoading_loader s) as [A1 A2]. unfold showError, hideControls.
  cbn [ui with_ui set_controls set_errorPlaceholder allowLoader loading]. done.
Qed.

Section Ready.
Variable B : browser.

Lemma ui_call_caught c s : ui (state_of (call_caught B c s)) = ui s.
Proof.
  unfold call_caught. destruct (currentPlayer (ses s)); [|done].
  by destruct (settles _ _ _ _).
Qed.

Lemma ui_call_bare c s : ui (state_of (call_bare B c s)) = ui s.
Proof.
  unfold call_bare. destruct (currentPlayer (ses s)); [|done].
  by destruct (settles _ _ _ _).
Qed.

(** [setupPlayerEvents] changes nothing of the chrome but the display of
    the controls. *)
Lemma setupPlayerEvents_loader s :
  allowLoader (ui (state_of (setupPlayerEvents B s))) = allowLoader (ui s)
  ∧ loading (ui (state_of (setupPlayerEvents B s))) = loading (ui s).
Proof.
  unfold setupPlayerEvents. destruct (currentPlayer (ses s)); [|done].
  set (s0 := showControls s).
  assert (H0 : allowLoader (ui s0) = allowLoader (ui s)
               ∧ loading (ui s0) = loading (ui s)) by done.
  clearbody s0.
  pose proof (ui_call_caught (On "play") s0) as E1.
  destruct (call_caught B (On "play") s0) as [s1|s1]; cbn [and_then state_of] in *;
    [|by rewrite E1].
  pose proof (ui_call_caught (On "pause") s1) as E2.
  destruct (call_caught B (On "pause") s1) as [s2|s2]; cbn [and_then state_of] in *;
    [|by rewrite E2, E1].
  pose proof (ui_call_caught (On "volumechange") s2) as E3.
  set (s3 := state_of (call_caught B (On "volumechange") s2)) in *. clearbody s3.
  pose proof (ui_call_caught (On "timeupdate") s3) as E4.
  destruct (call_caught B (On "timeupdate") s3) as [s4|s4];
    cbn [and_then state_of] in *; [|by rewrite E4, E3, E2, E1].
  by rewrite ui_call_bare, E4, E3, E2, E1.
Qed.

Lemma on_ready_loader now s :
  allowLoader (ui (on_ready B now s)) = false
  ∧ loader_off (on_ready B now s).
Proof.
  unfold on_ready.
  set (s1 := hideLoading (with_ui (set_allowLoader false) s)).
  assert (H1 : allowLoader (ui s1) = false
               ∧ ∀ cl, loading (ui s1) = Some cl → "active" ∉ cl).
  { subst s1.
    destruct (hideLoading_loader (with_ui (set_allowLoader false) s)) as [A1 A2].
    split; [by rewrite A1|]. intros cl. rewrite A2. apply removed_off. }
  clearbody s1. destruct H1 as [Ha Hl].
  destruct (setupPlayerEvents_loader s1) as [Sa Sl].
  destruct (setupPlayerEvents B s1) as [s2|s2]; cbn [state_of] in Sa, Sl.
  - assert (E : ui (if restricted B
                    then showCenterToast now "Tap to unmute" 1500
                           (state_of (call_caught B (SetVolume (of_Z 1))
                              (with_ses (λ x, set_videoFrame
                                 ((λ f, {| src := src f; frame_opacity := "1" |})
                                    <$> videoFrame x) x) s2)))
                    else state_of (call_caught B (SetVolume (of_Z 1))
                              (with_ses (λ x, set_videoFrame
                                 ((λ f, {| src := src f; frame_opacity := "1" |})
                                    <$> videoFrame x) x) s2))) = ui s2).
    { destruct (restricted B); [unfold showCenterToast; rewrite ui_with_toast|];
        by rewrite ui_call_caught. }
    unfold loader_off. rewrite E, Sa, Sl. by split.
  - unfold on_ready_rejected. destruct (showError_loader s2) as [A1 A2].
    split; [by rewrite A1, Sa|]. intros cl. rewrite A2. apply removed_off.
Qed.

End Ready.

(** Once [allowLoader] is off, no timer shows the loader. *)
Lemma run_loader_off (fuel : nat) (horizon : Z) (s : lightbox) :
  allowLoader (ui s) = false → loader_off s →
  allowLoader (ui (run fuel horizon s)) = false ∧ loader_off (run fuel horizon s).
Proof.
  intros Ha Hl.
  apply (run_keeps (λ x, allowLoader (ui x) = false ∧ loader_off x)); [|done].
  intros tm w [Wa Wl] _ _.
  destruct (fire_loader tm (popped tm w)) as [Fa Fl].
  unfold loader_off. rewrite Fa, Fl. unfold popped. cbn [ui with_tq].
  rewrite Wa, andb_false_r. by split.
Qed.

(** X17.  Once the [ready()] continuation has run, the loading indicator
    is off and no timer puts it on again, whatever the state before. *)
Theorem loader_hidden_after_ready (B : browser) (now : Z) (s : lightbox)
  (fuel : nat) (horizon : Z) :
  loader_off (run fuel horizon (on_ready B now s)).
Proof.
  destruct (on_ready_loader B now s) as [Ha Hl].
  by apply run_loader_off.
Qed.

(** What [loadVideo]'s first statements do to the loader when its element
    exists and no reveal is scheduled. *)
Lemma primed_loader now s cl :
  loading (ui s) = Some cl → loadingTimeoutId (ui s) = None →
  tq (primed now s) = snd (setTimeout now CbRevealLoading 600 (tq s))
  ∧ loadingTimeoutId (ui (primed now s)) = Some (next_id (tq s))
  ∧ loading (ui (primed now s)) = Some cl
  ∧ allowLoader (ui (primed now s)) = true.
Proof.
  flat s. cbn [ui loading loadingTimeoutId]. intros -> ->.
  unfold primed, hideControls, hideError, showControls, showLoading. crunch.
  done.
Qed.

Section Waiting.

(** [mine] is the loader's reveal timer. *)
Variable mine : timer.
Hypothesis mine_loader : cb mine = CbRevealLoading.

Definition waiting_or_on (s : lightbox) : Prop :=
  wf (tq s) ∧ allowLoader (ui s) = true ∧ is_Some (loading (ui s))
  ∧ ((mine ∈ pending (tq s) ∧ Toast.pauseTimeout (tst s) ≠ Some (tid mine))
     ∨ loader_on s).

Lemma loader_on_fire tm s : loader_on s → loader_on (fire tm s).
Proof.
  intros (cl & Hcl & Ha). destruct (fire_loader tm s) as [_ Fl].
  unfold loader_on. rewrite Fl, Hcl.
  destruct (is_loader (cb tm) && allowLoader (ui s)); [|by exists cl].
  exists (cl ∪ {["active"]}). split; [done|]. set_solver.
Qed.

Lemma waiting_or_on_fire tm s :
  waiting_or_on s → tm ∈ pending (tq s) →
  waiting_or_on (fire tm (popped tm s)).
Proof.
  intros (Hw & Ha & Hl & Hcase) Hin.
  destruct (fire_loader tm (popped tm s)) as [Fa Fl].
  destruct (fire_effect tm (popped tm s)) as (_ & _ & Fq & Fp & _).
  assert (Hw' : wf (tq (fire tm (popped tm s)))).
  { apply wf_fire. unfold popped. cbn [tq with_tq]. by apply wf_clearTimeout. }
  assert (Hl' : is_Some (loading (ui (fire tm (popped tm s))))).
  { rewrite Fl. unfold popped. cbn [ui with_tq].
    destruct (_ && _); [|done]. destruct Hl as [c ->]. by eexists. }
  split; [done|]. split; [by rewrite Fa|]. split; [done|].
  destruct Hcase as [[Hm Hp]|Hon].
  - destruct (decide (tid tm = tid mine)) as [E|Hne].
    + assert (tm = mine) by by apply (wf_tid_inj (tq s)). subst tm.
      right. unfold loader_on. rewrite Fl, mine_loader. unfold popped.
      cbn [ui with_tq is_loader andb]. rewrite Ha. destruct Hl as [c ->].
      exists (c ∪ {["active"]}). split; [done|]. set_solver.
    + left. split.
      * assert (Hm' : mine ∈ pending (tq (popped tm s))).
        { unfold popped. cbn [tq with_tq]. apply elem_of_clearTimeout. by split. }
        destruct Fq as [->|(id & Hid & ->)]; [done|].
        apply elem_of_clearTimeout. split; [|done]. intros E. apply Hp.
        unfold popped in Hid. cbn [tst with_tq] in Hid. by rewrite Hid, E.
      * destruct Fp as [->| ->]; [done|]. exact Hp.
  - right. apply loader_on_fire. exact Hon.
Qed.

Lemma run_waiting_or_on (fuel : nat) (horizon : Z) (s : lightbox) :
  waiting_or_on s → waiting_or_on (run fuel horizon s).
Proof.
  apply run_keeps. intros tm w Hw Hin _. by apply waiting_or_on_fire.
Qed.

End Waiting.

(** Before any reveal is due the loader stays as it is. *)
Definition not_yet (limit : Z) (s : lightbox) : Prop :=
  loader_off s
  ∧ ∀ u, u ∈ pending (tq s) → is_loader (cb u) = true → limit <= due u.

Lemma run_not_yet (limit : Z) (fuel : nat) (horizon : Z) (s : lightbox) :
  horizon < limit → not_yet limit s → not_yet limit (run fuel horizon s).
Proof.
  intros Hh. apply run_keeps. intros tm w [Wl Wq] Hin Hdue.
  destruct (fire_loader tm (popped tm w)) as [_ Fl].
  assert (Hnl : is_loader (cb tm) = false).
  { destruct (is_loader (cb tm)) eqn:E; [|done]. specialize (Wq tm Hin E). lia. }
  split.
  - unfold loader_off. rewrite Fl, Hnl. exact Wl.
  - intros u Hu. apply pending_fire in Hu. unfold popped in Hu.
    cbn [tq with_tq] in Hu. apply elem_of_clearTimeout in Hu as [_ Hu].
    by apply Wq.
Qed.

(** X16.  The loading indicator after [loadVideo]: it is not shown during
    the first 600 ms, and it is shown from 600 ms on as long as [ready()]
    has not resolved. *)
Theorem loader_waits_600ms (B : browser) (s : lightbox) (vimeoId : option string)
  (a : bool) (now : Z) (cl : gset string) :
  ready_to_load B s vimeoId →
  loading (ui s) = Some cl → "active" ∉ cl → loadingTimeoutId (ui s) = None →
  (∀ u, u ∈ pending (tq s) → is_loader (cb u) = false) →
  let s1 := loadVideo B now vimeoId a s in
  (∀ fuel horizon, horizon < now + 600 → loader_off (run fuel horizon s1))
  ∧ (∀ fuel horizon, now + 600 <= horizon →
       (length (pending (tq s)) + 2 ≤ fuel)%nat →
       loader_on (run fuel horizon s1)).
Proof.
  intros (_ & Hw & (Kp & _) & _ & [f Hf] & Hid & Hctor & Hready) Hcl Hoff Hlt Hq.
  cbv zeta.
  destruct (loadVideo_reaches_ready B now vimeoId a s f Hf Hid Hctor Hready)
    as (s' & -> & (U & Q & T)).
  destruct (primed_loader now s cl Hcl Hlt) as (Pq & Pl & Pc & Pa).
  destruct (primed_effect now s) as (_ & _ & Pt & _).
  set (mine := {| tid := next_id (tq s); due := now + Z.max 0 600;
                  cb := CbRevealLoading |}).
  set (q1 := snd (setTimeout now CbRevealLoading 600 (tq s))).
  assert (Hq1 : tq s' = q1) by (by rewrite Q, Pq).
  assert (Hw1 : wf q1) by (by apply wf_setTimeout).
  split.
  - intros fuel horizon Hh.
    apply (run_not_yet (now + 600) fuel horizon); [done|]. split.
    + unfold loader_off. cbn [ui with_tq]. rewrite U, Pc. by intros c [= <-].
    + intros u Hu Hlo. cbn [tq with_tq] in Hu. rewrite Hq1 in Hu.
      apply elem_of_setTimeout in Hu as [Hu| ->]; [|done].
      apply elem_of_setTimeout in Hu as [Hu| ->]; [|simpl; lia].
      by rewrite (Hq u Hu) in Hlo.
  - intros fuel horizon Hh Hfuel.
    assert (Hinv : waiting_or_on mine
              (with_tq (λ _, snd (setTimeout now CbShowControls 300 (tq s'))) s')).
    { split; [|split; [|split]].
      - cbn [tq with_tq]. rewrite Hq1. by apply wf_setTimeout.
      - cbn [ui with_tq]. by rewrite U.
      - cbn [ui with_tq]. rewrite U, Pc. by eexists.
      - left. split.
        + cbn [tq with_tq]. rewrite Hq1. apply elem_of_setTimeout. left.
          apply elem_of_setTimeout. by right.
        + cbn [tst with_tq]. rewrite T, Pt. intros E. specialize (Kp _ E).
          cbn [tid mine] in Kp. lia. }
    pose proof (run_waiting_or_on mine eq_refl fuel horizon _ Hinv)
      as (_ & _ & _ & [[Hm _]|Hon]); [|done].
    exfalso.
    assert (Hlen : (length (pending (tq (with_tq
               (λ _, snd (setTimeout now CbShowControls 300 (tq s'))) s'))) ≤ fuel)%nat).
    { cbn [tq with_tq]. rewrite Hq1. cbn. rewrite !length_app. cbn. lia. }
    pose proof (run_empties horizon fuel _ mine Hlen Hm) as Hd.
    cbn [due mine] in Hd. lia.
Qed.

End LoaderFacts.

(** ** Seeking from the timeline *)

Module SeekFacts.
Import JsNum Timers Lightbox Flat TimelineFacts.

Local Open Scope Q_scope.

Lemma scaled_range (p d : Q) : 0 <= p <= 1 → 0 <= d → 0 <= p * d <= d.
Proof. intros [H0 H1] Hd. split; nra. Qed.

(** X18.  A click on the timeline with a player, a known positive
    duration and a track of positive width: one [setCurrentTime] is sent, for
    the clamped fraction of the duration, which lies between 0 and the
    duration; the fill and the handle are put at the same fraction, between
    0% and 100%. *)
Theorem click_seeks_within_duration (B : browser) (x : Q) (s : lightbox)
  (h : nat) (r : rect) (d : Q) (w l : css) :
  currentPlayer (ses s) = Some h → videoDuration (ses s) = Fin d → 0 < d →
  timelineTrack (tl s) = Some r → 0 < width r →
  timelineProgress (tl s) = Some w → timelineHandle (tl s) = Some l →
  (∀ c, settles B (log (ext s)) h c ≠ ThrowsSync) →
  let p := Qmax 0 (Qmin 1 ((x - left r) / width r)) in
  ∃ s', handleTimelineClick B x s = Done s'
    ∧ log (ext s') = (log (ext s) ++ [(h, SetCurrentTime (Fin (p * d)))])%list
    ∧ 0 <= p * d <= d
    ∧ timelineProgress (tl s') = Some (CssPercent (Fin (p * inject_Z 100)))
    ∧ timelineHandle (tl s') = Some (CssPercent (Fin (p * inject_Z 100)))
    ∧ 0 <= p * inject_Z 100 <= inject_Z 100.
Proof.
  flat s. cbn [ses tl ext currentPlayer videoDuration timelineTrack
               timelineProgress timelineHandle].
  intros -> -> Hd -> Hw -> -> Hs. cbv zeta.
  pose proof (cut_range ((x - left r) / width r)) as Hp.
  unfold handleTimelineClick, call_bare, updateTimelinePosition. crunch.
  unfold is_zero. rewrite (Qis_zero_pos d Hd).
  rewrite (click_percentage_value x r Hw). cbn [mul of_Z].
  specialize (Hs (SetCurrentTime (Fin (Qmax 0 (Qmin 1 ((x - left r) / width r)) * d)))).
  destruct (settles B _ h _); [| |done]; crunch.
  all: unfold assign_width, assign_left.
  all: assert (Hle : Qle_bool 0 (Qmax 0 (Qmin 1 ((x - left r) / width r)) * inject_Z 100)
                     = true)
         by (apply Qle_bool_iff; apply (scaled_range _ (inject_Z 100) Hp); done).
  all: rewrite Hle.
  all: eexists; split; [reflexivity|]; split; [reflexivity|].
  all: split; [apply scaled_range; [done|by apply Qlt_le_weak]|].
  all: split; [reflexivity|]; split; [reflexivity|].
  all: by apply scaled_range.
Qed.

(** The fraction on a track of no width. *)
Lemma click_percentage_collapsed (x : Q) (r : rect) :
  width r == 0 →
  (x == left r → click_percentage x r = NaN)
  ∧ (left r < x → click_percentage x r = of_Z 1)
  ∧ (x < left r → click_percentage x r = of_Z 0).
Proof.
  intros Hw. unfold click_percentage, div. rewrite (Qis_zero_true _ Hw).
  split; [|split]; intros Hx.
  - rewrite Qis_zero_true by lra. done.
  - rewrite Qis_zero_false by lra. unfold Qsign_pos.
    destruct (Qlt_le_dec 0 (x - left r)); [done|lra].
  - rewrite Qis_zero_false by lra. unfold Qsign_pos.
    destruct (Qlt_le_dec 0 (x - left r)); [lra|done].
Qed.

(** X19.  A click on a track of no width, at its left edge: the fraction
    is [0/0], so [setCurrentTime(NaN)] is sent, and the fill and the handle
    keep their positions, the value [NaN%] not being a length. *)
Theorem click_on_collapsed_track (B : browser) (x : Q) (s : lightbox)
  (h : nat) (r : rect) :
  currentPlayer (ses s) = Some h → is_zero (videoDuration (ses s)) = false →
  timelineTrack (tl s) = Some r → width r == 0 → x == left r →
  let s' := state_of (handleTimelineClick B x s) in
  log (ext s') = (log (ext s) ++ [(h, SetCurrentTime NaN)])%list
  ∧ timelineProgress (tl s') = timelineProgress (tl s)
  ∧ timelineHandle (tl s') = timelineHandle (tl s).
Proof.
  flat s. cbn [ses tl ext currentPlayer videoDuration timelineTrack].
  intros -> Hz -> Hw Hx. cbv zeta.
  destruct (click_percentage_collapsed x r Hw) as (Hnan & _).
  unfold handleTimelineClick, call_bare, updateTimelinePosition. crunch.
  rewrite Hz, (Hnan Hx).
  assert (E : ∀ v, mul NaN v = NaN) by (by intros []).
  rewrite !E. cases B; done.
Qed.

End SeekFacts.

(** ** Preview tiles: reloads and re-initialisation *)

Module RefreshFacts.
Import Timers Previews TimersFacts PreviewFacts.

(** A timer that is none of the tile's checks. *)
Definition foreign (u : timer) : Prop :=
  match cb u with
  | CbPreviewTimeout | CbPreviewSettle _ => False
  | _ => True
  end.

Lemma fire_foreign E tm w : foreign tm → fire E tm w = w.
Proof. unfold foreign, fire. by destruct (cb tm). Qed.

Lemma frames_fire E tm w : frames (fst (fire E tm w)) = frames (fst w).
Proof.
  unfold fire. destruct (cb tm); try done; cbn [fst].
  - unfold on_timeout. destruct (negb _); [done|]. by destruct (negb _).
  - unfold on_settle. destruct (negb _); [done|].
    destruct (frame_size E frame (due tm)) as [a b]. by destruct (_ || _).
Qed.

Lemma find_frame_elem fr x f : find_frame fr x = Some f → f ∈ frames x.
Proof.
  unfold find_frame. intros H. apply find_some in H as [H _].
  by apply list_elem_of_In.
Qed.

Lemma failed_happen now e w :
  failed (fst w) = true → failed (fst (happen now e w)) = true.
Proof.
  intros Hf. destruct e as [fr|fr|id]; cbn [happen].
  - destruct (find_frame fr (fst w)); [|done]. unfold on_load.
    by destruct (setTimeout _ _ _ _).
  - destruct (find_frame fr (fst w)); [|done]. apply failed_mark.
  - unfold reinitialize, createLoopVideoIframe.
    by destruct (Embed.loop_id_usable id).
Qed.

Section Stale.
Variable E : surroundings.

(** [mine] is a failure check that is due while the tile is visible. *)
Variable mine : timer.
Hypothesis mine_check : cb mine = CbPreviewTimeout.
Hypothesis mine_seen : visible_at E (due mine) = true.

(** The check is pending and no iframe of the tile holds its id, or the
    tile is marked already. *)
Definition doomed (w : tile * queue) : Prop :=
  wf (snd w)
  ∧ (failed (fst w) = true
     ∨ (mine ∈ pending (snd w)
        ∧ Forall (λ f, errorTimeout f ≠ tid mine) (frames (fst w)))).

Lemma doomed_fire tm w :
  doomed w → tm ∈ pending (snd w) →
  doomed (fire E tm (fst w, clearTimeout (tid tm) (snd w))).
Proof.
  intros [Hw Hcase] Htm. split.
  { rewrite fire_queue. cbn [snd]. by apply wf_clearTimeout. }
  destruct Hcase as [Hf|[Hm Hfr]]; [left; by apply fire_keeps|].
  destruct (decide (tid tm = tid mine)) as [Eq|Hne].
  - assert (tm = mine) by by apply (wf_tid_inj (snd w)). subst tm.
    left. unfold fire. rewrite mine_check. cbn [fst].
    by apply on_timeout_visible.
  - right. rewrite fire_queue, frames_fire. cbn [fst snd]. split; [|done].
    apply elem_of_clearTimeout. by split.
Qed.

Lemma doomed_run fuel horizon w : doomed w → doomed (run E fuel horizon w).
Proof.
  apply tile_run_keeps. intros tm w' Hw' Hin _. by apply doomed_fire.
Qed.

Lemma tid_below (q : queue) (u : timer) : wf q → u ∈ pending q → (tid u < next_id q)%nat.
Proof. intros [Hlt _] Hu. by apply (proj1 (Forall_forall _ _) Hlt). Qed.

Lemma doomed_reinitialize now id w :
  wf (snd w) → failed (fst w) = true ∨ mine ∈ pending (snd w) →
  doomed (reinitialize now id (fst w) (snd w)).
Proof.
  intros Hw Hcase. unfold reinitialize, createLoopVideoIframe.
  destruct (Embed.loop_id_usable id) as [i|].
  - cbn [fst snd]. split; [by apply wf_setTimeout|].
    destruct Hcase as [Hf|Hm]; [by left|right]. split.
    + apply elem_of_setTimeout. by left.
    + cbn [frames has_img].
      assert (Hne : next_id (snd w) ≠ tid mine).
      { pose proof (tid_below _ _ Hw Hm). lia. }
      destruct (has_img (fst w)); by apply Forall_singleton.
  - split; [done|]. destruct Hcase as [Hf|Hm]; [by left|right].
    split; [done|]. cbn [fst frames]. apply Forall_nil_2.
Qed.

Lemma doomed_happen now e w : doomed w → doomed (happen now e w).
Proof.
  intros [Hw Hcase]. destruct e as [fr|fr|id]; cbn [happen].
  - destruct (find_frame fr (fst w)) as [f|] eqn:Hf; [|by split].
    unfold on_load. cbn [fst snd]. split.
    { apply wf_setTimeout. by apply wf_clearTimeout. }
    destruct Hcase as [Hfa|[Hm Hfr]]; [by left|right]. split; [|done].
    apply elem_of_setTimeout. left. apply elem_of_clearTimeout. split; [|done].
    apply find_frame_elem in Hf.
    intros Eq. by apply (proj1 (Forall_forall _ _) Hfr f Hf).
  - destruct (find_frame fr (fst w)); [|by split].
    split; [done|]. left. apply failed_mark.
  - apply doomed_reinitialize; [done|]. destruct Hcase as [?|[? _]]; [by left|by right].
Qed.

Lemma doomed_play events horizon w :
  doomed w → doomed (play E events horizon w).
Proof.
  revert w. induction events as [|[t e] rest IH]; intros w Hd; cbn [play].
  - by apply doomed_run.
  - apply IH. apply doomed_happen. by apply doomed_run.
Qed.

Lemma doomed_fails events horizon w :
  doomed w → due mine <= horizon →
  failed (fst (play E events horizon w)) = true.
Proof.
  revert w. induction events as [|[t e] rest IH]; intros w Hd Hh; cbn [play].
  - destruct (doomed_run (length (pending (snd w))) horizon w Hd)
      as [_ [Hf|[Hm _]]]; [done|].
    pose proof (tile_run_empties E horizon _ w mine (Nat.le_refl _) Hm). lia.
  - apply IH; [|done]. apply doomed_happen. by apply doomed_run.
Qed.

End Stale.

(** X20.  Re-initialising a thumbnail removes its iframes but cancels no
    timer: the 5 s check armed for an iframe at [t0] still runs at
    [t0 + 5000] after the iframe was replaced, and marks the tile failed
    when the tile is visible then, whatever happens to the new iframes. *)
Theorem check_outlives_its_iframe (E : surroundings) (t0 t1 : Z)
  (id1 id2 : option string) (i1 : string) (x : tile) (q : queue)
  (rest : list (Z * happening)) (horizon : Z) :
  Embed.loop_id_usable id1 = Some i1 → wf q →
  t1 < t0 + 5000 → visible_at E (t0 + 5000) = true → t0 + 5000 <= horizon →
  failed (fst (play E ((t1, Reinitialize id2) :: rest) horizon
                 (createLoopVideoIframe t0 id1 x q))) = true.
Proof.
  intros Hid Hw Ht Hv Hh.
  set (mine := {| tid := next_id q; due := t0 + Z.max 0 5000;
                  cb := CbPreviewTimeout |}).
  assert (Hw0 : createLoopVideoIframe t0 id1 x q
    = (fst (createLoopVideoIframe t0 id1 x q),
       snd (setTimeout t0 CbPreviewTimeout 5000 q))).
  { unfold createLoopVideoIframe. by rewrite Hid. }
  set (w0 := createLoopVideoIframe t0 id1 x q) in *.
  assert (Hwf0 : wf (snd w0)) by (rewrite Hw0; by apply wf_setTimeout).
  assert (Hin0 : mine ∈ pending (snd w0)).
  { rewrite Hw0. apply elem_of_setTimeout. by right. }
  cbn [play].
  set (w1 := run E (length (pending (snd w0))) t1 w0).
  assert (H1 : wf (snd w1) ∧ mine ∈ pending (snd w1)).
  { subst w1. split; [|apply run_pending; [cbn; lia|done..]].
    apply (tile_run_keeps E (λ w, wf (snd w))); [|done].
    intros tm w Hwf _ _. rewrite fire_queue. by apply wf_clearTimeout. }
  destruct H1 as [Hwf1 Hin1].
  apply (doomed_fails E mine eq_refl); [exact Hv| |cbn; lia].
  cbn [happen]. apply doomed_reinitialize; [done|by right].
Qed.

Section Loaded.
Variable E : surroundings.

(** The tile is [x1] while the timer [mine] is pending among foreign
    timers. *)
Definition held (x1 : tile) (mine : timer) (w : tile * queue) : Prop :=
  fst w = x1 ∧ wf (snd w) ∧ mine ∈ pending (snd w)
  ∧ ∀ u, u ∈ pending (snd w) → u = mine ∨ foreign u.

Lemma held_run x1 mine fuel horizon w :
  horizon < due mine → held x1 mine w → held x1 mine (run E fuel horizon w).
Proof.
  intros Hh. apply tile_run_keeps. intros tm w' (Hx & Hw & Hm & Hall) Hin Hdue.
  assert (Hne : tm ≠ mine) by (intros ->; lia).
  destruct (Hall tm Hin) as [->|Hfo]; [done|].
  rewrite fire_foreign by done. split; [done|]. cbn [snd].
  split; [by apply wf_clearTimeout|]. split.
  - apply elem_of_clearTimeout. split; [|done]. intros Eq. apply Hne.
    by apply (wf_tid_inj (snd w')).
  - intros u Hu. apply elem_of_clearTimeout in Hu as [_ Hu]. by apply Hall.
Qed.

(** The settle check [mine] is pending and the tile is [x1], or it has run
    and the tile is [x2]. *)
Definition settling (x1 x2 : tile) (mine : timer) (w : tile * queue) : Prop :=
  wf (snd w)
  ∧ (∀ u, u ∈ pending (snd w) → u = mine ∨ foreign u)
  ∧ ((fst w = x1 ∧ mine ∈ pending (snd w))
     ∨ (fst w = x2 ∧ ∀ u, u ∈ pending (snd w) → foreign u)).

Lemma settling_run x1 mine fuel horizon w fr :
  cb mine = CbPreviewSettle fr →
  settling x1 (on_settle E (due mine) fr x1) mine w →
  settling x1 (on_settle E (due mine) fr x1) mine (run E fuel horizon w).
Proof.
  intros Hcb. apply tile_run_keeps. intros tm w' (Hw & Hall & Hcase) Hin _.
  assert (Hw' : wf (clearTimeout (tid tm) (snd w'))) by by apply wf_clearTimeout.
  assert (Hall' : ∀ u, u ∈ pending (clearTimeout (tid tm) (snd w')) →
                       u = mine ∨ foreign u).
  { intros u Hu. apply elem_of_clearTimeout in Hu as [_ Hu]. by apply Hall. }
  destruct (Hall tm Hin) as [->|Hfo].
  - destruct Hcase as [[Hx Hm]|[Hx Hno]].
    + split; [by rewrite fire_queue|]. split; [by rewrite fire_queue|].
      right. unfold fire. rewrite Hcb. cbn [fst snd]. rewrite Hx. split; [done|].
      intros u Hu. apply elem_of_clearTimeout in Hu as [Hne Hu].
      destruct (Hall u Hu) as [->|Hf]; done.
    + specialize (Hno mine Hin). unfold foreign in Hno. by rewrite Hcb in Hno.
  - rewrite fire_foreign by done. split; [done|]. split; [done|]. cbn [fst snd].
    destruct Hcase as [[Hx Hm]|[Hx Hno]].
    + left. split; [done|]. apply elem_of_clearTimeout. split; [|done].
      intros Eq. assert (tm = mine) by by apply (wf_tid_inj (snd w')). subst tm.
      unfold foreign in Hfo. by rewrite Hcb in Hfo.
    + right. split; [done|]. intros u Hu.
      apply elem_of_clearTimeout in Hu as [_ Hu]. by apply Hno.
Qed.

End Loaded.

(** X21.  A preview iframe that fires [load] before its 5 s check is due:
    the check is cancelled and never runs; one settle check runs 1000 ms
    after the [load], and the tile ends as that check leaves it.  So the tile
    is marked failed exactly when it is visible at that moment and the
    iframe has no width or no height (or it was marked before). *)
Theorem load_replaces_check_by_settle (E : surroundings) (t0 tl horizon : Z)
  (id : option string) (i : string) (x : tile) (q : queue) :
  Embed.loop_id_usable id = Some i → wf q →
  (∀ u, u ∈ pending q → foreign u) →
  tl < t0 + 5000 → tl + 1000 <= horizon →
  let w0 := reinitialize t0 id x q in
  let w := play E [(tl, IframeLoad (next_fid x))] horizon w0 in
  fst w = on_settle E (tl + 1000) (next_fid x) (fst w0)
  ∧ (∀ u, u ∈ pending (snd w) → foreign u)
  ∧ failed (fst w)
    = failed x
      || (visible_at E (tl + 1000)
          && ((snd (frame_size E (next_fid x) (tl + 1000)) =? 0)%nat
              || (fst (frame_size E (next_fid x) (tl + 1000)) =? 0)%nat)).
Proof.
  intros Hid Hw Hfo Ht Hh. cbv zeta.
  set (mine := {| tid := next_id q; due := t0 + Z.max 0 5000;
                  cb := CbPreviewTimeout |}).
  set (new := {| fid := next_fid x; psrc := Embed.loop_src i;
                 errorTimeout := next_id q |}).
  set (x1 := {| classList := classList x; has_img := has_img x; frames := [new];
                cover := cover x; next_fid := S (next_fid x) |}).
  assert (Hw0 : reinitialize t0 id x q
                = (x1, snd (setTimeout t0 CbPreviewTimeout 5000 q))).
  { unfold reinitialize, createLoopVideoIframe. rewrite Hid. cbn.
    by destruct (has_img x). }
  rewrite Hw0. cbn [fst]. cbn [play].
  set (w0 := (x1, snd (setTimeout t0 CbPreviewTimeout 5000 q))).
  assert (H0 : held x1 mine w0).
  { split; [done|]. split; [by apply wf_setTimeout|]. split.
    - apply elem_of_setTimeout. by right.
    - intros u Hu. apply elem_of_setTimeout in Hu as [Hu| ->]; [right|left]; auto. }
  pose proof (held_run E x1 mine (length (pending (snd w0))) tl w0
                ltac:(cbn; lia) H0) as (Hx1 & Hwf1 & Hm1 & Hall1).
  set (w1 := run E (length (pending (snd w0))) tl w0) in *.
  assert (Hfind : find_frame (next_fid x) (fst w1) = Some new).
  { rewrite Hx1. unfold find_frame. cbn. by rewrite Nat.eqb_refl. }
  cbn [happen]. rewrite Hfind.
  set (q2 := clearTimeout (next_id q) (snd w1)).
  set (settle := {| tid := next_id q2; due := tl + Z.max 0 1000;
                    cb := CbPreviewSettle (next_fid x) |}).
  set (w2 := (fst w1, snd (setTimeout tl (CbPreviewSettle (next_fid x)) 1000 q2))).
  assert (Hload : on_load tl new (fst w1) (snd w1) = w2) by reflexivity.
  rewrite Hload. clear Hload.
  assert (Hwq2 : wf q2) by by apply wf_clearTimeout.
  assert (H2 : settling x1 (on_settle E (due settle) (next_fid x) x1) settle w2).
  { split; [by apply wf_setTimeout|]. split.
    - intros u Hu. apply elem_of_setTimeout in Hu as [Hu| ->]; [right|by left].
      apply elem_of_clearTimeout in Hu as [Hne Hu].
      destruct (Hall1 u Hu) as [->|Hf]; done.
    - left. split; [done|]. apply elem_of_setTimeout. by right. }
  pose proof (settling_run E x1 settle (length (pending (snd w2))) horizon w2
                (next_fid x) eq_refl H2) as (Hwf3 & Hall3 & Hcase).
  assert (Hend : fst (run E (length (pending (snd w2))) horizon w2)
                 = on_settle E (tl + 1000) (next_fid x) x1
                 ∧ ∀ u, u ∈ pending (snd (run E (length (pending (snd w2))) horizon w2))
                        → foreign u).
  { destruct Hcase as [[_ Hm]|[Hx Hno]]; [|done].
    pose proof (tile_run_empties E horizon _ w2 settle (Nat.le_refl _) Hm) as Hd.
    cbn [due settle] in Hd. lia. }
  destruct Hend as [-> Hno]. split; [done|]. split; [exact Hno|].
  unfold on_settle. destruct (visible_at E (tl + 1000)); cbn [negb andb];
    [|by rewrite orb_false_r].
  destruct (frame_size E (next_fid x) (tl + 1000)) as [a b]. cbn [fst snd].
  destruct ((b =? 0)%nat || (a =? 0)%nat).
  - rewrite failed_mark. by rewrite orb_true_r.
  - rewrite failed_hideStaticImageOnMobile. by rewrite orb_false_r.
Qed.

(** The cover image is hidden by an inline style. *)
Definition cover_hidden (x : tile) : Prop :=
  ∃ c, cover x = Some c ∧ cover_visibility c = "hidden"%string.

Section Wide.
Variable E : surroundings.
Hypothesis wide : ∀ t, Qle_bool (innerWidth (window_at E t)) 768 = false.

Lemma wide_fire tm w : ¬ cover_hidden (fst w) → ¬ cover_hidden (fst (fire E tm w)).
Proof.
  intros Hc. unfold fire. destruct (cb tm); try done; cbn [fst].
  - unfold on_timeout. destruct (negb _); [done|]. by destruct (negb _).
  - unfold on_settle. destruct (negb _); [done|].
    destruct (frame_size E frame (due tm)) as [a b].
    destruct (_ || _); [done|].
    unfold hideStaticImageOnMobile. rewrite wide. intros (c & Hcov & Hh).
    cbn [cover] in Hcov. destruct (cover (fst w)); [|done].
    injection Hcov as <-. done.
Qed.

Lemma wide_happen now e w :
  ¬ cover_hidden (fst w) → ¬ cover_hidden (fst (happen now e w)).
Proof.
  intros Hc. destruct e as [fr|fr|id]; cbn [happen].
  - destruct (find_frame fr (fst w)); [|done]. unfold on_load.
    by destruct (setTimeout _ _ _ _).
  - by destruct (find_frame fr (fst w)).
  - unfold reinitialize, createLoopVideoIframe.
    by destruct (Embed.loop_id_usable id).
Qed.

Lemma wide_run fuel horizon w :
  ¬ cover_hidden (fst w) → ¬ cover_hidden (fst (run E fuel horizon w)).
Proof.
  apply (tile_run_keeps E (λ w, ¬ cover_hidden (fst w))).
  intros tm w' Hw' _ _. by apply wide_fire.
Qed.

End Wide.

(** X22.  On a window that stays wider than 768 px the preview machinery
    never hides the static cover image, whatever the iframes do. *)
Theorem cover_stays_on_wide_windows (E : surroundings)
  (events : list (Z * happening)) (horizon : Z) (w : tile * queue) :
  (∀ t, Qle_bool (innerWidth (window_at E t)) 768 = false) →
  ¬ cover_hidden (fst w) → ¬ cover_hidden (fst (play E events horizon w)).
Proof.
  intros Hwide. revert w. induction events as [|[t e] rest IH]; intros w Hc;
    cbn [play].
  - by apply wide_run.
  - apply IH. apply wide_happen. by apply wide_run.
Qed.

End RefreshFacts.

(** ** The scroll lock: styles and plugin failures *)

Module UnlockFacts.
Import ScrollLock.

(** X23.  The inline styles over an open-then-close cycle without the
    plugin: [scroll-behavior] gets back the value it had before; [position],
    [top], [width] and the body's [overflow] end empty, whatever they were;
    the [lightbox-active] class is off both elements, and the class lists
    are what they were when they did not have it. *)
Theorem native_styles_after_cycle (th : fields) (p : page) :
  plugin_lookup p ≠ Found → hadSmoother th && smoother th = false →
  let p' := snd (unlock (fst (lock th p)) (snd (lock th p))) in
  html_scrollBehavior p' = html_scrollBehavior p
  ∧ html_position p' = ""%string ∧ html_top p' = ""%string
  ∧ html_width p' = ""%string ∧ body_overflow p' = ""%string
  ∧ ("lightbox-active" ∉ html_classes p') ∧ ("lightbox-active" ∉ body_classes p')
  ∧ ("lightbox-active" ∉ html_classes p → html_classes p' = html_classes p)
  ∧ ("lightbox-active" ∉ body_classes p → body_classes p' = body_classes p).
Proof.
  intros Hl Hs. cbv zeta.
  assert (Hlock : lock th p = native_lock th p).
  { unfold lock. by destruct (plugin_lookup p). }
  rewrite Hlock. unfold native_lock. cbn [fst snd]. unfold unlock.
  cbn [hadSmoother smoother]. rewrite Hs. unfold native_unlock.
  cbn [snd html_scrollBehavior html_position html_top html_width body_overflow
       html_classes body_classes prevScrollBehavior].
  repeat split; try done; set_solver.
Qed.

(** X24.  Closing when the plugin misbehaves.  If the plugin's [scrollTo]
    throws, the [paused(false)] call after it is skipped and the plugin is
    left paused; if [scrollTo] works the plugin is resumed.  If [scrollTop]
    was not usable at opening, the offset saved is 0, and a working
    [scrollTo] puts the page there. *)
Theorem plugin_unlock_fallbacks (th : fields) (p : page) :
  plugin_lookup p = Found → m_paused (plugin p) = Works →
  let p' := snd (unlock (fst (lock th p)) (snd (lock th p))) in
  (m_scrollTo (plugin p) = Throws → sm_paused (plugin p') = true
                                    ∧ sm_offset (plugin p') = sm_offset (plugin p))
  ∧ (m_scrollTo (plugin p) = Works → sm_paused (plugin p') = false)
  ∧ (m_scrollTo (plugin p) = Works → m_scrollTop (plugin p) ≠ Works →
     sm_offset (plugin p') = px 0).
Proof.
  intros Hl Hp. cbv zeta. unfold lock. rewrite Hl.
  destruct p as [sy ht hp hw hs hc bc bo lk [off pa mtop mto mpa]].
  cbn [plugin m_paused m_scrollTo m_scrollTop sm_offset] in *. subst mpa.
  unfold plugin_lock, unlock, plugin_unlock.
  cbn [fst snd plugin hadSmoother smoother andb m_paused m_scrollTo m_scrollTop
       sm_paused sm_offset savedSmootherY].
  split; [|split].
  - by intros ->.
  - by intros ->.
  - intros -> Ht. by destruct mtop.
Qed.

End UnlockFacts.

(** ** The [destroy] method *)

Module DestroyFacts.
Import JsNum Timers Lightbox HandleFacts.

(** X25.  The [destroy] method with an SDK whose [destroy()] returns: it
    leaves no player reference; a second call changes nothing; and when the
    live handles were exactly the current player, none is live after it. *)
Theorem destroy_is_idempotent (B : browser) (s : lightbox) :
  destroy_returns B →
  currentPlayer (ses (destroy B s)) = None
  ∧ destroy B (destroy B s) = destroy B s
  ∧ (tidy s → live (ext (destroy B s)) = ∅).
Proof.
  intros Hd.
  assert (Hnone : currentPlayer (ses (destroy B s)) = None).
  { unfold destroy. destruct (currentPlayer (ses s)) as [h|] eqn:Hp; [|done].
    specialize (Hd (log (ext s)) h).
    by destruct (settles B (log (ext s)) h Destroy). }
  split; [done|]. split.
  - unfold destroy at 1. by rewrite Hnone.
  - unfold tidy, destroy. destruct (currentPlayer (ses s)) as [h|] eqn:Hp; [|done].
    specialize (Hd (log (ext s)) h). intros Ht.
    destruct (settles B (log (ext s)) h Destroy); [| |done];
      cbn [ext with_ses with_ext destroyed live]; rewrite Ht; set_solver.
Qed.

End DestroyFacts.

(** ** Instances of the further properties *)

Module FurtherExamples.
Import JsNum Timers Lightbox.

(** 125 seconds print as two minutes and five seconds. *)
Lemma formatTime_minutes_seconds_witness :
  formatTime (Fin 125) = "2:05"%string
  ∧ String.length (padStart2 (int_text (Qfloor 125 mod 60))) = 2%nat.
Proof.
  destruct (FormatFacts.formatTime_minutes_seconds 125
              ltac:(by vm_compute) ltac:(by vm_compute)) as [H1 H2].
  split; [|exact H2]. rewrite H1. reflexivity.
Defined.

(** A thumbnail 100 px below the top of the window is visible and shares a
    point with the viewport. *)
Lemma isElementVisible_meets_witness :
  VisibleFacts.rectangle (Samples.box_at 100)
  ∧ Previews.isElementVisible (Some (Samples.box_at 100)) Samples.window800 = true
  ∧ VisibleFacts.meets (Samples.box_at 100) Samples.window800.
Proof.
  assert (R : VisibleFacts.rectangle (Samples.box_at 100))
    by (split; vm_compute; reflexivity).
  split; [exact R|]. split; [reflexivity|].
  destruct (proj1 (VisibleFacts.isElementVisible_meets (Samples.box_at 100)
                     Samples.window800 R ltac:(by vm_compute) ltac:(by vm_compute))
              eq_refl) as (_ & _ & _ & H).
  exact H.
Defined.

(** Without the API the script gives up at 2000 ms and not before. *)
Lemma api_wait_is_bounded_witness :
  Gate.errors (Gate.script Samples.offline_world 25 0 [] 2000)
  = ["Vimeo API failed to load"%string]
  ∧ Gate.errors (Gate.script Samples.offline_world 25 0 [] 1999) = [].
Proof.
  destruct (StartupFacts.api_wait_is_bounded Samples.offline_world 0 eq_refl
              (λ _ _, eq_refl)) as [Hlate Hearly].
  split.
  - pose proof (Hlate 25%nat 2000 ltac:(lia) ltac:(lia)) as H. cbv zeta in H.
    exact (proj1 H).
  - pose proof (Hearly 25%nat 1999 ltac:(lia)) as H. cbv zeta in H.
    exact (proj1 H).
Defined.

(** Markup complete from 1.2 s on is picked up by the attempt at 1.5 s. *)
Lemma activation_at_first_ready_attempt_witness :
  Gate.instances (Gate.script Samples.slow_world 10 0 [] 1499) = 0%nat
  ∧ Gate.instances (Gate.script Samples.slow_world 10 0 [] 1500) = 1%nat.
Proof.
  assert (Hnot : ∀ i, (i < 3)%nat →
            Gate.markup_ready (Gate.document_at Samples.slow_world (0 + 500 * Z.of_nat i))
            = false).
  { intros i Hi. destruct i as [|[|[|i]]]; [reflexivity..|lia]. }
  destruct (StartupFacts.activation_at_first_ready_attempt Samples.slow_world 0 3
              ltac:(lia) Hnot eq_refl eq_refl) as [Hafter Hbefore].
  split.
  - apply Hbefore; lia.
  - pose proof (Hafter 10%nat 1500 ltac:(lia) ltac:(lia)) as H. cbv zeta in H.
    exact (proj1 H).
Defined.

(** With the API loaded and no [#lightbox], three seconds of retries. *)
Lemma lightbox_wait_is_unbounded_witness :
  Gate.instances (Gate.run Samples.bare_world 50 3000
                    (Gate.initLightbox Samples.bare_world 0 Gate.booted)) = 0%nat
  ∧ (31 < next_id (Gate.timers (Gate.run Samples.bare_world 50 3000
                                  (Gate.initLightbox Samples.bare_world 0 Gate.booted))))%nat.
Proof.
  pose proof (StartupFacts.lightbox_wait_is_unbounded Samples.bare_world 0 Gate.booted
                eq_refl (λ _, eq_refl) (λ _, eq_refl) 50%nat 3000) as H.
  cbv zeta in H. destruct H as (_ & Hi & _ & Hn).
  split; [exact Hi|].
  specialize (Hn 30%nat ltac:(lia) ltac:(lia)).
  change (next_id (Gate.timers Gate.booted)) with 1%nat in Hn. exact Hn.
Defined.

(** A touch on the handle throws and leaves the drag on. *)
Lemma touch_press_throws_witness :
  Pointer.listen Samples.desktop (Pointer.HandleTouchStart (Samples.touch_at 300))
    Samples.watching
  = Thrown (with_ses (set_isDragging true) Samples.watching)
  ∧ ext (Pointer.deliver Samples.desktop Samples.watching
           (Pointer.HandleTouchStart (Samples.touch_at 300)))
    = ext Samples.watching.
Proof.
  destruct (PointerFacts.touch_press_throws Samples.desktop (Samples.touch_at 300)
              (Samples.touch_at 320) Samples.watching eq_refl)
    as (H1 & _ & H2 & _).
  split; [exact H1|exact H2].
Defined.



(** Closing when [destroy()] throws. *)
Lemma closeLightbox_aborts_when_destroy_throws_witness :
  currentPlayer (ses Samples.watching_brittle) = Some 0%nat
  ∧ ∃ s', closeLightbox Samples.brittle 1000 Samples.watching_brittle = Thrown s'
          ∧ ses s' = ses Samples.watching_brittle
          ∧ tq s' = tq Samples.watching_brittle.
Proof.
  split; [reflexivity|].
  destruct (CloseFacts.closeLightbox_aborts_when_destroy_throws Samples.brittle 1000
              Samples.watching_brittle 0 eq_refl eq_refl)
    as ((s' & Hc & Hs & _ & _ & _ & _ & Hq & _) & _).
  exists s'. split; [exact Hc|]. split; [exact Hs|exact Hq].
Defined.

(** A page at 300 px is at 300 px after opening and closing, natively and
    under the plugin. *)
Lemma open_close_restores_scroll_witness :
  ScrollLock.visible_offset
    (pg (state_of (closeLightbox Samples.desktop 1000
                     (openLightbox Samples.desktop 0 (Some Samples.demo_tile)
                        Samples.idle_at_300))))
  = ScrollLock.px 300
  ∧ ScrollLock.visible_offset
      (pg (state_of (closeLightbox Samples.desktop 1000
                       (openLightbox Samples.desktop 0 (Some Samples.demo_tile)
                          Samples.idle_smooth_300))))
    = ScrollLock.px 300.
Proof.
  split.
  - rewrite (CloseFacts.open_close_restores_scroll Samples.desktop 0 1000
               (Some Samples.demo_tile) Samples.idle_at_300).
    + reflexivity.
    + left. split; [discriminate|]. split; reflexivity.
  - rewrite (CloseFacts.open_close_restores_scroll Samples.desktop 0 1000
               (Some Samples.demo_tile) Samples.idle_smooth_300).
    + reflexivity.
    + right. split; [reflexivity|]. split; reflexivity.
Defined.

(** A constructor that throws leaves the error on screen. *)
Lemma loadVideo_fails_closed_witness :
  currentPlayer (ses (loadVideo Samples.no_player 0 (Some "123"%string) true
                        Samples.idle)) = None
  ∧ ReadyFacts.error_shown
      (run 5 1000 (loadVideo Samples.no_player 0 (Some "123"%string) true Samples.idle))
  ∧ ReadyFacts.controls_hidden
      (run 5 1000 (loadVideo Samples.no_player 0 (Some "123"%string) true Samples.idle)).
Proof.
  assert (F : ReadyFacts.furnished Samples.idle) by (split; eexists; reflexivity).
  assert (Q : ∀ u, u ∈ pending (tq Samples.idle) → ReadyFacts.is_reveal (cb u) = false).
  { intros u Hu. by apply elem_of_nil in Hu. }
  pose proof (LoadFacts.loadVideo_fails_closed Samples.no_player 0 (Some "123"%string)
                true Samples.idle F Q (or_intror (or_intror eq_refl))) as H.
  cbv zeta in H. destruct H as (_ & Hp & Hrun).
  split; [exact Hp|]. apply Hrun.
Defined.

(** The loader of the idle modal: off at 599 ms, on at 600 ms. *)
Lemma loader_waits_600ms_witness :
  LoaderFacts.loader_off
    (run 5 599 (loadVideo Samples.desktop 0 (Some "123"%string) true Samples.idle))
  ∧ LoaderFacts.loader_on
      (run 5 600 (loadVideo Samples.desktop 0 (Some "123"%string) true Samples.idle)).
Proof.
  assert (Q : ∀ u, u ∈ pending (tq Samples.idle) → LoaderFacts.is_loader (cb u) = false).
  { intros u Hu. by apply elem_of_nil in Hu. }
  pose proof (LoaderFacts.loader_waits_600ms Samples.desktop Samples.idle
                (Some "123"%string) true 0 ∅ ReadyFacts.sample_ready_to_load
                eq_refl (not_elem_of_empty _) eq_refl Q) as H.
  cbv zeta in H. destruct H as [Hoff Hon].
  split; [apply Hoff; lia|apply Hon; [lia|simpl; lia]].
Defined.

(** A click in the middle of the track of a two-minute video seeks to one
    minute. *)
Lemma click_seeks_within_duration_witness :
  ∃ s' t, handleTimelineClick Samples.desktop 300 Samples.watching = Done s'
          ∧ log (ext s') = log (ext Samples.watching) ++ [(0%nat, SetCurrentTime (Fin t))]
          ∧ (t == 60)%Q.
Proof.
  pose proof (SeekFacts.click_seeks_within_duration Samples.desktop 300
                Samples.watching 0 Samples.track 120 _ _ eq_refl eq_refl eq_refl
                eq_refl eq_refl eq_refl eq_refl
                ltac:(intros c; vm_compute; discriminate)) as H.
  cbv zeta in H. destruct H as (s' & Hc & Hl & _).
  exists s'. eexists. split; [exact Hc|]. split; [exact Hl|]. reflexivity.
Defined.

(** A click at the left edge of a track without width. *)
Lemma click_on_collapsed_track_witness :
  log (ext (state_of (handleTimelineClick Samples.desktop 100
                        Samples.watching_collapsed)))
  = log (ext Samples.watching_collapsed) ++ [(0%nat, SetCurrentTime NaN)].
Proof.
  pose proof (SeekFacts.click_on_collapsed_track Samples.desktop 100
                Samples.watching_collapsed 0 Samples.collapsed_track
                eq_refl eq_refl eq_refl ltac:(reflexivity) ltac:(reflexivity)) as H.
  cbv zeta in H. exact (proj1 H).
Defined.

(** A tile re-initialised at 2 s is still marked failed at 5 s. *)
Lemma check_outlives_its_iframe_witness :
  Previews.failed
    (fst (Previews.play Samples.on_screen
            [(2000, Previews.Reinitialize (Some "456"%string))] 6000
            (Previews.createLoopVideoIframe 0 (Some "456"%string)
               Samples.bare_tile Timers.empty))) = true.
Proof.
  apply (RefreshFacts.check_outlives_its_iframe Samples.on_screen 0 2000
           (Some "456"%string) (Some "456"%string) "456"%string
           Samples.bare_tile Timers.empty [] 6000 eq_refl TimersFacts.wf_empty).
  - lia.
  - reflexivity.
  - lia.
Defined.

(** An iframe that loads at 800 ms with a size: the tile is not marked. *)
Lemma load_replaces_check_by_settle_witness :
  Previews.failed
    (fst (Previews.play Samples.on_screen [(800, Previews.IframeLoad 0)] 6000
            (Previews.reinitialize 0 (Some "456"%string) Samples.bare_tile
               Timers.empty))) = false.
Proof.
  assert (Q : ∀ u, u ∈ pending Timers.empty → RefreshFacts.foreign u).
  { intros u Hu. by apply elem_of_nil in Hu. }
  pose proof (RefreshFacts.load_replaces_check_by_settle Samples.on_screen 0 800 6000
                (Some "456"%string) "456"%string Samples.bare_tile Timers.empty
                eq_refl TimersFacts.wf_empty Q ltac:(lia) ltac:(lia)) as H.
  cbv zeta in H. destruct H as (_ & _ & H).
  change (Previews.next_fid Samples.bare_tile) with 0%nat in H.
  rewrite H. reflexivity.
Defined.

(** In a window 1280 px wide the cover of a loaded preview stays. *)
Lemma cover_stays_on_wide_windows_witness :
  ¬ RefreshFacts.cover_hidden
      (fst (Previews.play Samples.on_screen [(800, Previews.IframeLoad 0)] 6000
              (Previews.createLoopVideoIframe 0 (Some "456"%string)
                 Samples.bare_tile Timers.empty))).
Proof.
  apply (RefreshFacts.cover_stays_on_wide_windows Samples.on_screen).
  - intros t. reflexivity.
  - intros (c & Hc & Hv). vm_compute in Hc. injection Hc as <-. discriminate.
Defined.

(** A page with inline styles of its own after one cycle. *)
Lemma native_styles_after_cycle_witness :
  let p' := snd (ScrollLock.unlock
                   (fst (ScrollLock.lock ScrollLock.initial_fields Samples.styled_page))
                   (snd (ScrollLock.lock ScrollLock.initial_fields Samples.styled_page))) in
  ScrollLock.html_scrollBehavior p' = "smooth"%string
  ∧ ScrollLock.html_position p' = ""%string
  ∧ ScrollLock.html_width p' = ""%string.
Proof.
  pose proof (UnlockFacts.native_styles_after_cycle ScrollLock.initial_fields
                Samples.styled_page ltac:(discriminate) eq_refl) as H.
  cbv zeta in H. destruct H as (H1 & H2 & _ & H3 & _).
  cbv zeta. split; [exact H1|]. split; [exact H2|exact H3].
Defined.

(** A plugin whose [scrollTo] throws stays paused. *)
Lemma plugin_unlock_fallbacks_witness :
  ScrollLock.sm_paused
    (ScrollLock.plugin
       (snd (ScrollLock.unlock
               (fst (ScrollLock.lock ScrollLock.initial_fields Samples.faulty_smooth_page))
               (snd (ScrollLock.lock ScrollLock.initial_fields
                       Samples.faulty_smooth_page))))) = true.
Proof.
  pose proof (UnlockFacts.plugin_unlock_fallbacks ScrollLock.initial_fields
                Samples.faulty_smooth_page eq_refl eq_refl) as H.
  cbv zeta in H. destruct H as (H & _). exact (proj1 (H eq_refl)).
Defined.

(** Destroying the player of the open modal, twice. *)
Lemma destroy_is_idempotent_witness :
  currentPlayer (ses (destroy Samples.desktop Samples.watching)) = None
  ∧ destroy Samples.desktop (destroy Samples.desktop Samples.watching)
    = destroy Samples.desktop Samples.watching.
Proof.
  destruct (DestroyFacts.destroy_is_idempotent Samples.desktop Samples.watching
              ltac:(intros l h; vm_compute; discriminate)) as (H1 & H2 & _).
  split; [exact H1|exact H2].
Defined.

End FurtherExamples.
